(** * SinesHydro: the signal-processing engine of [hydrogeosines/ext/hgs_analysis.py]

    A shallow embedding of [Analysis.harmonic_lsqr], [Analysis.lin_window_ovrlp]
    and [Analysis.regress_deconv], of the time-domain estimators of the
    barometric efficiency ([BE_average_of_ratios], [BE_median_of_ratios],
    [BE_Clark], [BE_Davis_and_Rasmussen], [BE_Rahi]).

    Numbers.  A finite float64 is a rational, so arrays of floats are lists of
    [Q]; arithmetic is exact (rounding is not modelled) and results are stated
    up to [==].  Where the source depends on the non-finite values of IEEE
    arithmetic they are written out: a missing sample ([np.nan]) is [None] in
    an [option Q], and a quotient that numpy may evaluate with a zero divisor
    is an [xfloat].

    Library code.  [numpy.linalg.lstsq], [scipy.optimize.curve_fit],
    [scipy.linalg.svdvals], [np.cos], [np.sin], [np.sqrt] and the constant
    table [const.const['_etfqs']] are not part of the file that is modelled;
    they are the fields of the class [SciLib], and what their documentation
    promises is the class [SciLibSpec]; [scipy.stats.linregress] is an
    argument of [BE_Clark]. *)

From Stdlib Require Import String.
From Stdlib Require Import QArith Qround Qabs ZArith List Bool Arith Lia Lqa.
From Stdlib Require Import Setoid Morphisms.
Import ListNotations.

Open Scope Q_scope.

(** ** Python outcomes: exceptions and warnings *)

Inductive exn : Type :=
| Exception (msg : string)   (* [raise Exception(msg)] of the source *)
| IndexError
| ValueError
| TypeError
| ZeroDivisionError
| OverflowError.

Inductive result (A : Type) : Type :=
| Ok (a : A)
| Raise (e : exn).

Arguments Ok {A} a.
Arguments Raise {A} e.

(** A float that may be non-finite. *)
Inductive xfloat : Type :=
| Fin (q : Q)
| PInf
| NInf
| NaN.

(** [warnings.warn(...)]: the one warning of the engine carries the condition
    number it reports. *)
Inductive warning : Type :=
| IllConditioned (condnum : xfloat).

(** A call yields a value or an exception, and the warnings issued on the way. *)
Definition M (A : Type) : Type := (result A * list warning)%type.

Definition ret {A} (a : A) : M A := (Ok a, []).

Definition raise {A} (e : exn) : M A := (Raise e, []).

Definition warn (w : warning) : M unit := (Ok tt, [w]).

Definition lift {A} (r : result A) : M A := (r, []).

Definition bind {A B} (m : M A) (f : A -> M B) : M B :=
  match m with
  | (Ok a, w) => let '(r, w') := f a in (r, w ++ w')
  | (Raise e, w) => (Raise e, w)
  end.

Definition rbind {A B} (m : result A) (f : A -> result B) : result B :=
  match m with
  | Ok a => f a
  | Raise e => Raise e
  end.

Declare Scope py_scope.
Delimit Scope py_scope with py.
Notation "x <- m ;; k" := (bind m (fun x => k))
  (at level 61, m at next level, right associativity) : py_scope.
Notation "m ;;; k" := (bind m (fun _ => k))
  (at level 61, right associativity) : py_scope.
Notation "x <~ m ;; k" := (rbind m (fun x => k))
  (at level 61, m at next level, right associativity) : py_scope.
Open Scope py_scope.

(** ** numpy on one-dimensional arrays *)

(** [a[i]] for a non-negative index. *)
Definition getitem {A} (a : list A) (i : nat) : result A :=
  match nth_error a i with
  | Some x => Ok x
  | None => Raise IndexError
  end.

(** [a[-1]]. *)
Definition getitem_last (a : list Q) : result Q :=
  match a with
  | [] => Raise IndexError
  | _ => Ok (last a 0)
  end.

(** [a[idx]] with an integer index array. *)
Fixpoint take {A} (a : list A) (idx : list nat) : result (list A) :=
  match idx with
  | [] => Ok []
  | i :: rest =>
      x <~ getitem a i ;;
      xs <~ take a rest ;;
      Ok (x :: xs)
  end.

(** [a[lo:hi]] for [0 <= lo], [0 <= hi]: out-of-range bounds are clipped. *)
Definition slice {A} (a : list A) (lo hi : nat) : list A :=
  firstn (hi - lo) (skipn lo a).

(** [range(start, stop, step)] for non-negative arguments and [0 < step]. *)
Definition py_range (start stop step : nat) : list nat :=
  map (fun i => (start + i * step)%nat) (seq 0 ((stop - start + step - 1) / step)).

(** [a[start:-1:2]]: every second entry from [start], the last entry excluded. *)
Definition slice_step2 (a : list Q) (start : nat) : list Q :=
  map (fun k => nth k a 0) (py_range start (length a - 1) 2).

Fixpoint np_diff (a : list Q) : list Q :=
  match a with
  | x :: ((y :: _) as rest) => (y - x) :: np_diff rest
  | _ => []
  end.

Definition np_sum (a : list Q) : Q := fold_right Qplus 0 a.

Fixpoint cumsum_from (acc : Q) (a : list Q) : list Q :=
  match a with
  | [] => []
  | x :: rest => (acc + x) :: cumsum_from (acc + x) rest
  end.

(** [np.cumsum]: the first entry is the first element itself. *)
Definition np_cumsum (a : list Q) : list Q :=
  match a with
  | [] => []
  | x :: rest => x :: cumsum_from x rest
  end.

Definition Qminb (x y : Q) : Q := if Qle_bool x y then x else y.
Definition Qmaxb (x y : Q) : Q := if Qle_bool x y then y else x.

(** [np.min], [np.max]: a zero-size array has no minimum. *)
Definition np_min (a : list Q) : result Q :=
  match a with
  | [] => Raise ValueError
  | x :: rest => Ok (fold_left Qminb rest x)
  end.

Definition np_max (a : list Q) : result Q :=
  match a with
  | [] => Raise ValueError
  | x :: rest => Ok (fold_left Qmaxb rest x)
  end.

(** [np.round] to an integer: halves go to the even neighbour. *)
Definition rint (x : Q) : Z :=
  let f := Qfloor x in
  let d := x - inject_Z f in
  if Qle_bool d (1 # 2)
  then (if Qeq_bool d (1 # 2) then (if Z.even f then f else f + 1) else f)%Z
  else (f + 1)%Z.

(** [np.around(x, 6)]. *)
Definition np_around6 (x : Q) : Q := inject_Z (rint (x * 1000000)) / 1000000.

(** Python's [int(x)] on a finite float truncates toward zero. *)
Definition py_int (x : Q) : Z := if Qle_bool 0 x then Qfloor x else Qceiling x.

(** Division of floats by numpy: a zero divisor gives [inf] or [nan]. *)
Definition np_divide (a b : Q) : xfloat :=
  if Qeq_bool b 0
  then (if Qeq_bool a 0 then NaN else if Qle_bool 0 a then PInf else NInf)
  else Fin (a / b).

(** [x > thr] on floats: every comparison with [nan] is false. *)
Definition xgt (x : xfloat) (thr : Q) : bool :=
  match x with
  | Fin q => negb (Qle_bool q thr)
  | PInf => true
  | NInf => false
  | NaN => false
  end.

(** Elementwise binary operation with numpy's broadcasting of 1-d arrays. *)
Fixpoint zipwith {A B C} (op : A -> B -> C) (a : list A) (b : list B) : list C :=
  match a, b with
  | x :: a', y :: b' => op x y :: zipwith op a' b'
  | _, _ => []
  end.

Definition bcast2 {A B C} (op : A -> B -> C) (a : list A) (b : list B)
  : result (list C) :=
  if (length a =? length b)%nat then Ok (zipwith op a b)
  else match a, b with
       | [x], _ => Ok (map (op x) b)
       | _, [y] => Ok (map (fun x => op x y) a)
       | _, _ => Raise ValueError
       end.

(** [np.nanmean] of an array without missing samples.  (Of an empty array
    numpy returns [nan]; the engine only adds that value to an empty array.) *)
Definition nanmean (a : list Q) : Q := np_sum a / inject_Z (Z.of_nat (length a)).

(** [np.linspace(0, stop, num, endpoint=True)]. *)
Definition linspace0 (stop : Q) (num : Z) : result (list Q) :=
  if (num <? 0)%Z then Raise ValueError
  else Ok (map (fun i => if (num =? 1)%Z then 0
                         else inject_Z (Z.of_nat i) * (stop / inject_Z (num - 1)))
               (seq 0 (Z.to_nat num))).

(** [np.pi], the float64 nearest to pi. *)
Definition np_pi : Q := 884279719003555 # 281474976710656.

(** ** Matrices *)

(** A design matrix, stored by columns as the source fills it
    ([Phi[:,j] = ...], [np.hstack]); [shape0] is the number of rows. *)
Record matrix : Type := Matrix { shape0 : nat; cols : list (list Q) }.

Definition shape1 (A : matrix) : nat := length (cols A).

(** [np.hstack([A, B])] of two matrices with the same number of rows. *)
Definition hstack (A B : matrix) : matrix :=
  {| shape0 := shape0 A; cols := cols A ++ cols B |}.

(** [np.ones([n, 1])]. *)
Definition ones_col (n : nat) : matrix := {| shape0 := n; cols := [repeat 1 n] |}.

(** Entry [r] of [A @ w]. *)
Definition row_dot (cs : list (list Q)) (w : list Q) (r : nat) : Q :=
  np_sum (zipwith (fun col wi => nth r col 0 * wi) cs w).

(** [A @ w] and [np.dot(A, w)]: the shapes must agree. *)
Definition matvec (A : matrix) (w : list Q) : result (list Q) :=
  if (length w =? shape1 A)%nat
  then Ok (map (row_dot (cols A) w) (seq 0 (shape0 A)))
  else Raise ValueError.

(** The value assigned to a column of [n] rows ([A[:,j] = v]): [v] has [n]
    entries or is broadcast from one. *)
Definition fill_col (n : nat) (v : list Q) : result (list Q) :=
  if (length v =? n)%nat then Ok v
  else match v with
       | [x] => Ok (repeat x n)
       | _ => Raise ValueError
       end.

Fixpoint mapM {A B} (f : A -> result B) (l : list A) : result (list B) :=
  match l with
  | [] => Ok []
  | x :: rest =>
      y <~ f x ;;
      ys <~ mapM f rest ;;
      Ok (y :: ys)
  end.

(** A two-dimensional array stored by rows (the covariance matrix). *)
Definition array2 : Type := list (list Q).

Definition get2 (A : array2) (r c : nat) : Q := nth c (nth r A []) 0.

Definition nrows (A : array2) : nat := length A.

Definition ncols (A : array2) : nat :=
  match A with
  | [] => 0%nat
  | r :: _ => length r
  end.

(** [A[lo:hi, lo:hi]]. *)
Definition slice2 (A : array2) (lo hi : nat) : array2 :=
  map (fun row => slice row lo hi) (slice A lo hi).

(** [np.diagonal(A)]. *)
Definition np_diagonal (A : array2) : list Q :=
  map (fun i => get2 A i i) (seq 0 (Nat.min (nrows A) (ncols A))).

(** [np.tril(A, -1)]: the entries strictly below the diagonal, zero elsewhere. *)
Definition np_tril_m1 (A : array2) : array2 :=
  map (fun r => map (fun c => if (c <? r)%nat then get2 A r c else 0)
                    (seq 0 (ncols A)))
      (seq 0 (nrows A)).

(** [np.sum] of a two-dimensional array. *)
Definition np_sum2 (A : array2) : Q := np_sum (map np_sum A).

(** ** Library functions *)

(** What [np.linalg.lstsq(a, b, rcond=None)] returns. *)
Record lstsq_out : Type := LstsqOut {
  ls_x : list Q;
  ls_residuals : list Q;
  ls_rank : nat;
  ls_s : list Q
}.

Class SciLib : Type := {
  np_cos : Q -> Q;
  np_sin : Q -> Q;
  np_sqrt : Q -> Q;
  (** [np.linalg.lstsq(a, b, rcond=None)] *)
  lstsq : matrix -> list Q -> lstsq_out;
  (** [curve_fit(f, xdata, ydata, p0=p0)] for the model [f(x, *c) = Z @ c]
      that [brf_total(Z)] builds; it returns the parameters and their
      covariance, or raises. *)
  curve_fit : matrix -> list Q -> list Q -> list Q -> result (list Q * array2);
  (** [scipy.linalg.svdvals] *)
  svdvals : matrix -> list Q;
  (** [const.const['_etfqs'].values()], the default tidal frequencies *)
  etfqs : list Q
}.

(** The documented behaviour of the library functions that the engine relies
    on: [lstsq] returns one parameter per column and, by its documentation,
    an empty [residuals] array "if the rank of a is < N or M <= N";
    [curve_fit] returns as many parameters as [p0] has, with a square
    covariance of that size. *)
Class SciLibSpec (L : SciLib) : Prop := {
  lstsq_shape : forall A b, length (ls_x (lstsq A b)) = shape1 A;
  lstsq_residuals_empty : forall A b,
    (shape0 A <= shape1 A)%nat \/ (ls_rank (lstsq A b) < shape1 A)%nat ->
    ls_residuals (lstsq A b) = [];
  curve_fit_shape : forall Z x y p0 c covar,
    curve_fit Z x y p0 = Ok (c, covar) ->
    length c = length p0 /\
    nrows covar = length p0 /\
    Forall (fun row => length row = length p0) covar
}.

(** ** [harmonic_lsqr] (lines 381-429) *)

Record complexQ : Type := Cplx { re : Q; im : Q }.

(** [x*1j] and [z + x] for a real [x]. *)
Definition times_j (x : Q) : complexQ := Cplx 0 x.
Definition cadd_real (z : complexQ) (x : Q) : complexQ := Cplx (re z + x) (im z).

Record hals_result : Type := HalsResult {
  freq : list Q;
  complex : list complexQ;
  err_var : xfloat;
  cond_num : xfloat;
  offset : Q;
  y_model : list Q
}.

Section Engine.

Context {L : SciLib}.

(** Lines 405-410: [Phi = np.empty((N, 2*num_freqs + 1))], a cosine and a sine
    column per frequency, and a last column of ones. *)
Definition hals_design (N : nat) (tf f : list Q) : result matrix :=
  pairs <~ mapM (fun fj =>
                   c <~ fill_col N (map (fun t => np_cos (fj * t)) tf) ;;
                   s <~ fill_col N (map (fun t => np_sin (fj * t)) tf) ;;
                   Ok [c; s]) f ;;
  Ok {| shape0 := N; cols := concat pairs ++ [repeat 1 N] |}.

(** The ill-conditioning check shared by the three regressions
    (lines 417-420, 584-587, 693-696). *)
Definition condition_check (singular : list Q) : M xfloat :=
  smax <- lift (np_max singular) ;;
  smin <- lift (np_min singular) ;;
  let condnum := np_divide smax smin in
  (if xgt condnum 1000000 then warn (IllConditioned condnum) else ret tt) ;;;
  ret condnum.

(** Lines 398-410: the time is made relative and the matrix assembled. *)
Definition harmonic_design (tf : list Q) (N : nat) (freqs : list Q)
  : result matrix :=
  let f := map (fun x => x * 2 * np_pi) freqs in
  tf0 <~ getitem tf 0 ;;
  let tf := map (fun t => t - inject_Z (Qfloor tf0)) tf in
  hals_design N tf f.

Definition harmonic_lsqr (tf data freqs : list Q) : M hals_result :=
  let N := length data in
  Phi <- lift (harmonic_design tf N freqs) ;;
  let sol := lstsq Phi data in
  let theta := ls_x sol in
  res0 <- lift (getitem (ls_residuals sol) 0) ;;
  let error_variance := np_divide res0 (inject_Z (Z.of_nat N)) in
  condnum <- condition_check (ls_s sol) ;;
  y_model <- lift (matvec Phi theta) ;;
  dc_comp <- lift (getitem_last theta) ;;
  hals_comp <- lift (bcast2 cadd_real (map times_j (slice_step2 theta 0))
                                      (slice_step2 theta 1)) ;;
  ret {| freq := freqs; complex := hals_comp; err_var := error_variance;
         cond_num := condnum; offset := dc_comp; y_model := y_model |}.

(** ** [lin_window_ovrlp] (lines 431-494) *)

Definition Qlt_bool (a b : Q) : bool := negb (Qle_bool b a).

(** [np.arange(start, stop, step)] on floats: [ceil((stop - start)/step)]
    entries [start + i*step]; numpy refuses a zero step. *)
Definition np_arange (start stop step : Q) : result (list Q) :=
  if Qeq_bool step 0 then Raise ValueError
  else Ok (map (fun i => start + inject_Z (Z.of_nat i) * step)
               (seq 0 (Z.to_nat (Qceiling ((stop - start) / step))))).

(** [np.where((x > lo) & (x <= hi))[0]]. *)
Definition where_in (x : list Q) (lo hi : Q) : list nat :=
  filter (fun k => Qlt_bool lo (nth k x 0) && Qle_bool (nth k x 0) hi)
         (seq 0 (length x)).

Definition isnan (v : option Q) : bool :=
  match v with
  | None => true
  | Some _ => false
  end.

(** [i[~np.isnan(y[i])]]: indexing [y] by [i] fails beyond its end. *)
Definition drop_nan (y : list (option Q)) (i : list nat) : result (list nat) :=
  yi <~ take y i ;;
  Ok (map fst (filter (fun p => negb (isnan (snd p))) (combine i yi))).

(** [y[i]] for an index array [i] that [drop_nan] has cleaned. *)
Definition finite_at (y : list (option Q)) (i : list nat) : list Q :=
  map (fun k => match nth k y None with Some v => v | None => 0 end) i.

(** [a[k] += v]. *)
Fixpoint add_at (a : list Q) (k : nat) (v : Q) : list Q :=
  match a, k with
  | [], _ => []
  | x :: rest, O => (x + v) :: rest
  | x :: rest, S k' => x :: add_at rest k' v
  end.

(** [np.add.at(a, idx, vals)]. *)
Definition np_add_at (a : list Q) (idx : list nat) (vals : list Q) : list Q :=
  fold_left (fun acc kv => add_at acc (fst kv) (snd kv)) (combine idx vals) a.

(** Lines 478-480: the residuals of the regression line of one window. *)
Definition window_detrend (x : list Q) (y : list (option Q)) (i : list nat)
  : result (list Q) :=
  let xi := map (fun k => nth k x 0) i in
  let yi := finite_at y i in
  let Ai := {| shape0 := length i; cols := [xi; repeat 1 (length i)] |} in
  let coe := ls_x (lstsq Ai yi) in
  coe0 <~ getitem coe 0 ;;
  coe1 <~ getitem coe 1 ;;
  Ok (zipwith (fun yk xk => yk - (coe0 * xk + coe1)) yi xi).

(** Lines 476-484: the loop over the surviving windows. *)
Fixpoint accumulate (x : list Q) (y : list (option Q)) (idx : list (list nat))
    (y_detr counter : list Q) : result (list Q * list Q) :=
  match idx with
  | [] => Ok (y_detr, counter)
  | i :: rest =>
      detrend <~ window_detrend x y i ;;
      accumulate x y rest (np_add_at y_detr i detrend)
                 (np_add_at counter i (repeat 1 (length i)))
  end.

(** Lines 469-475: the sample indices of every window that survives. *)
Definition windows (x : list Q) (y : list (option Q)) (length_ : Q)
    (stopper : Z) (interval : Q) : result (list (list nat)) :=
  x0 <~ getitem x 0 ;;
  x1 <~ getitem x 1 ;;
  xlast <~ getitem_last x ;;
  reg_times <~ np_arange (x0 - (x1 - x0) - length_) (xlast + length_) interval ;;
  let idx := map (fun tt => where_in x (tt - length_ / 2) (tt + length_ / 2))
                 reg_times in
  idx <~ mapM (drop_nan y) idx ;;
  Ok (filter (fun i => (stopper <=? Z.of_nat (length i))%Z) idx).

Definition lin_window_ovrlp (tf : list Q) (data : list (option Q))
    (length_ : Q) (stopper : Z) (n_ovrlp : Z) : result (list Q) :=
  let x := tf in
  let y := data in
  let y_detr := repeat 0 (length y) in
  let counter := repeat 0 (length y) in
  if (n_ovrlp + 1 =? 0)%Z then Raise ZeroDivisionError else
  let interval := length_ / inject_Z (n_ovrlp + 1) in
  idx <~ windows x y length_ stopper interval ;;
  acc <~ accumulate x y idx y_detr counter ;;
  let '(y_detr, counter) := acc in
  (* counter[counter==0] = np.nan *)
  let counter := map (fun c => if Qeq_bool c 0 then None else Some c) counter in
  (* y_detrend = y_detr/counter *)
  let y_detrend := zipwith (fun s c => match c with
                                       | Some c => Some (s / c)
                                       | None => None
                                       end) y_detr counter in
  (* y_detrend[np.isnan(y_detrend)] = 0.0 *)
  Ok (map (fun v => match v with Some q => q | None => 0 end) y_detrend).

(** ** [regress_deconv] (lines 512-746) *)

(** One response function: lag times, instantaneous response and its standard
    deviation, cumulative response and its standard deviation. *)
Record bundle : Type := Bundle {
  lag : list Q;
  irf : list Q;
  irf_stdev : list Q;
  crf : list Q;
  crf_stdev : list Q
}.

(** The ['erf'] entry: frequencies and complex coefficients in ['hals'] mode,
    a response function in ['ts'] mode. *)
Inductive erf_t : Type :=
| ErfFreq (fqs : list Q) (comp : list complexQ)
| ErfLag (b : bundle).

Record params : Type := Params { brf : bundle; erf : option erf_t }.

(** Column [i] of a lagged regression matrix of [n] rows
    ([k = np.arange(n-j); v[j+k, i] = d[k]]): rows [j..n-1] receive
    [d[0..n-j-1]], the rows above stay zero. *)
Definition lag_col (n j : nat) (d : list Q) : result (list Q) :=
  dk <~ take d (seq 0 (n - j)) ;;
  Ok (repeat 0 (Nat.min j n) ++ dk).

(** Lines 543-547, 657-662, 667-672 with [lags[i] = i]. *)
Definition lag_matrix (n nm : nat) (d : list Q) : result matrix :=
  cs <~ mapM (fun i => lag_col n i d) (seq 0 nm) ;;
  Ok {| shape0 := n; cols := cs |}.

(** Lines 555-560: [u1] or [u2], one column [fn(omega[i]*t[nn])] per frequency. *)
Definition tide_harmonics (fn : Q -> Q) (n : nat) (t omega : list Q)
  : result matrix :=
  cs <~ mapM (fun w => tn <~ take t (seq 0 n) ;;
                       Ok (map (fun tk => fn (w * tk)) tn)) omega ;;
  Ok {| shape0 := n; cols := cs |}.

(** Lines 590-592 and 699-701: the fitted contribution of the regressors,
    without the intercept, integrated over time. *)
Definition integrated_correction (dt : Q) (X : matrix) (c : list Q)
  : result (list Q) :=
  let nc := length c in
  (* dWLc = dt*np.cumsum(np.dot(X, c[1:nc])) *)
  Xc <~ matvec X (slice c 1 nc) ;;
  Ok (map (Qmult dt) (np_cumsum Xc)).

(** Lines 594-596 and 703-705: [WLc = GW - np.concatenate([[0], dWLc])] and
    [WLc += (np.nanmean(GW) - np.nanmean(WLc))]. *)
Definition recentre (GW dWLc : list Q) : result (list Q) :=
  WLc <~ bcast2 Qminus GW (0 :: dWLc) ;;
  let shift := nanmean GW - nanmean WLc in
  Ok (map (fun w => w + shift) WLc).

Definition head_correction (dt : Q) (X : matrix) (c GW : list Q)
  : result (list Q) :=
  dWLc <~ integrated_correction dt X c ;;
  recentre GW dWLc.

(** Lines 608-614: the variance of every partial sum of the coefficients
    whose covariance is [block]; the result array has [len] entries. *)
Definition cum_var (block : array2) (nm len : nat) : result (list Q) :=
  if (nm <=? len)%nat
  then Ok (map (fun i => let sub := slice2 block 0 (i + 1) in
                         let diag := np_diagonal sub in
                         let triaglow := np_tril_m1 sub in
                         np_sum diag + 2 * np_sum2 triaglow)
               (seq 0 nm)
           ++ repeat 0 (len - nm))
  else Raise IndexError.

(** Lines 602-616 and 711-725. *)
Definition brf_bundle (lag_t c : list Q) (covar : array2) (nm : nat)
  : result bundle :=
  brf <~ take c (seq 1 nm) ;;
  let brf_covar := slice2 covar 1 (nm + 1) in
  let brf_var := np_diagonal brf_covar in
  let brf_stdev := map np_sqrt brf_var in
  let cbrf := np_cumsum brf in
  cbrf_var <~ cum_var brf_covar nm (length brf_var) ;;
  Ok {| lag := lag_t; irf := brf; irf_stdev := brf_stdev;
        crf := cbrf; crf_stdev := map np_sqrt cbrf_var |}.

(** Lines 728-742. *)
Definition erf_bundle (lag_t c : list Q) (covar : array2) (nm : nat)
  : result bundle :=
  let erf := slice c (nm + 1) (2 * nm + 1) in
  let erf_covar := slice2 covar (nm + 1) (2 * nm + 1) in
  let erf_var := np_diagonal erf_covar in
  let erf_stdev := map np_sqrt erf_var in
  let cerf := np_cumsum erf in
  (* cerf_var = np.zeros(brf_var.shape) *)
  let brf_var := np_diagonal (slice2 covar 1 (nm + 1)) in
  cerf_var <~ cum_var erf_covar nm (length brf_var) ;;
  Ok {| lag := lag_t; irf := erf; irf_stdev := erf_stdev;
        crf := cerf; crf_stdev := map np_sqrt cerf_var |}.

(** [np.diff(a)/dt]. *)
Definition deriv (dt : Q) (a : list Q) : list Q :=
  map (fun d => d / dt) (np_diff a).

(** [int((lag_h/24)*spd) + 1], the number of lags. *)
Definition lag_count (lag_h : Q) (spd : Z) : Z :=
  (py_int ((lag_h / 24) * inject_Z spd) + 1)%Z.

(** [Z = np.hstack([np.ones([n,1]), X])] and the start value
    [0.5*np.ones(Z.shape[1])] of the fit. *)
Definition design (n : nat) (X : matrix) : matrix := hstack (ones_col n) X.

Definition start_values (Z : matrix) : list Q := repeat (1 # 2) (shape1 Z).

(** Lines 529-535, 638-650: the sample interval and the samples per day. *)
Definition sampling (t : list Q) : result (Q * Z) :=
  t1 <~ getitem t 1 ;;
  t0 <~ getitem t 0 ;;
  let dt := t1 - t0 in
  (* int(np.round(1/dt)): 1/dt is inf when dt is zero *)
  if Qeq_bool dt 0 then Raise OverflowError
  else Ok (dt, rint (1 / dt)).

(** Lines 549-563: the regressors of the ['hals'] branch, [v] alone or
    [np.hstack([v, u1, u2])]. *)
Definition hals_regressors (et : bool) (fqs : list Q) (n : nat) (t : list Q)
    (v : matrix) : result matrix :=
  if et
  then (let omega := map (fun f => 2 * np_pi * f) fqs in
        u1 <~ tide_harmonics np_cos n t omega ;;
        u2 <~ tide_harmonics np_sin n t omega ;;
        Ok (hstack (hstack v u1) u2))
  else Ok v.

(** Lines 665-675: the regressors of the ['ts'] branch, [V] alone or
    [np.hstack([V, W])]. *)
Definition ts_regressors (et : bool) (n nm : nat) (dET : list Q) (V : matrix)
  : result matrix :=
  if et
  then (W <~ lag_matrix n nm dET ;; Ok (hstack V W))
  else Ok V.

(** Lines 527-627: the ['hals'] branch. *)
Definition regress_hals (et : bool) (fqs tf GW BP : list Q) (lag_h : Q)
  : M (list Q * params) :=
  let t := tf in
  dtspd <- lift (sampling t) ;;
  let '(dt, spd) := dtspd in
  let dBP := deriv dt BP in
  let dWL := deriv dt GW in
  let n := length dBP in
  let nmZ := lag_count lag_h spd in
  (* v = np.zeros([n, nm]) *)
  if (nmZ <? 0)%Z then raise ValueError else
  let nm := Z.to_nat nmZ in
  v <- lift (lag_matrix n nm (map Qopp dBP)) ;;
  let NP := length fqs in
  X <- lift (hals_regressors et fqs n t v) ;;
  let Z := design n X in
  fit <- lift (curve_fit Z t dWL (start_values Z)) ;;
  let '(c, covar) := fit in
  _ <- condition_check (svdvals Z) ;;
  WLc <- lift (head_correction dt X c GW) ;;
  lag_t <- lift (linspace0 lag_h nmZ) ;;
  b <- lift (brf_bundle lag_t c covar nm) ;;
  if et
  then (ck <- lift (take c (seq (nm + 1) NP)) ;;
        cNPk <- lift (take c (seq (NP + (nm + 1)) NP)) ;;
        let trf := zipwith (fun a b => Cplx a b) ck cNPk in
        ret (WLc, {| brf := b; erf := Some (ErfFreq fqs trf) |}))
  else ret (WLc, {| brf := b; erf := None |}).

(** Lines 630-744: the ['ts'] branch. *)
Definition regress_ts (et : bool) (tf GW BP : list Q) (ET : option (list Q))
    (lag_h : Q) : M (list Q * params) :=
  match (if et then ET else Some []) with
  | None => raise (Exception "Error: Please input valid Earth tide data!")
  | Some ETv =>
    if et && negb (length tf =? length ETv)%nat
    then raise (Exception "Error: Earth tide data must have the same length!")
    else
    let t := tf in
    dtspd <- lift (sampling t) ;;
    let '(dt, spd) := dtspd in
    let dBP := deriv dt BP in
    let dWL := deriv dt GW in
    let dET := deriv dt ETv in
    let nlagZ := lag_count lag_h spd in
    (* lag = range(int((lag_h/24)*spd) + 1); nm = len(lag) *)
    let nm := Z.to_nat nlagZ in
    let n := length dBP in
    V <- lift (lag_matrix n nm (map Qopp dBP)) ;;
    XY <- lift (ts_regressors et n nm dET V) ;;
    let Z := design n XY in
    fit <- lift (curve_fit Z t dWL (start_values Z)) ;;
    let '(c, covar) := fit in
    _ <- condition_check (svdvals Z) ;;
    WLc <- lift (head_correction dt XY c GW) ;;
    lag_t <- lift (linspace0 lag_h nlagZ) ;;
    b <- lift (brf_bundle lag_t c covar nm) ;;
    if et
    then (e <- lift (erf_bundle lag_t c covar nm) ;;
          ret (WLc, {| brf := b; erf := Some (ErfLag e) |}))
    else ret (WLc, {| brf := b; erf := None |})
  end.

(** Line 524: [len(tf) != len(GW) != len(BP)] is Python's chained comparison,
    [len(tf) != len(GW) and len(GW) != len(BP)]. *)
Definition length_check (tf GW BP : list Q) : bool :=
  negb (length tf =? length GW)%nat && negb (length GW =? length BP)%nat.

Definition regress_deconv (tf GW BP : list Q) (ET : option (list Q))
    (lag_h : Q) (et_method : option string) (fqs : option (list Q))
  : M (list Q * params) :=
  let '(et, et_method) :=
    match ET, et_method with
    | None, None => (false, Some "hals"%string)
    | _, _ => (true, et_method)
    end in
  let fqs := match fqs with None => etfqs | Some f => f end in
  (* check that dataset is regularly sampled *)
  let tmp := np_diff tf in
  dmin <- lift (np_min tmp) ;;
  dmax <- lift (np_max tmp) ;;
  if negb (Qeq_bool (np_around6 dmin) (np_around6 dmax))
  then raise (Exception "Error: Dataset must be regularly sampled!")
  else if length_check tf GW BP
  then raise (Exception "Error: All input arrays must have the same length!")
  else match et_method with
       | Some m =>
           if String.eqb m "hals" then regress_hals et fqs tf GW BP lag_h
           else if String.eqb m "ts" then regress_ts et tf GW BP ET lag_h
           else raise (Exception "Error: Please only use available Earth tide methods!")
       | None =>
           raise (Exception "Error: Please only use available Earth tide methods!")
       end.

End Engine.

(** ** Barometric-efficiency estimators (lines 27-175) *)

(** [np.mean], [np.median] of a float array: [nan] for an empty one. *)
Definition np_mean (a : list Q) : xfloat :=
  np_divide (np_sum a) (inject_Z (Z.of_nat (length a))).

Fixpoint insert_sorted (x : Q) (a : list Q) : list Q :=
  match a with
  | [] => [x]
  | y :: rest => if Qle_bool x y then x :: a else y :: insert_sorted x rest
  end.

Definition np_sort (a : list Q) : list Q := fold_right insert_sorted [] a.

Definition np_median (a : list Q) : xfloat :=
  let s := np_sort a in
  let n := length a in
  match n with
  | O => NaN
  | _ => if Nat.even n
         then Fin ((nth (n / 2 - 1) s 0 + nth (n / 2) s 0) / 2)
         else Fin (nth (n / 2) s 0)
  end.

(** [np.sign] of a float. *)
Definition np_sign (x : Q) : Z :=
  match Qcompare x 0 with
  | Lt => (-1)%Z
  | Eq => 0%Z
  | Gt => 1%Z
  end.

(** [np.divide(Y, X, out=np.zeros_like(Y), where=X!=0)]: the quotient where
    [X] is not zero, the zero of [out] elsewhere; [X] is broadcast to the
    shape of [Y]. *)
Definition ratios (X Y : list Q) : result (list Q) :=
  let q := fun y x => if Qeq_bool x 0 then 0 else y / x in
  if (length X =? length Y)%nat then Ok (zipwith q Y X)
  else match X with
       | [x] => Ok (map (fun y => q y x) Y)
       | _ => Raise ValueError
       end.

(** Lines 27-51. *)
Definition BE_average_of_ratios (X Y : list Q) : result xfloat :=
  r <~ ratios X Y ;;
  Ok (np_mean r).

(** Lines 52-64. *)
Definition BE_median_of_ratios (X Y : list Q) : result xfloat :=
  r <~ ratios X Y ;;
  Ok (np_median r).

(** Lines 88-96 of [BE_Clark]: the running sums behind [sX[-1]] and [sY[-1]];
    the third branch is taken whenever the second is not. *)
Fixpoint clark_from (sx sy : Q) (X Y : list Q) : list Q * list Q :=
  match X, Y with
  | x :: X', y :: Y' =>
      let sx' := sx + Qabs x in
      let sy' := if Qeq_bool x 0 then sy
                 else if (np_sign y =? np_sign x)%Z then sy + Qabs y
                 else sy - Qabs y in
      let '(a, b) := clark_from sx' sy' X' Y' in
      (sx' :: a, sy' :: b)
  | _, _ => ([], [])
  end.

Definition clark_sums (X Y : list Q) : list Q * list Q :=
  let '(a, b) := clark_from 0 0 X Y in (0 :: a, 0 :: b).

Section Clark.

(** [scipy.stats.linregress(x, y)[0]], the slope of the regression line. *)
Variable linregress_slope : list Q -> list Q -> result xfloat.

(** Lines 78-98. *)
Definition BE_Clark (X Y : list Q) : result xfloat :=
  let '(sX, sY) := clark_sums X Y in
  linregress_slope sX sY.

End Clark.

(** Lines 132-137 of [BE_Davis_and_Rasmussen]: [Sclk_dW], with [dB[m]] read
    for every index of [dW]. *)
Fixpoint clark_sum (dW dB : list Q) (acc : Q) : result Q :=
  match dW with
  | [] => Ok acc
  | w :: dW' =>
      match dB with
      | [] => Raise IndexError
      | b :: dB' =>
          clark_sum dW' dB'
            (if (np_sign w =? np_sign b)%Z then acc + Qabs w else acc - Qabs w)
      end
  end.

(** Lines 100-143.  The result is an array of one entry.  When [Sabs_dB] is
    zero every [dB] is zero, [j] is zero and [cSnum/cSabs_dB] is [0/0]: the
    result is [nan]. *)
Definition BE_Davis_and_Rasmussen (X Y : list Q) : result xfloat :=
  let dB := map Qopp (np_diff X) in
  let n := length dB in
  let j := (Z.of_nat (length (filter (fun b => Qlt_bool 0 b) dB))
            - Z.of_nat (length (filter (fun b => Qlt_bool b 0) dB)))%Z in
  let Sraw_dB := np_sum dB in
  let Sabs_dB := np_sum (map Qabs dB) in
  let dW := np_diff Y in
  let Sraw_dW := np_sum dW in
  Sclk_dW <~ clark_sum dW dB 0 ;;
  (* float(j)/float(n) *)
  if (n =? 0)%nat then Raise ZeroDivisionError else
  let jn := inject_Z j / inject_Z (Z.of_nat n) in
  let cSnum := jn * Sraw_dW in
  let cSden := jn * Sraw_dB in
  let cSabs_dB := Sabs_dB in
  let cSclk_dW := Sclk_dW in
  if Qeq_bool cSabs_dB 0 then Ok NaN
  else Ok (np_divide (cSclk_dW / cSabs_dB - cSnum / cSabs_dB)
                     (1 - cSden / cSabs_dB)).

(** Lines 166-173 of [BE_Rahi]: the last entries of [sX] and [sY]. *)
Fixpoint rahi_sums (sx sy : Q) (X Y : list Q) : Q * Q :=
  match X, Y with
  | x :: X', y :: Y' =>
      if (np_sign y =? np_sign x)%Z && Qlt_bool (Qabs y) (Qabs x)
      then rahi_sums (sx + Qabs x) (sy + Qabs y) X' Y'
      else rahi_sums sx sy X' Y'
  | _, _ => (sx, sy)
  end.

(** Lines 145-175: [np.divide(sY[-1], sX[-1], out=np.zeros_like(Y),
    where=X!=0)], an array of the shape of [Y]. *)
Definition BE_Rahi (X Y : list Q) : result (list xfloat) :=
  let '(sx, sy) := rahi_sums 0 0 X Y in
  let q := fun x : Q => if Qeq_bool x 0 then Fin 0 else np_divide sy sx in
  if (length X =? length Y)%nat then Ok (map q X)
  else match X with
       | [x] => Ok (map (fun _ => q x) Y)
       | _ => Raise ValueError
       end.

(** * Vocabulary of the statements *)

(** The response functions of a result: the barometric one and, in ['ts']
    mode, the tidal one. *)
Definition lag_bundles (p : params) : list bundle :=
  brf p :: match erf p with
           | Some (ErfLag e) => [e]
           | _ => []
           end.

(** The variance of the sum of the coefficients [off .. off+i] of a fit with
    covariance [covar]: the diagonal entries plus twice the entries strictly
    below the diagonal. *)
Definition partial_sum_variance (covar : array2) (off i : nat) : Q :=
  np_sum (map (fun k => get2 covar (off + k) (off + k)) (seq 0 (i + 1)))
  + 2 * np_sum (map (fun k => np_sum (map (fun l => get2 covar (off + k) (off + l))
                                          (seq 0 k)))
                    (seq 0 (i + 1))).

(** The standard deviations [sd] are the square roots of the variances of the
    first [nm] partial sums of the coefficients from [off]. *)
Definition cumulative_stdev {L : SciLib} (covar : array2) (off nm : nat)
    (sd : list Q) : Prop :=
  exists var,
    sd = map np_sqrt var /\ length var = nm /\
    forall i, (i < nm)%nat -> nth i var 0 == partial_sum_variance covar off i.

(** A rectangular array of [r] rows and [c] columns. *)
Definition shape2 (A : array2) (r c : nat) : Prop :=
  length A = r /\ Forall (fun row => length row = c) A.

(** The correction that integrates the barometric contribution [v @ brf]
    alone. *)
Definition barometric_correction (dt : Q) (v : matrix) (brf : list Q) : list Q :=
  map (Qmult dt) (np_cumsum (map (row_dot (cols v) brf) (seq 0 (shape0 v)))).

(** Sample [s] belongs to the window with sample indices [i]. *)
Definition covers (s : nat) (i : list nat) : bool := existsb (Nat.eqb s) i.

(** The number of windows of [idx] that contribute to sample [s]. *)
Definition contributions (idx : list (list nat)) (s : nat) : nat :=
  length (filter (covers s) idx).

(** The value that a window with indices [i] and detrended values [detrend]
    holds for sample [s]; zero when [s] is not one of its samples. *)
Definition window_value (i : list nat) (detrend : list Q) (s : nat) : Q :=
  np_sum (map snd (filter (fun kv => (fst kv =? s)%nat) (combine i detrend))).

(** The sum over the windows [idx] of their detrended values for sample [s]. *)
Definition accumulated {L : SciLib} (x : list Q) (y : list (option Q))
    (idx : list (list nat)) (s : nat) : Q :=
  np_sum (map (fun i => match window_detrend x y i with
                        | Ok detrend => window_value i detrend s
                        | Raise _ => 0
                        end) idx).

(** A surviving window: at least [stopper] samples, each listed once, each
    a sample of the series that is not missing. *)
Definition surviving (y : list (option Q)) (stopper : Z) (i : list nat) : Prop :=
  (stopper <= Z.of_nat (length i))%Z /\ NoDup i /\
  forall k, In k i -> (k < length y)%nat /\ isnan (nth k y None) = false.

(** The reading of the correction as barometric only: every result of the
    ['hals'] branch is the head series minus the integrated barometric
    contribution [v @ brf], re-centred. *)
Definition barometric_only_claim {L : SciLib} (tf GW BP : list Q)
    (ET : option (list Q)) (lag_h : Q) (fqs : option (list Q)) : Prop :=
  forall WLc p w,
    regress_deconv tf GW BP ET lag_h (Some "hals"%string) fqs = (Ok (WLc, p), w) ->
    exists dt spd v W,
      sampling tf = Ok (dt, spd) /\
      lag_matrix (length (deriv dt BP)) (Z.to_nat (lag_count lag_h spd))
                 (map Qopp (deriv dt BP)) = Ok v /\
      recentre GW (barometric_correction dt v (irf (brf p))) = Ok W /\
      Forall2 Qeq W WLc.






(** * A reference library

    An instance of [SciLib] used to run the engine on concrete series.  Its
    solvers are exact on the designs listed here: the least-squares solutions
    and covariances are rational and are checked against the normal equations
    below; singular values and square roots are given to the precision of a
    float64. *)

Fixpoint list_eqb {A} (eqb : A -> A -> bool) (a b : list A) : bool :=
  match a, b with
  | [], [] => true
  | x :: a', y :: b' => eqb x y && list_eqb eqb a' b'
  | _, _ => false
  end.

Definition vec_eqb : list Q -> list Q -> bool := list_eqb Qeq_bool.

Definition matrix_eqb (A B : matrix) : bool :=
  (shape0 A =? shape0 B)%nat && list_eqb vec_eqb (cols A) (cols B).

(** [x] as a whole number of quarter turns [np.pi/2], if it is one. *)
Definition quarter_turns (x : Q) : option Z :=
  let q := Qred (x / (np_pi / 2)) in
  if (Zpos (Qden q) =? 1)%Z then Some (Qnum q) else None.

(** Cosine and sine: exact at the multiples of a quarter turn, a short Taylor
    polynomial elsewhere. *)
Definition ref_cos (x : Q) : Q :=
  match quarter_turns x with
  | Some k => match (k mod 4)%Z with
              | 0%Z => 1
              | 2%Z => -1
              | _ => 0
              end
  | None => 1 - x * x / 2 + x * x * x * x / 24
  end.

Definition ref_sin (x : Q) : Q :=
  match quarter_turns x with
  | Some k => match (k mod 4)%Z with
              | 1%Z => 1
              | 3%Z => -1
              | _ => 0
              end
  | None => x - x * x * x / 6
  end.

(** Square root to sixteen decimals (exact on squares of such numbers). *)
Definition ref_sqrt (x : Q) : Q :=
  if Qle_bool x 0 then 0
  else Qmake (Z.sqrt (Qnum x * Zpos (Qden x) * 10 ^ 32))
             (Qden x * 10 ^ 16).

(** The residual sum of squares of [theta] for [A] and [b]. *)
Definition residual_ss (A : matrix) (theta b : list Q) : Q :=
  np_sum (zipwith (fun f y => (f - y) * (f - y))
                  (map (row_dot (cols A) theta) (seq 0 (shape0 A))) b).

(** The regression line through [(xs, ys)], as [lstsq] returns it for the
    matrix of [n0] rows with columns [xs] and ones. *)
Definition linregress (n0 : nat) (xs ys : list Q) : lstsq_out :=
  let n := inject_Z (Z.of_nat (length xs)) in
  let sx := np_sum xs in
  let sy := np_sum ys in
  let sxx := np_sum (map (fun x => x * x) xs) in
  let sxy := np_sum (zipwith Qmult xs ys) in
  let D := n * sxx - sx * sx in
  let A := {| shape0 := length xs; cols := [xs; repeat 1 (length xs)] |} in
  let disc := ref_sqrt ((sxx - n) * (sxx - n) + 4 * sx * sx) in
  let s := firstn (length xs)
                  [ref_sqrt ((sxx + n + disc) / 2); ref_sqrt ((sxx + n - disc) / 2)] in
  if Qeq_bool D 0
  then (let a := hd 0 xs in
        let m := sy / n in
        {| ls_x := [a * m / (a * a + 1); m / (a * a + 1)];
           ls_residuals := [];
           ls_rank := Nat.min (length xs) 1;
           ls_s := s |})
  else (let slope := (n * sxy - sx * sy) / D in
        let theta := [slope; (sy - slope * sx) / n] in
        {| ls_x := theta;
           ls_residuals := if (n0 <=? 2)%nat then []
                           else [residual_ss A theta ys];
           ls_rank := 2;
           ls_s := s |}).

(** The design of a harmonic fit of four samples a quarter period apart at
    one frequency (cosine, sine, ones: orthogonal columns), and that of four
    samples at the frequency zero (rank one). *)
Definition Phi_orth : matrix :=
  {| shape0 := 4; cols := [[1; 0; -1; 0]; [0; 1; 0; -1]; [1; 1; 1; 1]] |}.

Definition Phi_rank1 : matrix :=
  {| shape0 := 4; cols := [[1; 1; 1; 1]; [0; 0; 0; 0]; [1; 1; 1; 1]] |}.

Definition ref_lstsq (A : matrix) (b : list Q) : lstsq_out :=
  if matrix_eqb A Phi_orth
  then (let theta := [(nth 0 b 0 - nth 2 b 0) / 2; (nth 1 b 0 - nth 3 b 0) / 2;
                      np_sum b / 4] in
        {| ls_x := theta; ls_residuals := [residual_ss A theta b]; ls_rank := 3;
           ls_s := [2; 14142135623730951 # 10000000000000000;
                    14142135623730951 # 10000000000000000] |})
  else if matrix_eqb A Phi_rank1
  then {| ls_x := [np_sum b / 8; 0; np_sum b / 8]; ls_residuals := [];
          ls_rank := 1;
          ls_s := [28284271247461903 # 10000000000000000; 0; 0] |}
  else match cols A with
       | [xs; ones] =>
           if vec_eqb ones (repeat 1 (length xs)) then linregress (shape0 A) xs b
           else {| ls_x := [0; 0]; ls_residuals := []; ls_rank := 2; ls_s := [] |}
       | _ => {| ls_x := repeat 0 (shape1 A); ls_residuals := [];
                 ls_rank := shape1 A; ls_s := [] |}
       end.

(** A series in ['ts'] mode: nine daily samples, a maximum lag of a day. *)
Definition tf_ts : list Q := [0; 1; 2; 3; 4; 5; 6; 7; 8].
Definition BP_ts : list Q := [0; 1; 3; 2; 2; 5; 4; 6; 5].
Definition ET_ts : list Q := [0; 2; 1; -1; 0; 2; 3; 1; 0].
Definition GW_ts : list Q := [10; 11; 10; 12; 11; 13; 12; 12; 14].

Definition Z_ts : matrix :=
  {| shape0 := 8;
     cols := [[1; 1; 1; 1; 1; 1; 1; 1];
              [-1; -2; 1; 0; -3; 1; -2; 1];
              [0; -1; -2; 1; 0; -3; 1; -2];
              [2; -1; -2; 1; 2; 1; -2; -1];
              [0; 2; -1; -2; 1; 2; 1; -2]] |}.

Definition y_ts : list Q := [1; -1; 2; -1; 2; -1; 0; 2].

Definition c_ts : list Q :=
  [-86019 # 86978; -107261 # 86978; -49554 # 43489; -723 # 43489; -94889 # 86978].

Definition covar_ts : array2 :=
  [[19228089581 # 22695517452; 11310413489 # 22695517452; 5361921575 # 11347758726;
    -2501851 # 5673879363; 6635136293 # 22695517452];
   [11310413489 # 22695517452; 3330418563 # 7565172484; 1288453265 # 3782586242;
    63228598 # 5673879363; 5857288073 # 22695517452];
   [5361921575 # 11347758726; 1288453265 # 3782586242; 2168195053 # 5673879363;
    -61181629 # 5673879363; 2449767011 # 11347758726];
   [-2501851 # 5673879363; 63228598 # 5673879363; -61181629 # 5673879363;
    519475244 # 5673879363; -30931976 # 5673879363];
   [6635136293 # 22695517452; 5857288073 # 22695517452; 2449767011 # 11347758726;
    -30931976 # 5673879363; 1867518051 # 7565172484]].

(** A series in ['hals'] mode with one tidal frequency of a quarter cycle per
    day: seven daily samples, no lag; the heads follow the model exactly. *)
Definition tf_hals : list Q := [0; 1; 2; 3; 4; 5; 6].
Definition BP_hals : list Q := [0; 1; 3; 2; 2; 5; 4].
Definition GW_hals : list Q := [10; 21 # 2; 10; 19 # 2; 9; 17 # 2; 19 # 2].
Definition fqs_hals : list Q := [1 # 4].

Definition Z_hals : matrix :=
  {| shape0 := 6;
     cols := [[1; 1; 1; 1; 1; 1];
              [-1; -2; 1; 0; -3; 1];
              [1; 0; -1; 0; 1; 0];
              [0; 1; 0; -1; 0; 1]] |}.

Definition y_hals : list Q := [1 # 2; -1 # 2; -1 # 2; -1 # 2; -1 # 2; 1].

Definition c_hals : list Q := [0; 1 # 2; 1; 1 # 2].

Definition covar_hals : array2 :=
  [[0; 0; 0; 0]; [0; 0; 0; 0]; [0; 0; 0; 0]; [0; 0; 0; 0]].

Definition ref_curve_fit (Z : matrix) (xdata ydata p0 : list Q)
  : result (list Q * array2) :=
  if matrix_eqb Z Z_ts && vec_eqb ydata y_ts && (length p0 =? 5)%nat
  then Ok (c_ts, covar_ts)
  else if matrix_eqb Z Z_hals && vec_eqb ydata y_hals && (length p0 =? 4)%nat
  then Ok (c_hals, covar_hals)
  else Raise ValueError.

Definition ref_svdvals (Z : matrix) : list Q :=
  if matrix_eqb Z Z_ts
  then [5779646855080341 # 1000000000000000; 49741289162827025 # 10000000000000000;
        4195146721109204 # 1000000000000000; 3344437072709229 # 1000000000000000;
        1034025342926853 # 1000000000000000]
  else if matrix_eqb Z Z_hals
  then [4369279838497061 # 1000000000000000; 22286926477352793 # 10000000000000000;
        16476656388062183 # 10000000000000000; 11079353399594802 # 10000000000000000]
  else [1].

(** The table of tidal frequencies is not among the modelled sources; four
    usual constituents (O1, K1, M2, S2, in cycles per day) stand for it. *)
Definition ref_lib : SciLib :=
  {| np_cos := ref_cos; np_sin := ref_sin; np_sqrt := ref_sqrt;
     lstsq := ref_lstsq; curve_fit := ref_curve_fit; svdvals := ref_svdvals;
     etfqs := [929536 # 1000000; 1002738 # 1000000; 1932274 # 1000000; 2] |}.

(** [c] and [covar] are the least-squares fit of [y] on [Z]: the residual is
    orthogonal to every column, and [covar] times the Gram matrix is the
    residual variance [RSS/(n - m)] times the identity. *)
Definition is_least_squares_fit (Z : matrix) (y c : list Q) (covar : array2)
  : bool :=
  let fit := map (row_dot (cols Z) c) (seq 0 (shape0 Z)) in
  let res := zipwith Qminus fit y in
  let m := shape1 Z in
  let s2 := np_sum (map (fun r => r * r) res)
            / inject_Z (Z.of_nat (shape0 Z - m)) in
  forallb (fun col => Qeq_bool (np_sum (zipwith Qmult col res)) 0) (cols Z)
  && forallb (fun i =>
       forallb (fun j =>
         Qeq_bool (np_sum (map (fun k => get2 covar i k
                                         * np_sum (zipwith Qmult (nth k (cols Z) [])
                                                                 (nth j (cols Z) [])))
                               (seq 0 m)))
                  (if (i =? j)%nat then s2 else 0))
         (seq 0 m))
       (seq 0 m).

(** The runs of the engine on these series. *)
Definition run_ts : M (list Q * params) :=
  regress_deconv (L := ref_lib) tf_ts GW_ts BP_ts (Some ET_ts) 24
                 (Some "ts"%string) None.

Definition run_hals : M (list Q * params) :=
  regress_deconv (L := ref_lib) tf_hals GW_hals BP_hals None 0
                 (Some "hals"%string) (Some fqs_hals).

(** The corrected series and the parameters of a run (empty when it raised). *)
Definition corrected_of (r : M (list Q * params)) : list Q :=
  match fst r with
  | Ok (WLc, _) => WLc
  | Raise _ => []
  end.

Definition params_of (r : M (list Q * params)) : params :=
  match fst r with
  | Ok (_, p) => p
  | Raise _ => {| brf := Bundle [] [] [] [] []; erf := None |}
  end.

(** A harmonic fit of the signal [3 cos + 2 sin + 5] at one cycle per day,
    sampled every quarter day. *)
Definition run_harmonic : M hals_result :=
  harmonic_lsqr (L := ref_lib) [0; 1 # 4; 1 # 2; 3 # 4] [8; 7; 2; 3] [1].

Definition result_of (r : M hals_result) : hals_result :=
  match fst r with
  | Ok h => h
  | Raise _ => HalsResult [] [] NaN NaN 0 []
  end.

(** A second library, for calls without Earth tides and without lags: its
    [curve_fit] is the regression line with its covariance
    [RSS/(n - 2) (Z'Z)^-1], exact for every design of a column of ones and
    one regressor; its singular values are those of that design. *)
Definition line_fit (xs ys : list Q) : result (list Q * array2) :=
  let n := inject_Z (Z.of_nat (length xs)) in
  let sx := np_sum xs in
  let sy := np_sum ys in
  let sxx := np_sum (map (fun x => x * x) xs) in
  let sxy := np_sum (zipwith Qmult xs ys) in
  let D := n * sxx - sx * sx in
  if Qeq_bool D 0 || (length xs <=? 2)%nat then Raise ValueError
  else (let slope := (n * sxy - sx * sy) / D in
        let icpt := (sy - slope * sx) / n in
        let rss := np_sum (zipwith (fun x y => (icpt + slope * x - y)
                                               * (icpt + slope * x - y)) xs ys) in
        let s2 := rss / (n - 2) in
        Ok ([icpt; slope],
            [[s2 * sxx / D; - (s2 * sx / D)]; [- (s2 * sx / D); s2 * n / D]])).

Definition line_curve_fit (Z : matrix) (xdata ydata p0 : list Q)
  : result (list Q * array2) :=
  match cols Z with
  | [ones; xs] =>
      if vec_eqb ones (repeat 1 (length xs)) && (length p0 =? 2)%nat
         && (length ydata =? length xs)%nat
      then line_fit xs ydata
      else Raise ValueError
  | _ => Raise ValueError
  end.

Definition line_svdvals (Z : matrix) : list Q :=
  match cols Z with
  | [ones; xs] =>
      let n := inject_Z (Z.of_nat (length xs)) in
      let sx := np_sum xs in
      let sxx := np_sum (map (fun x => x * x) xs) in
      let disc := ref_sqrt ((sxx - n) * (sxx - n) + 4 * sx * sx) in
      [ref_sqrt ((sxx + n + disc) / 2); ref_sqrt ((sxx + n - disc) / 2)]
  | _ => [1]
  end.

Definition line_lib : SciLib :=
  {| np_cos := ref_cos; np_sin := ref_sin; np_sqrt := ref_sqrt;
     lstsq := ref_lstsq; curve_fit := line_curve_fit; svdvals := line_svdvals;
     etfqs := [929536 # 1000000; 1002738 # 1000000; 1932274 # 1000000; 2] |}.

(** A default call: six daily samples, no lag, no Earth tides. *)
Definition tf_baro : list Q := [0; 1; 2; 3; 4; 5].
Definition BP_baro : list Q := [0; 1; 3; 2; 2; 5].
Definition GW_baro : list Q := [10; 11; 10; 12; 11; 14].

Definition run_baro : M (list Q * params) :=
  regress_deconv (L := line_lib) tf_baro GW_baro BP_baro None 0 None None.

(** * Properties *)

(** ** The outcome monad *)

Lemma rbind_Ok {A B} (m : result A) (f : A -> result B) (b : B) :
  rbind m f = Ok b -> exists a, m = Ok a /\ f a = Ok b.
Proof.
  destruct m as [a|e]; simpl; intros H; [exists a; auto | discriminate].
Qed.

Lemma bind_Ok {A B} (m : M A) (f : A -> M B) (b : B) (w : list warning) :
  bind m f = (Ok b, w) ->
  exists a w1 w2, m = (Ok a, w1) /\ f a = (Ok b, w2) /\ w = w1 ++ w2.
Proof.
  destruct m as [[a|e] w1]; simpl; [|discriminate].
  destruct (f a) as [r w2] eqn:E. intros H; inversion H; subst.
  exists a, w1, w2; auto.
Qed.

Lemma lift_Ok {A} (r : result A) (a : A) (w : list warning) :
  lift r = (Ok a, w) -> r = Ok a /\ w = [].
Proof. unfold lift; intros H; inversion H; auto. Qed.

Lemma bind_lift_Ok {A B} (r : result A) (f : A -> M B) (b : B) (w : list warning) :
  bind (lift r) f = (Ok b, w) -> exists a, r = Ok a /\ f a = (Ok b, w).
Proof.
  intros H. apply bind_Ok in H as (a & w1 & w2 & H1 & H2 & ->).
  apply lift_Ok in H1 as [-> ->]. exists a; auto.
Qed.

(** ** Sums and cumulative sums *)

Lemma np_sum_cons (x : Q) (a : list Q) : np_sum (x :: a) = x + np_sum a.
Proof. reflexivity. Qed.

Lemma np_sum_app (a b : list Q) : np_sum (a ++ b) == np_sum a + np_sum b.
Proof.
  induction a as [|x a IH]; simpl; [ring | rewrite IH; ring].
Qed.

Lemma np_sum_ext {A} (f g : A -> Q) (l : list A) :
  (forall x, In x l -> f x == g x) -> np_sum (map f l) == np_sum (map g l).
Proof.
  induction l as [|x l IH]; simpl; intros H; [reflexivity|].
  rewrite (H x (or_introl eq_refl)), IH; [reflexivity | auto].
Qed.

Lemma np_sum_zero {A} (l : list A) : np_sum (map (fun _ => 0) l) == 0.
Proof. induction l as [|x l IH]; simpl; [reflexivity | rewrite IH; ring]. Qed.

Lemma cumsum_from_length (acc : Q) (l : list Q) :
  length (cumsum_from acc l) = length l.
Proof. revert acc; induction l as [|x l IH]; simpl; intros; [|rewrite IH]; auto. Qed.

Lemma np_cumsum_length (l : list Q) : length (np_cumsum l) = length l.
Proof. destruct l; simpl; [|rewrite cumsum_from_length]; auto. Qed.

Lemma cumsum_from_step (acc : Q) (l : list Q) (i : nat) :
  (S i < length l)%nat ->
  nth (S i) (cumsum_from acc l) 0 = nth i (cumsum_from acc l) 0 + nth (S i) l 0.
Proof.
  revert acc i; induction l as [|x l IH]; simpl; intros acc i Hi; [lia|].
  destruct i as [|i].
  - destruct l as [|y l]; simpl in *; [lia | reflexivity].
  - apply IH. lia.
Qed.

Lemma np_cumsum_first (l : list Q) : nth 0 (np_cumsum l) 0 = nth 0 l 0.
Proof. destruct l; reflexivity. Qed.

Lemma np_cumsum_step (l : list Q) (i : nat) :
  (S i < length l)%nat ->
  nth (S i) (np_cumsum l) 0 = nth i (np_cumsum l) 0 + nth (S i) l 0.
Proof.
  destruct l as [|x l]; simpl; intros Hi; [lia|].
  destruct i as [|i].
  - destruct l as [|y l]; simpl in *; [lia | reflexivity].
  - apply cumsum_from_step. lia.
Qed.

Lemma cumsum_from_last (acc d : Q) (l : list Q) :
  l <> [] -> last (cumsum_from acc l) d == acc + np_sum l.
Proof.
  revert acc; induction l as [|x l IH]; intros acc H; [congruence|].
  destruct l as [|y l]; [simpl; ring|].
  change (cumsum_from acc (x :: y :: l))
    with ((acc + x) :: cumsum_from (acc + x) (y :: l)).
  change (last (acc + x :: cumsum_from (acc + x) (y :: l)) d)
    with (last (cumsum_from (acc + x) (y :: l)) d).
  rewrite IH by discriminate. simpl. ring.
Qed.

Lemma np_cumsum_last (l : list Q) : last (np_cumsum l) 0 == np_sum l.
Proof.
  destruct l as [|x [|y l]]; [reflexivity | simpl; ring |].
  change (np_cumsum (x :: y :: l)) with (x :: cumsum_from x (y :: l)).
  change (last (x :: cumsum_from x (y :: l)) 0)
    with (last (cumsum_from x (y :: l)) 0).
  rewrite cumsum_from_last by discriminate. simpl. ring.
Qed.

(** ** Successful runs of [regress_deconv] *)

Section Runs.

Context {L : SciLib}.

Lemma condition_check_Ok (sgl : list Q) (cn : xfloat) (w : list warning) :
  condition_check sgl = (Ok cn, w) ->
  exists smax smin,
    np_max sgl = Ok smax /\ np_min sgl = Ok smin /\
    cn = np_divide smax smin /\
    w = (if xgt cn 1000000 then [IllConditioned cn] else []).
Proof.
  unfold condition_check. intros H.
  apply bind_lift_Ok in H as (smax & E1 & H).
  apply bind_lift_Ok in H as (smin & E2 & H).
  exists smax, smin.
  destruct (xgt (np_divide smax smin) 1000000) eqn:Ex; simpl in H;
    inversion H; subst; rewrite Ex; auto.
Qed.

(** What a successful run of the ['hals'] branch went through. *)
Lemma regress_hals_inv et fqs tf GW BP lag_h WLc p w :
  regress_hals et fqs tf GW BP lag_h = (Ok (WLc, p), w) ->
  exists dt spd v X c covar cn lag_t b,
    sampling tf = Ok (dt, spd) /\
    (0 <= lag_count lag_h spd)%Z /\
    let n := length (deriv dt BP) in
    let nm := Z.to_nat (lag_count lag_h spd) in
    lag_matrix n nm (map Qopp (deriv dt BP)) = Ok v /\
    hals_regressors et fqs n tf v = Ok X /\
    curve_fit (design n X) tf (deriv dt GW) (start_values (design n X))
      = Ok (c, covar) /\
    condition_check (svdvals (design n X)) = (Ok cn, w) /\
    head_correction dt X c GW = Ok WLc /\
    linspace0 lag_h (lag_count lag_h spd) = Ok lag_t /\
    brf_bundle lag_t c covar nm = Ok b /\
    brf p = b /\
    (if et
     then exists ck cNPk,
         take c (seq (nm + 1) (length fqs)) = Ok ck /\
         take c (seq (length fqs + (nm + 1)) (length fqs)) = Ok cNPk /\
         erf p = Some (ErfFreq fqs (zipwith Cplx ck cNPk))
     else erf p = None).
Proof.
  unfold regress_hals. intros H.
  apply bind_lift_Ok in H as ([dt spd] & E1 & H).
  destruct (lag_count lag_h spd <? 0)%Z eqn:Enm; [discriminate|].
  apply Z.ltb_ge in Enm.
  apply bind_lift_Ok in H as (v & E2 & H).
  apply bind_lift_Ok in H as (X & E3 & H).
  apply bind_lift_Ok in H as ([c covar] & E4 & H).
  apply bind_Ok in H as (cn & w1 & w2 & E5 & H & ->).
  apply bind_lift_Ok in H as (WLc' & E6 & H).
  apply bind_lift_Ok in H as (lag_t & E7 & H).
  apply bind_lift_Ok in H as (b & E8 & H).
  exists dt, spd, v, X, c, covar, cn, lag_t, b.
  destruct et.
  - apply bind_lift_Ok in H as (ck & E9 & H).
    apply bind_lift_Ok in H as (cNPk & E10 & H).
    inversion H; subst. rewrite app_nil_r.
    repeat split; auto. exists ck, cNPk; auto.
  - inversion H; subst. rewrite app_nil_r. repeat split; auto.
Qed.

(** What a successful run of the ['ts'] branch went through. *)
Lemma regress_ts_inv et tf GW BP ET lag_h WLc p w :
  regress_ts et tf GW BP ET lag_h = (Ok (WLc, p), w) ->
  exists ETv dt spd V XY c covar cn lag_t b,
    (if et then ET = Some ETv /\ length tf = length ETv else True) /\
    sampling tf = Ok (dt, spd) /\
    let n := length (deriv dt BP) in
    let nm := Z.to_nat (lag_count lag_h spd) in
    lag_matrix n nm (map Qopp (deriv dt BP)) = Ok V /\
    ts_regressors et n nm (deriv dt ETv) V = Ok XY /\
    curve_fit (design n XY) tf (deriv dt GW) (start_values (design n XY))
      = Ok (c, covar) /\
    condition_check (svdvals (design n XY)) = (Ok cn, w) /\
    head_correction dt XY c GW = Ok WLc /\
    linspace0 lag_h (lag_count lag_h spd) = Ok lag_t /\
    brf_bundle lag_t c covar nm = Ok b /\
    brf p = b /\
    (if et
     then exists e, erf_bundle lag_t c covar nm = Ok e /\ erf p = Some (ErfLag e)
     else erf p = None).
Proof.
  unfold regress_ts. intros H.
  destruct (if et then ET else Some []) as [ETv|] eqn:EET; [|discriminate].
  destruct (et && negb (length tf =? length ETv)%nat) eqn:Elen; [discriminate|].
  apply bind_lift_Ok in H as ([dt spd] & E1 & H).
  apply bind_lift_Ok in H as (V & E2 & H).
  apply bind_lift_Ok in H as (XY & E3 & H).
  apply bind_lift_Ok in H as ([c covar] & E4 & H).
  apply bind_Ok in H as (cn & w1 & w2 & E5 & H & ->).
  apply bind_lift_Ok in H as (WLc' & E6 & H).
  apply bind_lift_Ok in H as (lag_t & E7 & H).
  apply bind_lift_Ok in H as (b & E8 & H).
  exists ETv, dt, spd, V, XY, c, covar, cn, lag_t, b.
  destruct et.
  - apply bind_lift_Ok in H as (e & E9 & H).
    inversion H; subst. rewrite app_nil_r.
    simpl in Elen. apply negb_false_iff, Nat.eqb_eq in Elen.
    repeat split; auto. exists e; auto.
  - inversion H; subst. rewrite app_nil_r. repeat split; auto.
Qed.

(** A successful call passed both checks and ran one of the two branches. *)
Lemma regress_deconv_inv tf GW BP ET lag_h et_method fqs WLc p w :
  regress_deconv tf GW BP ET lag_h et_method fqs = (Ok (WLc, p), w) ->
  length_check tf GW BP = false /\
  ((exists et,
       et = negb (match ET, et_method with None, None => true | _, _ => false end) /\
       (et_method = None \/ et_method = Some "hals"%string) /\
       regress_hals et (match fqs with None => etfqs | Some f => f end)
                    tf GW BP lag_h = (Ok (WLc, p), w))
   \/ (et_method = Some "ts"%string /\
       regress_ts true tf GW BP ET lag_h = (Ok (WLc, p), w))).
Proof.
  unfold regress_deconv. intros H.
  destruct (match ET, et_method with
            | None, None => (false, Some "hals"%string)
            | _, _ => (true, et_method)
            end) as [et m] eqn:Eet.
  apply bind_lift_Ok in H as (dmin & E1 & H).
  apply bind_lift_Ok in H as (dmax & E2 & H).
  destruct (negb (Qeq_bool (np_around6 dmin) (np_around6 dmax))); [discriminate|].
  destruct (length_check tf GW BP); [discriminate|].
  split; [reflexivity|].
  destruct m as [m|]; [|discriminate].
  destruct (String.eqb m "hals") eqn:Eh.
  - apply String.eqb_eq in Eh; subst m. left. exists et.
    destruct ET, et_method; inversion Eet; subst; auto.
  - destruct (String.eqb m "ts") eqn:Et; [|discriminate].
    apply String.eqb_eq in Et; subst m. right.
    destruct ET, et_method; inversion Eet; subst; auto; discriminate.
Qed.

End Runs.

(** ** Re-centring and cumulative responses *)

Lemma bcast2_nonempty {A B C} (op : A -> B -> C) a b r :
  bcast2 op a b = Ok r -> a <> [] -> b <> [] -> r <> [].
Proof.
  unfold bcast2. intros H Ha Hb.
  destruct (length a =? length b)%nat.
  - inversion H; subst. destruct a, b; simpl; congruence.
  - destruct a as [|x [|x' a]]; [congruence| |].
    + inversion H; subst. destruct b; simpl; congruence.
    + destruct b as [|y [|y' b]]; [congruence| |discriminate].
      inversion H; subst. simpl; congruence.
Qed.

Lemma np_sum_shift (l : list Q) (s : Q) :
  np_sum (map (fun w => w + s) l)
  == np_sum l + inject_Z (Z.of_nat (length l)) * s.
Proof.
  induction l as [|x l IH].
  - simpl. ring.
  - change (np_sum (map (fun w => w + s) (x :: l)))
      with (x + s + np_sum (map (fun w => w + s) l)).
    rewrite IH. change (np_sum (x :: l)) with (x + np_sum l).
    change (length (x :: l)) with (S (length l)).
    rewrite Nat2Z.inj_succ. unfold Z.succ. rewrite inject_Z_plus. ring.
Qed.

Lemma nanmean_shift (l : list Q) (s : Q) :
  l <> [] -> nanmean (map (fun w => w + s) l) == nanmean l + s.
Proof.
  intros Hl. unfold nanmean. rewrite length_map, np_sum_shift.
  assert (Hn : ~ inject_Z (Z.of_nat (length l)) == 0).
  { destruct l; [congruence|]. simpl length. rewrite Nat2Z.inj_succ.
    unfold Qeq; simpl. lia. }
  field. exact Hn.
Qed.

Section Centre.

Context {L : SciLib}.

(** Lines 594-596, 703-705: after [WLc += nanmean(GW) - nanmean(WLc)] the two
    means agree. *)
Lemma head_correction_mean dt X c GW WLc :
  head_correction dt X c GW = Ok WLc -> GW <> [] ->
  nanmean WLc == nanmean GW.
Proof.
  unfold head_correction. intros H HGW.
  apply rbind_Ok in H as (dWLc & _ & H). unfold recentre in H.
  apply rbind_Ok in H as (W0 & E & H).
  inversion H; subst; clear H.
  rewrite nanmean_shift; [ring|].
  eapply bcast2_nonempty; eauto. discriminate.
Qed.

Lemma sampling_length t dt spd :
  sampling t = Ok (dt, spd) -> (2 <= length t)%nat.
Proof.
  unfold sampling, getitem. destruct t as [|a [|b t]]; simpl; try discriminate.
  intros _. lia.
Qed.

(** Every successful call corrected the heads with [head_correction], on a
    time vector of at least two samples. *)
Lemma regress_deconv_corrected tf GW BP ET lag_h et_method fqs WLc p w :
  regress_deconv tf GW BP ET lag_h et_method fqs = (Ok (WLc, p), w) ->
  (2 <= length tf)%nat /\
  exists dt X c, head_correction dt X c GW = Ok WLc.
Proof.
  intros H. apply regress_deconv_inv in H as [_ [(et & _ & _ & H) | [_ H]]].
  - apply regress_hals_inv in H
      as (dt & spd & v & X & c & covar & cn & lag_t & b & Hs & _ & _ & _ & _ & _ & Hc & _).
    split; [eapply sampling_length; eauto | eauto].
  - apply regress_ts_inv in H
      as (ETv & dt & spd & V & XY & c & covar & cn & lag_t & b & _ & Hs & _ & _ & _ & _ & Hc & _).
    split; [eapply sampling_length; eauto | eauto].
Qed.

Lemma brf_bundle_crf lag_t c covar nm b :
  brf_bundle lag_t c covar nm = Ok b -> crf b = np_cumsum (irf b).
Proof.
  unfold brf_bundle. intros H.
  apply rbind_Ok in H as (x & _ & H). apply rbind_Ok in H as (y & _ & H).
  inversion H; reflexivity.
Qed.

Lemma erf_bundle_crf lag_t c covar nm b :
  erf_bundle lag_t c covar nm = Ok b -> crf b = np_cumsum (irf b).
Proof.
  unfold erf_bundle. intros H.
  apply rbind_Ok in H as (y & _ & H). inversion H; reflexivity.
Qed.

Lemma regress_deconv_crf tf GW BP ET lag_h et_method fqs WLc p w b :
  regress_deconv tf GW BP ET lag_h et_method fqs = (Ok (WLc, p), w) ->
  In b (lag_bundles p) -> crf b = np_cumsum (irf b).
Proof.
  intros H Hb. unfold lag_bundles in Hb.
  apply regress_deconv_inv in H as [_ [(et & _ & _ & H) | [_ H]]].
  - apply regress_hals_inv in H
      as (dt & spd & v & X & c & covar & cn & lag_t & b0 &
          _ & _ & _ & _ & _ & _ & _ & _ & Hb0 & Hp & He).
    destruct et.
    + destruct He as (ck & cNPk & _ & _ & He). rewrite He in Hb.
      destruct Hb as [<-|[]]. rewrite Hp. eapply brf_bundle_crf; eauto.
    + rewrite He in Hb. destruct Hb as [<-|[]]. rewrite Hp.
      eapply brf_bundle_crf; eauto.
  - apply regress_ts_inv in H
      as (ETv & dt & spd & V & XY & c & covar & cn & lag_t & b0 &
          _ & _ & _ & _ & _ & _ & _ & _ & Hb0 & Hp & (e & He & Hpe)).
    rewrite Hpe in Hb. destruct Hb as [<-|[<-|[]]].
    + rewrite Hp. eapply brf_bundle_crf; eauto.
    + eapply erf_bundle_crf; eauto.
Qed.

(** C3.  For every valid input (the three series as long as the time
    vector; regular sampling is what the call checks first), in both modes,
    the mean of the corrected head series that [regress_deconv] returns
    equals the mean of the input head series. *)
Theorem recentred_mean tf GW BP ET lag_h et_method fqs WLc p w :
  length GW = length tf ->
  length BP = length tf ->
  regress_deconv tf GW BP ET lag_h et_method fqs = (Ok (WLc, p), w) ->
  nanmean WLc == nanmean GW.
Proof.
  intros HGW _ H.
  apply regress_deconv_corrected in H as (Hlen & dt & X & c & Hc).
  eapply head_correction_mean; eauto.
  destruct GW; [simpl in HGW; lia | discriminate].
Qed.

(** C5.  In every response function that [regress_deconv] returns the
    cumulative response starts at the first instantaneous value, grows by
    [cumulative[i] = cumulative[i-1] + instantaneous[i]], and ends at the sum
    of all instantaneous values. *)
Theorem cumulative_additive tf GW BP ET lag_h et_method fqs WLc p w b :
  regress_deconv tf GW BP ET lag_h et_method fqs = (Ok (WLc, p), w) ->
  In b (lag_bundles p) ->
  length (crf b) = length (irf b) /\
  nth 0 (crf b) 0 = nth 0 (irf b) 0 /\
  (forall i, (1 <= i < length (irf b))%nat ->
             nth i (crf b) 0 = nth (i - 1) (crf b) 0 + nth i (irf b) 0) /\
  last (crf b) 0 == np_sum (irf b).
Proof.
  intros H Hb. rewrite (regress_deconv_crf _ _ _ _ _ _ _ _ _ _ _ H Hb).
  split; [apply np_cumsum_length|].
  split; [apply np_cumsum_first|].
  split; [|apply np_cumsum_last].
  intros i Hi. destruct i as [|i]; [lia|].
  replace (S i - 1)%nat with i by lia. apply np_cumsum_step. lia.
Qed.

End Centre.

(** ** Slices of arrays *)

Lemma slice_nth {A} (a : list A) (lo hi i : nat) (d : A) :
  nth i (slice a lo hi) d = if (i <? hi - lo)%nat then nth (lo + i) a d else d.
Proof. unfold slice. rewrite nth_firstn, nth_skipn. reflexivity. Qed.

Lemma slice_length {A} (a : list A) (lo hi : nat) :
  length (slice a lo hi) = Nat.min (hi - lo) (length a - lo).
Proof. unfold slice. rewrite length_firstn, length_skipn. reflexivity. Qed.

Lemma slice_In {A} (a : list A) (lo hi : nat) (x : A) :
  In x (slice a lo hi) -> In x a.
Proof.
  unfold slice. intros H.
  rewrite <- (firstn_skipn lo a). apply in_or_app. right.
  rewrite <- (firstn_skipn (hi - lo) (skipn lo a)). apply in_or_app. left. exact H.
Qed.

Lemma get2_slice2 (A : array2) (lo hi r c : nat) :
  (r < hi - lo)%nat -> (c < hi - lo)%nat ->
  get2 (slice2 A lo hi) r c = get2 A (lo + r) (lo + c).
Proof.
  intros Hr Hc. unfold get2, slice2.
  destruct (Nat.lt_ge_cases r (length (slice A lo hi))) as [Hlt|Hge].
  - rewrite (nth_indep _ [] (slice [] lo hi)) by (rewrite length_map; exact Hlt).
    rewrite (map_nth (fun row : list Q => slice row lo hi) (slice A lo hi) [] r).
    rewrite slice_nth.
    apply Nat.ltb_lt in Hc. rewrite Hc.
    rewrite slice_nth. apply Nat.ltb_lt in Hr. rewrite Hr. reflexivity.
  - rewrite (nth_overflow (map _ _)) by (rewrite length_map; exact Hge).
    rewrite slice_length in Hge.
    rewrite (nth_overflow A) by lia.
    rewrite !(nth_overflow []) by (simpl; lia). reflexivity.
Qed.

Lemma shape2_slice2 (A : array2) (r c lo hi : nat) :
  shape2 A r c -> (lo <= hi)%nat -> (hi <= r)%nat -> (hi <= c)%nat ->
  shape2 (slice2 A lo hi) (hi - lo) (hi - lo).
Proof.
  intros [Hr Hc] Hlo Hhr Hhc. unfold slice2. split.
  - rewrite length_map, slice_length. lia.
  - apply Forall_forall. intros row Hin. apply in_map_iff in Hin as (row0 & <- & Hin).
    apply slice_In in Hin. rewrite Forall_forall in Hc.
    rewrite slice_length, (Hc _ Hin). lia.
Qed.

Lemma shape2_ncols (A : array2) (r c : nat) :
  shape2 A r c -> (0 < r)%nat -> ncols A = c.
Proof.
  intros [Hr Hc] Hpos. destruct A as [|row A]; simpl in *; [lia|].
  inversion Hc; auto.
Qed.

Lemma np_diagonal_square (A : array2) (n : nat) :
  shape2 A n n -> np_diagonal A = map (fun i => get2 A i i) (seq 0 n).
Proof.
  intros H. unfold np_diagonal, nrows.
  destruct n as [|n].
  - destruct H as [Hr _]. rewrite Hr. reflexivity.
  - rewrite (shape2_ncols A (S n) (S n) H) by lia.
    destruct H as [Hr _]. rewrite Hr, Nat.min_id. reflexivity.
Qed.

Lemma sum_below (g : nat -> Q) (r n : nat) :
  (r <= n)%nat ->
  np_sum (map (fun c => if (c <? r)%nat then g c else 0) (seq 0 n))
  == np_sum (map g (seq 0 r)).
Proof.
  intros Hr. replace n with (r + (n - r))%nat by lia.
  rewrite seq_app, map_app, np_sum_app.
  rewrite (np_sum_ext _ g (seq 0 r)).
  - rewrite (np_sum_ext _ (fun _ => 0) (seq (0 + r) (n - r))).
    + rewrite np_sum_zero. ring.
    + intros c Hc. apply in_seq in Hc.
      destruct (c <? r)%nat eqn:E; [apply Nat.ltb_lt in E; lia | reflexivity].
  - intros c Hc. apply in_seq in Hc.
    destruct (c <? r)%nat eqn:E; [reflexivity | apply Nat.ltb_ge in E; lia].
Qed.

Lemma np_sum2_tril_square (A : array2) (n : nat) :
  shape2 A n n ->
  np_sum2 (np_tril_m1 A)
  == np_sum (map (fun r => np_sum (map (fun c => get2 A r c) (seq 0 r))) (seq 0 n)).
Proof.
  intros H. unfold np_sum2, np_tril_m1, nrows.
  destruct n as [|n].
  - destruct H as [Hr _]. rewrite Hr. reflexivity.
  - rewrite (shape2_ncols A (S n) (S n) H) by lia.
    destruct H as [Hr _]. rewrite Hr, map_map.
    apply np_sum_ext. intros r Hin. apply in_seq in Hin.
    apply sum_below. lia.
Qed.

(** Lines 608-614 compute the variance of every partial sum. *)
Lemma cum_var_spec (covar : array2) (d off nm len : nat) (var : list Q) :
  shape2 covar d d -> (off + nm <= d)%nat ->
  cum_var (slice2 covar off (off + nm)) nm len = Ok var ->
  length var = len /\
  forall i, (i < nm)%nat -> nth i var 0 == partial_sum_variance covar off i.
Proof.
  intros Hsh Hd. unfold cum_var.
  destruct (nm <=? len)%nat eqn:Hle; [|discriminate].
  apply Nat.leb_le in Hle. intros H; inversion H; subst; clear H.
  split.
  - rewrite length_app, length_map, length_seq, repeat_length. lia.
  - intros i Hi.
    rewrite app_nth1 by (rewrite length_map, length_seq; exact Hi).
    set (F := fun i0 : nat => _).
    rewrite (nth_indep _ 0 (F 0%nat)) by (rewrite length_map, length_seq; exact Hi).
    rewrite map_nth, seq_nth by exact Hi. subst F. cbv beta zeta.
    change (0 + i)%nat with i.
    assert (Hblock : shape2 (slice2 covar off (off + nm)) nm nm).
    { replace nm with (off + nm - off)%nat at 2 3 by lia.
      apply (shape2_slice2 covar d d); auto; lia. }
    assert (Hsub : shape2 (slice2 (slice2 covar off (off + nm)) 0 (i + 1))
                          (i + 1) (i + 1)).
    { replace (i + 1)%nat with (i + 1 - 0)%nat at 2 3 by lia.
      apply (shape2_slice2 _ nm nm); auto; lia. }
    rewrite (np_diagonal_square _ _ Hsub), (np_sum2_tril_square _ _ Hsub).
    unfold partial_sum_variance.
    assert (Hget : forall r c, (r < i + 1)%nat -> (c < i + 1)%nat ->
              get2 (slice2 (slice2 covar off (off + nm)) 0 (i + 1)) r c
              = get2 covar (off + r) (off + c)).
    { intros r c Hr Hc. rewrite get2_slice2 by lia.
      rewrite get2_slice2 by lia. reflexivity. }
    apply Qplus_comp; [|apply Qmult_comp; [reflexivity|]]; apply np_sum_ext.
    + intros k Hk. apply in_seq in Hk. rewrite Hget by lia. reflexivity.
    + intros k Hk. apply in_seq in Hk. apply np_sum_ext.
      intros l Hl. apply in_seq in Hl. rewrite Hget by lia. reflexivity.
Qed.

(** ** Shapes of the design matrices *)

Lemma mapM_length {A B} (f : A -> result B) (l : list A) (r : list B) :
  mapM f l = Ok r -> length r = length l.
Proof.
  revert r; induction l as [|x l IH]; simpl; intros r H.
  - inversion H; reflexivity.
  - apply rbind_Ok in H as (y & _ & H). apply rbind_Ok in H as (ys & E & H).
    inversion H; subst. simpl. rewrite (IH _ E). reflexivity.
Qed.

Lemma mapM_nth {A B} (f : A -> result B) (l : list A) (r : list B)
    (i : nat) (d : A) (d' : B) :
  mapM f l = Ok r -> (i < length l)%nat -> f (nth i l d) = Ok (nth i r d').
Proof.
  revert r i; induction l as [|x l IH]; simpl; intros r i H Hi; [lia|].
  apply rbind_Ok in H as (y & Ey & H). apply rbind_Ok in H as (ys & E & H).
  inversion H; subst. destruct i as [|i]; simpl; [exact Ey|].
  apply IH; [exact E | lia].
Qed.

Lemma skipn_nth_error {A} (a : list A) (lo : nat) (x : A) :
  nth_error a lo = Some x -> skipn lo a = x :: skipn (S lo) a.
Proof.
  revert a; induction lo as [|lo IH]; intros [|y a] H; simpl in *; try discriminate.
  - inversion H; reflexivity.
  - apply IH. exact H.
Qed.

(** Indexing by [np.arange(lo, lo+k)] is the slice [a[lo:lo+k]] when it succeeds. *)
Lemma take_seq {A} (a : list A) (lo k : nat) (l : list A) :
  take a (seq lo k) = Ok l -> l = slice a lo (lo + k) /\ length l = k.
Proof.
  unfold slice. replace (lo + k - lo)%nat with k by lia.
  revert lo l; induction k as [|k IH]; simpl; intros lo l H.
  - inversion H; auto.
  - apply rbind_Ok in H as (x & Ex & H). apply rbind_Ok in H as (xs & E & H).
    inversion H; subst; clear H.
    unfold getitem in Ex. destruct (nth_error a lo) as [x'|] eqn:En; [|discriminate].
    inversion Ex; subst x'.
    rewrite (skipn_nth_error _ _ _ En). simpl.
    destruct (IH _ _ E) as [-> Hl]. rewrite Hl. auto.
Qed.

Section Shapes.

Context {L : SciLib}.

Lemma lag_matrix_shape n nm d v :
  lag_matrix n nm d = Ok v -> shape0 v = n /\ shape1 v = nm.
Proof.
  unfold lag_matrix. intros H. apply rbind_Ok in H as (cs & E & H).
  inversion H; subst. unfold shape1; simpl.
  rewrite (mapM_length _ _ _ E), length_seq. auto.
Qed.

Lemma tide_harmonics_shape fn n t omega u :
  tide_harmonics fn n t omega = Ok u -> shape0 u = n /\ shape1 u = length omega.
Proof.
  unfold tide_harmonics. intros H. apply rbind_Ok in H as (cs & E & H).
  inversion H; subst. unfold shape1; simpl.
  rewrite (mapM_length _ _ _ E). auto.
Qed.

(** With tides the regressors of the ['hals'] branch are [v], the cosine
    columns and the sine columns, in this order. *)
Lemma hals_regressors_tides fqs n t v X :
  hals_regressors true fqs n t v = Ok X ->
  exists u1 u2,
    tide_harmonics np_cos n t (map (fun f => 2 * np_pi * f) fqs) = Ok u1 /\
    tide_harmonics np_sin n t (map (fun f => 2 * np_pi * f) fqs) = Ok u2 /\
    X = hstack (hstack v u1) u2.
Proof.
  unfold hals_regressors. intros H.
  apply rbind_Ok in H as (u1 & E1 & H). apply rbind_Ok in H as (u2 & E2 & H).
  inversion H; subst. exists u1, u2; auto.
Qed.

Lemma hals_regressors_shape et fqs n t v X :
  hals_regressors et fqs n t v = Ok X -> (shape1 v <= shape1 X)%nat.
Proof.
  destruct et.
  - intros H. apply hals_regressors_tides in H as (u1 & u2 & _ & _ & ->).
    unfold shape1, hstack; simpl. rewrite !length_app. lia.
  - unfold hals_regressors. intros H; inversion H; subst. lia.
Qed.

Lemma ts_regressors_tides n nm dET V XY :
  ts_regressors true n nm dET V = Ok XY ->
  exists W, lag_matrix n nm dET = Ok W /\ XY = hstack V W.
Proof.
  unfold ts_regressors. intros H. apply rbind_Ok in H as (W & E & H).
  inversion H; subst. exists W; auto.
Qed.

Lemma design_shape1 n X : shape1 (design n X) = S (shape1 X).
Proof. reflexivity. Qed.

Lemma start_values_length Z : length (start_values Z) = shape1 Z.
Proof. apply repeat_length. Qed.

Context {LS : SciLibSpec L}.

(** The fit of a design matrix has one parameter per column and a square
    covariance of that size. *)
Lemma fit_shape n X x y c covar :
  curve_fit (design n X) x y (start_values (design n X)) = Ok (c, covar) ->
  length c = S (shape1 X) /\ shape2 covar (S (shape1 X)) (S (shape1 X)).
Proof.
  intros H. apply curve_fit_shape in H as (Hc & Hr & Hrows).
  rewrite start_values_length, design_shape1 in *.
  repeat split; auto.
Qed.

Lemma brf_bundle_spec lag_t c covar nm d b :
  shape2 covar d d -> (nm + 1 <= d)%nat ->
  brf_bundle lag_t c covar nm = Ok b ->
  irf b = slice c 1 (nm + 1) /\ length (irf b) = nm /\
  cumulative_stdev covar 1 nm (crf_stdev b).
Proof.
  intros Hsh Hd. unfold brf_bundle. intros H.
  apply rbind_Ok in H as (brf0 & E1 & H). apply rbind_Ok in H as (var & E2 & H).
  inversion H; subst; clear H. simpl.
  apply take_seq in E1 as [E1 Hlen]. rewrite (Nat.add_comm nm 1).
  split; [exact E1|]. split; [exact Hlen|].
  rewrite (Nat.add_comm nm 1) in E2.
  assert (Hblock : shape2 (slice2 covar 1 (1 + nm)) nm nm).
  { replace nm with (1 + nm - 1)%nat at 2 3 by lia.
    apply (shape2_slice2 covar d d); auto; lia. }
  rewrite (np_diagonal_square _ _ Hblock), length_map, length_seq in E2.
  assert (Hd' : (1 + nm <= d)%nat) by lia.
  destruct (cum_var_spec covar d 1 nm nm var Hsh Hd' E2) as [Hl Hv].
  exists var. auto.
Qed.

Lemma erf_bundle_spec lag_t c covar nm d e :
  shape2 covar d d -> (2 * nm + 1 <= d)%nat ->
  erf_bundle lag_t c covar nm = Ok e ->
  irf e = slice c (nm + 1) (2 * nm + 1) /\
  cumulative_stdev covar (nm + 1) nm (crf_stdev e).
Proof.
  intros Hsh Hd. unfold erf_bundle. intros H.
  apply rbind_Ok in H as (var & E2 & H).
  inversion H; subst; clear H. simpl.
  split; [reflexivity|].
  assert (Hblock : shape2 (slice2 covar 1 (nm + 1)) nm nm).
  { replace nm with (nm + 1 - 1)%nat at 2 3 by lia.
    apply (shape2_slice2 covar d d); auto; lia. }
  rewrite (np_diagonal_square _ _ Hblock), length_map, length_seq in E2.
  replace (2 * nm + 1)%nat with (nm + 1 + nm)%nat in E2 by lia.
  assert (Hd' : (nm + 1 + nm <= d)%nat) by lia.
  destruct (cum_var_spec covar d (nm + 1) nm nm var Hsh Hd' E2) as [Hl Hv].
  exists var. auto.
Qed.

(** C4.  In every result of [regress_deconv], the cumulative standard
    deviation at step [i] is the square root of the variance of the sum of the
    first [i+1] lag coefficients: the sum of the first [i+1] diagonal entries
    of their covariance block plus twice the sum of the entries strictly
    below the diagonal of that [(i+1)]-by-[(i+1)] block.  This holds for the
    barometric response function and, when there is one, for the tidal
    response function. *)
Theorem cumulative_stdev_propagation tf GW BP ET lag_h et_method fqs WLc p w :
  regress_deconv tf GW BP ET lag_h et_method fqs = (Ok (WLc, p), w) ->
  exists Z y c covar nm,
    curve_fit Z tf y (start_values Z) = Ok (c, covar) /\
    irf (brf p) = slice c 1 (nm + 1) /\
    cumulative_stdev covar 1 nm (crf_stdev (brf p)) /\
    forall e, erf p = Some (ErfLag e) ->
              irf e = slice c (nm + 1) (2 * nm + 1) /\
              cumulative_stdev covar (nm + 1) nm (crf_stdev e).
Proof.
  intros H. apply regress_deconv_inv in H as [_ [(et & _ & _ & H) | [_ H]]].
  - apply regress_hals_inv in H
      as (dt & spd & v & X & c & covar & cn & lag_t & b &
          _ & _ & Hv & HX & Hfit & _ & _ & _ & Hb & Hp & He).
    cbv zeta in *.
    set (n := length (deriv dt BP)) in *.
    set (nm := Z.to_nat (lag_count lag_h spd)) in *.
    exists (design n X), (deriv dt GW), c, covar, nm.
    destruct (fit_shape _ _ _ _ _ _ Hfit) as [_ Hsh].
    apply lag_matrix_shape in Hv as [_ Hv].
    apply hals_regressors_shape in HX.
    assert (Hd : (nm + 1 <= S (shape1 X))%nat) by lia.
    destruct (brf_bundle_spec _ _ _ _ _ _ Hsh Hd Hb) as (Hi & _ & Hsd).
    rewrite Hp. split; [exact Hfit|]. split; [exact Hi|]. split; [exact Hsd|].
    intros e Hpe. exfalso. destruct et.
    + destruct He as (ck & cNPk & _ & _ & He). congruence.
    + congruence.
  - apply regress_ts_inv in H
      as (ETv & dt & spd & V & XY & c & covar & cn & lag_t & b &
          _ & _ & HV & HXY & Hfit & _ & _ & _ & Hb & Hp & (e0 & He0 & Hpe0)).
    cbv zeta in *.
    set (n := length (deriv dt BP)) in *.
    set (nm := Z.to_nat (lag_count lag_h spd)) in *.
    exists (design n XY), (deriv dt GW), c, covar, nm.
    destruct (fit_shape _ _ _ _ _ _ Hfit) as [_ Hsh].
    apply ts_regressors_tides in HXY as (W & HW & ->).
    apply lag_matrix_shape in HV as [_ HV].
    apply lag_matrix_shape in HW as [_ HW].
    assert (Hd : shape1 (hstack V W) = (nm + nm)%nat).
    { unfold shape1, hstack in *; simpl. rewrite length_app. lia. }
    rewrite Hd in Hsh.
    assert (Hd1 : (nm + 1 <= S (nm + nm))%nat) by lia.
    assert (Hd2 : (2 * nm + 1 <= S (nm + nm))%nat) by lia.
    destruct (brf_bundle_spec _ _ _ _ _ _ Hsh Hd1 Hb) as (Hi & _ & Hsd).
    destruct (erf_bundle_spec _ _ _ _ _ _ Hsh Hd2 He0) as (Hie & Hsde).
    rewrite Hp. split; [exact Hfit|]. split; [exact Hi|]. split; [exact Hsd|].
    intros e Hpe. rewrite Hpe0 in Hpe. inversion Hpe; subst. auto.
Qed.

End Shapes.

(** ** [harmonic_lsqr] *)

Lemma zipwith_length {A B C} (op : A -> B -> C) a b :
  length (zipwith op a b) = Nat.min (length a) (length b).
Proof.
  revert b; induction a as [|x a IH]; intros [|y b]; simpl; auto.
Qed.

Lemma zipwith_nth {A B C} (op : A -> B -> C) a b i da db dc :
  (i < length a)%nat -> (i < length b)%nat ->
  nth i (zipwith op a b) dc = op (nth i a da) (nth i b db).
Proof.
  revert b i; induction a as [|x a IH]; intros [|y b] i Ha Hb; simpl in *; try lia.
  destruct i as [|i]; [reflexivity | apply IH; lia].
Qed.

Lemma py_range_length2 (start stop : nat) :
  length (py_range start stop 2) = ((stop - start + 1) / 2)%nat.
Proof.
  unfold py_range. rewrite length_map, length_seq.
  replace (stop - start + 2 - 1)%nat with (stop - start + 1)%nat by lia.
  reflexivity.
Qed.

Lemma slice_step2_nth (a : list Q) (start j : nat) :
  (j < (length a - 1 - start + 1) / 2)%nat ->
  nth j (slice_step2 a start) 0 = nth (start + j * 2) a 0.
Proof.
  intros Hj. unfold slice_step2, py_range.
  replace (length a - 1 - start + 2 - 1)%nat with (length a - 1 - start + 1)%nat by lia.
  set (g := fun k : nat => nth k a 0).
  rewrite (nth_indep _ 0 (g 0%nat)) by (rewrite !length_map, length_seq; exact Hj).
  rewrite map_nth. subst g. cbv beta.
  set (h := fun i : nat => (start + i * 2)%nat).
  rewrite (nth_indep _ 0%nat (h 0%nat)) by (rewrite length_map, length_seq; exact Hj).
  rewrite map_nth, seq_nth by exact Hj. reflexivity.
Qed.

Section Harmonic.

Context {L : SciLib}.

(** What a successful run of [harmonic_lsqr] went through. *)
Lemma harmonic_lsqr_inv tf data freqs r w :
  harmonic_lsqr tf data freqs = (Ok r, w) ->
  exists Phi res0 cn ym dc comp,
    harmonic_design tf (length data) freqs = Ok Phi /\
    getitem (ls_residuals (lstsq Phi data)) 0 = Ok res0 /\
    condition_check (ls_s (lstsq Phi data)) = (Ok cn, w) /\
    matvec Phi (ls_x (lstsq Phi data)) = Ok ym /\
    getitem_last (ls_x (lstsq Phi data)) = Ok dc /\
    bcast2 cadd_real (map times_j (slice_step2 (ls_x (lstsq Phi data)) 0))
           (slice_step2 (ls_x (lstsq Phi data)) 1) = Ok comp /\
    r = {| freq := freqs; complex := comp;
           err_var := np_divide res0 (inject_Z (Z.of_nat (length data)));
           cond_num := cn; offset := dc; y_model := ym |}.
Proof.
  unfold harmonic_lsqr. intros H.
  apply bind_lift_Ok in H as (Phi & E1 & H).
  apply bind_lift_Ok in H as (res0 & E2 & H).
  apply bind_Ok in H as (cn & w1 & w2 & E3 & H & ->).
  apply bind_lift_Ok in H as (ym & E4 & H).
  apply bind_lift_Ok in H as (dc & E5 & H).
  apply bind_lift_Ok in H as (comp & E6 & H).
  inversion H; subst. rewrite app_nil_r.
  exists Phi, res0, cn, ym, dc, comp. repeat split; auto.
Qed.

(** The columns that lines 405-410 assemble: cosine at [2j], sine at [2j+1],
    ones at the end. *)
Lemma hals_design_cols N tf f Phi :
  hals_design N tf f = Ok Phi ->
  shape0 Phi = N /\ shape1 Phi = (2 * length f + 1)%nat /\
  forall j, (j < length f)%nat ->
    fill_col N (map (fun t => np_cos (nth j f 0 * t)) tf)
      = Ok (nth (2 * j) (cols Phi) []) /\
    fill_col N (map (fun t => np_sin (nth j f 0 * t)) tf)
      = Ok (nth (2 * j + 1) (cols Phi) []).
Proof.
  unfold hals_design. intros H. apply rbind_Ok in H as (pairs & E & H).
  inversion H; subst; clear H. unfold shape1; cbn [shape0 cols].
  set (tl := [repeat 1 N]).
  assert (Htl : length tl = 1%nat) by reflexivity. clearbody tl.
  revert pairs E. induction f as [|x f IH]; intros pairs E; cbn [mapM] in E.
  - inversion E; subst. cbn [concat app length nth].
    split; [reflexivity|]. split; [exact Htl|]. intros j Hj. exfalso; lia.
  - apply rbind_Ok in E as (pr & Epr & E). apply rbind_Ok in E as (ps & Eps & E).
    inversion E; subst; clear E.
    apply rbind_Ok in Epr as (c & Ec & Epr). apply rbind_Ok in Epr as (s & Es & Epr).
    inversion Epr; subst; clear Epr.
    destruct (IH _ Eps) as (_ & Hlen & Hcols).
    split; [reflexivity|]. split.
    + cbn [concat app length] in *. lia.
    + intros j Hj. destruct j as [|j].
      * cbn. auto.
      * replace (2 * S j)%nat with (S (S (2 * j))) by lia.
        replace (S (S (2 * j)) + 1)%nat with (S (S (2 * j + 1))) by lia.
        cbn [concat app nth length] in *. apply Hcols. lia.
Qed.

(** The same columns in terms of the arguments of [harmonic_lsqr]: the
    frequencies in cycles per time unit and the time vector made relative. *)
Lemma harmonic_design_cols tf N freqs Phi :
  harmonic_design tf N freqs = Ok Phi ->
  exists tf0,
    getitem tf 0 = Ok tf0 /\
    shape0 Phi = N /\ shape1 Phi = (2 * length freqs + 1)%nat /\
    forall j, (j < length freqs)%nat ->
      fill_col N (map (fun t => np_cos (nth j freqs 0 * 2 * np_pi
                                        * (t - inject_Z (Qfloor tf0)))) tf)
        = Ok (nth (2 * j) (cols Phi) []) /\
      fill_col N (map (fun t => np_sin (nth j freqs 0 * 2 * np_pi
                                        * (t - inject_Z (Qfloor tf0)))) tf)
        = Ok (nth (2 * j + 1) (cols Phi) []).
Proof.
  unfold harmonic_design. intros H. apply rbind_Ok in H as (tf0 & E & H).
  exists tf0. split; [exact E|].
  apply hals_design_cols in H as (H0 & H1 & Hc).
  rewrite length_map in H1. split; [exact H0|]. split; [exact H1|].
  intros j Hj. rewrite length_map in Hc. specialize (Hc j Hj).
  rewrite !map_map in Hc.
  set (g := fun x : Q => x * 2 * np_pi) in Hc.
  rewrite (nth_indep _ 0 (g 0)) in Hc by (rewrite length_map; exact Hj).
  rewrite map_nth in Hc. exact Hc.
Qed.

Context {LS : SciLibSpec L}.

(** Line 426: [theta[:-1:2]*1j + theta[1:-1:2]] pairs the coefficient of
    column [2j] (imaginary part) with that of column [2j+1] (real part). *)
Lemma hals_comp_nth (theta : list Q) (nf : nat) (comp : list complexQ) :
  length theta = (2 * nf + 1)%nat ->
  bcast2 cadd_real (map times_j (slice_step2 theta 0)) (slice_step2 theta 1)
    = Ok comp ->
  length comp = nf /\
  forall j, (j < nf)%nat ->
    re (nth j comp (Cplx 0 0)) == nth (2 * j + 1) theta 0 /\
    im (nth j comp (Cplx 0 0)) = nth (2 * j) theta 0.
Proof.
  intros Hlen H.
  assert (H0 : length (slice_step2 theta 0) = nf).
  { unfold slice_step2. rewrite length_map, py_range_length2, Hlen.
    replace (2 * nf + 1 - 1 - 0 + 1)%nat with (1 + nf * 2)%nat by lia.
    rewrite Nat.div_add by lia. reflexivity. }
  assert (H1 : length (slice_step2 theta 1) = nf).
  { unfold slice_step2. rewrite length_map, py_range_length2, Hlen.
    destruct nf as [|nf]; [reflexivity|].
    replace (2 * S nf + 1 - 1 - 1 + 1)%nat with (0 + S nf * 2)%nat by lia.
    rewrite Nat.div_add by lia. reflexivity. }
  unfold bcast2 in H. rewrite length_map, H0, H1, Nat.eqb_refl in H.
  injection H as <-.
  split; [rewrite zipwith_length, length_map, H0, H1; apply Nat.min_id|].
  intros j Hj.
  rewrite (zipwith_nth cadd_real _ _ j (times_j 0) 0)
    by (rewrite ?length_map; lia).
  rewrite (map_nth times_j).
  assert (Hj0 : (j < (length theta - 1 - 0 + 1) / 2)%nat).
  { rewrite Hlen. replace (2 * nf + 1 - 1 - 0 + 1)%nat with (1 + nf * 2)%nat by lia.
    rewrite Nat.div_add by lia. simpl. exact Hj. }
  assert (Hj1 : (j < (length theta - 1 - 1 + 1) / 2)%nat).
  { rewrite Hlen. destruct nf as [|nf]; [lia|].
    replace (2 * S nf + 1 - 1 - 1 + 1)%nat with (0 + S nf * 2)%nat by lia.
    rewrite Nat.div_add by lia. simpl. exact Hj. }
  rewrite (slice_step2_nth theta 0 j Hj0), (slice_step2_nth theta 1 j Hj1).
  unfold cadd_real, times_j. cbn [re im].
  replace (0 + j * 2)%nat with (2 * j)%nat by lia.
  replace (1 + j * 2)%nat with (2 * j + 1)%nat by lia.
  split; [ring | reflexivity].
Qed.

Lemma getitem_last_Ok (a : list Q) (x : Q) :
  getitem_last a = Ok x -> x = last a 0.
Proof. destruct a; simpl; intros H; inversion H; reflexivity. Qed.

(** C7.  For every target frequency [harmonic_lsqr] returns one complex
    coefficient; its real part is the fitted coefficient of that frequency's
    sine column (column [2j+1] of the design matrix), its imaginary part the
    fitted coefficient of the cosine column (column [2j]); the last fitted
    parameter is returned apart as the DC offset. *)
Theorem harmonic_coefficients tf data freqs r w :
  harmonic_lsqr tf data freqs = (Ok r, w) ->
  exists Phi tf0,
    harmonic_design tf (length data) freqs = Ok Phi /\
    getitem tf 0 = Ok tf0 /\
    length (complex r) = length freqs /\
    offset r = last (ls_x (lstsq Phi data)) 0 /\
    forall j, (j < length freqs)%nat ->
      fill_col (length data)
               (map (fun t => np_cos (nth j freqs 0 * 2 * np_pi
                                      * (t - inject_Z (Qfloor tf0)))) tf)
        = Ok (nth (2 * j) (cols Phi) []) /\
      fill_col (length data)
               (map (fun t => np_sin (nth j freqs 0 * 2 * np_pi
                                      * (t - inject_Z (Qfloor tf0)))) tf)
        = Ok (nth (2 * j + 1) (cols Phi) []) /\
      re (nth j (complex r) (Cplx 0 0)) == nth (2 * j + 1) (ls_x (lstsq Phi data)) 0 /\
      im (nth j (complex r) (Cplx 0 0)) = nth (2 * j) (ls_x (lstsq Phi data)) 0.
Proof.
  intros H. apply harmonic_lsqr_inv in H
    as (Phi & res0 & cn & ym & dc & comp & Hd & _ & _ & _ & Hdc & Hcomp & ->).
  destruct (harmonic_design_cols _ _ _ _ Hd) as (tf0 & Htf0 & Hs0 & Hs1 & Hcols).
  assert (Hlen : length (ls_x (lstsq Phi data)) = (2 * length freqs + 1)%nat)
    by (rewrite lstsq_shape; exact Hs1).
  destruct (hals_comp_nth _ _ _ Hlen Hcomp) as (Hcl & Hc).
  exists Phi, tf0. simpl.
  split; [exact Hd|]. split; [exact Htf0|]. split; [exact Hcl|].
  split; [apply getitem_last_Ok; exact Hdc|].
  intros j Hj. destruct (Hcols j Hj) as [Hcos Hsin]. destruct (Hc j Hj) as [Hre Him].
  auto.
Qed.

(** C10.  [harmonic_lsqr] computes the error variance as the first entry of
    the residuals array of the solver divided by the sample count; when that
    array is empty, which the solver documents for a sample count of at most
    [2*len(freqs) + 1] (the number of columns) and for a rank-deficient
    matrix, the call ends in an [IndexError] and returns nothing. *)
Theorem harmonic_empty_residuals tf data freqs Phi :
  harmonic_design tf (length data) freqs = Ok Phi ->
  (forall r w, harmonic_lsqr tf data freqs = (Ok r, w) ->
     exists res0,
       getitem (ls_residuals (lstsq Phi data)) 0 = Ok res0 /\
       err_var r = np_divide res0 (inject_Z (Z.of_nat (length data)))) /\
  (ls_residuals (lstsq Phi data) = [] ->
   harmonic_lsqr tf data freqs = (Raise IndexError, [])) /\
  ((length data <= 2 * length freqs + 1)%nat \/
   (ls_rank (lstsq Phi data) < 2 * length freqs + 1)%nat ->
   ls_residuals (lstsq Phi data) = []).
Proof.
  intros Hd. split; [|split].
  - intros r w H. apply harmonic_lsqr_inv in H
      as (Phi' & res0 & cn & ym & dc & comp & Hd' & Hres & _ & _ & _ & _ & ->).
    rewrite Hd in Hd'. injection Hd' as <-.
    exists res0. split; [exact Hres | reflexivity].
  - intros Hres. unfold harmonic_lsqr. rewrite Hd. cbn [lift bind].
    rewrite Hres. reflexivity.
  - intros Hcase.
    destruct (harmonic_design_cols _ _ _ _ Hd) as (tf0 & _ & Hs0 & Hs1 & _).
    apply lstsq_residuals_empty. rewrite Hs0, Hs1. exact Hcase.
Qed.

(** X13.  When [harmonic_lsqr] returns, it has warned exactly if the ratio
    of the largest to the smallest singular value of its design matrix
    exceeds 1e6; that ratio is the condition number it reports, and there is
    no other warning. *)
Lemma harmonic_lsqr_warning tf data freqs r w :
  harmonic_lsqr tf data freqs = (Ok r, w) ->
  exists Phi smax smin,
    harmonic_design tf (length data) freqs = Ok Phi /\
    np_max (ls_s (lstsq Phi data)) = Ok smax /\
    np_min (ls_s (lstsq Phi data)) = Ok smin /\
    cond_num r = np_divide smax smin /\
    w = (if xgt (np_divide smax smin) 1000000
         then [IllConditioned (np_divide smax smin)] else []).
Proof.
  intros H. apply harmonic_lsqr_inv in H
    as (Phi & res0 & cn & ym & dc & comp & Hd & _ & Hcc & _ & _ & _ & ->).
  apply condition_check_Ok in Hcc as (smax & smin & Hmax & Hmin & -> & ->).
  exists Phi, smax, smin. auto.
Qed.

End Harmonic.

(** ** The ['hals'] branch with Earth tides *)

Lemma zipwith_app {A B C} (op : A -> B -> C) a1 a2 b1 b2 :
  length a1 = length b1 ->
  zipwith op (a1 ++ a2) (b1 ++ b2) = zipwith op a1 b1 ++ zipwith op a2 b2.
Proof.
  revert b1; induction a1 as [|x a1 IH]; intros [|y b1] H; simpl in *; try lia.
  - reflexivity.
  - rewrite IH by lia. reflexivity.
Qed.

Lemma row_dot_app (A B : list (list Q)) (wa wb : list Q) (r : nat) :
  length A = length wa ->
  row_dot (A ++ B) (wa ++ wb) r == row_dot A wa r + row_dot B wb r.
Proof.
  intros H. unfold row_dot. rewrite zipwith_app by exact H. apply np_sum_app.
Qed.

Lemma firstn_plus {A} (m k : nat) (l : list A) :
  firstn (m + k) l = firstn m l ++ firstn k (skipn m l).
Proof.
  revert l; induction m as [|m IH]; intros l; [reflexivity|].
  destruct l as [|x l]; simpl.
  - rewrite firstn_nil. reflexivity.
  - rewrite IH. reflexivity.
Qed.

Lemma slice_split {A} (a : list A) (lo mid hi : nat) :
  (lo <= mid)%nat -> (mid <= hi)%nat ->
  slice a lo hi = slice a lo mid ++ slice a mid hi.
Proof.
  intros H1 H2. unfold slice.
  replace (hi - lo)%nat with ((mid - lo) + (hi - mid))%nat by lia.
  rewrite firstn_plus, skipn_skipn.
  replace (mid - lo + lo)%nat with mid by lia. reflexivity.
Qed.

Lemma zipwith_Cplx_re (a b : list Q) :
  length a = length b -> map re (zipwith Cplx a b) = a.
Proof.
  revert b; induction a as [|x a IH]; intros [|y b] H; simpl in *; try lia; auto.
  rewrite IH by lia. reflexivity.
Qed.

Lemma zipwith_Cplx_im (a b : list Q) :
  length a = length b -> map im (zipwith Cplx a b) = b.
Proof.
  revert b; induction a as [|x a IH]; intros [|y b] H; simpl in *; try lia; auto.
  rewrite IH by lia. reflexivity.
Qed.

Section Tides.

Context {L : SciLib}.

Lemma tide_harmonics_cols fn n t omega u j :
  tide_harmonics fn n t omega = Ok u -> (j < length omega)%nat ->
  nth j (cols u) [] = map (fun tk => fn (nth j omega 0 * tk)) (firstn n t).
Proof.
  unfold tide_harmonics. intros H Hj. apply rbind_Ok in H as (cs & E & H).
  inversion H; subst; clear H. cbn [cols].
  pose proof (mapM_nth _ _ _ j 0 [] E Hj) as Hc. cbv beta in Hc.
  apply rbind_Ok in Hc as (tn & Etn & Hc). injection Hc as <-.
  apply take_seq in Etn as [-> _]. unfold slice.
  rewrite Nat.add_0_l, Nat.sub_0_r. reflexivity.
Qed.

Lemma omega_nth (fqs : list Q) (j : nat) :
  (j < length fqs)%nat ->
  nth j (map (fun f => 2 * np_pi * f) fqs) 0 = 2 * np_pi * nth j fqs 0.
Proof.
  intros Hj. set (g := fun f : Q => 2 * np_pi * f).
  rewrite (nth_indep _ 0 (g 0)) by (rewrite length_map; exact Hj).
  apply map_nth.
Qed.

Context {LS : SciLibSpec L}.

(** What a successful run of the ['hals'] branch with tides consists of. *)
Lemma hals_tides_run tf GW BP ET lag_h fqs WLc p w :
  regress_deconv tf GW BP ET lag_h (Some "hals"%string) fqs = (Ok (WLc, p), w) ->
  exists dt spd v u1 u2 c covar ck cNPk,
    let fq := match fqs with None => etfqs | Some f => f end in
    let n := length (deriv dt BP) in
    let nm := Z.to_nat (lag_count lag_h spd) in
    let NP := length fq in
    let X := hstack (hstack v u1) u2 in
    sampling tf = Ok (dt, spd) /\
    lag_matrix n nm (map Qopp (deriv dt BP)) = Ok v /\
    tide_harmonics np_cos n tf (map (fun f => 2 * np_pi * f) fq) = Ok u1 /\
    tide_harmonics np_sin n tf (map (fun f => 2 * np_pi * f) fq) = Ok u2 /\
    curve_fit (design n X) tf (deriv dt GW) (start_values (design n X))
      = Ok (c, covar) /\
    length c = (1 + nm + NP + NP)%nat /\
    head_correction dt X c GW = Ok WLc /\
    irf (brf p) = slice c 1 (nm + 1) /\
    ck = slice c (nm + 1) (nm + 1 + NP) /\
    cNPk = slice c (NP + (nm + 1)) (NP + (nm + 1) + NP) /\
    erf p = Some (ErfFreq fq (zipwith Cplx ck cNPk)).
Proof.
  intros H. apply regress_deconv_inv in H as [_ [(et & Het & _ & H) | [Hm _]]];
    [|discriminate].
  assert (Etrue : et = true) by (rewrite Het; destruct ET; reflexivity).
  clear Het. subst et.
  apply regress_hals_inv in H
    as (dt & spd & v & X & c & covar & cn & lag_t & b &
        Hs & _ & Hv & HX & Hfit & _ & Hc & _ & Hb & Hp & He).
  cbv iota zeta in *. destruct He as (ck & cNPk & Hck & HcNPk & He).
  apply hals_regressors_tides in HX as (u1 & u2 & Hu1 & Hu2 & ->).
  exists dt, spd, v, u1, u2, c, covar, ck, cNPk. cbv zeta.
  destruct (fit_shape _ _ _ _ _ _ Hfit) as [Hlen Hsh].
  pose proof (lag_matrix_shape _ _ _ _ Hv) as [_ Hv1].
  pose proof (tide_harmonics_shape _ _ _ _ _ Hu1) as [_ Hu11].
  pose proof (tide_harmonics_shape _ _ _ _ _ Hu2) as [_ Hu21].
  rewrite length_map in Hu11, Hu21.
  assert (HX1 : shape1 (hstack (hstack v u1) u2)
                = (Z.to_nat (lag_count lag_h spd)
                   + length (match fqs with None => etfqs | Some f => f end)
                   + length (match fqs with None => etfqs | Some f => f end))%nat).
  { unfold shape1, hstack in *; cbn [cols]. rewrite !length_app. lia. }
  rewrite HX1 in Hlen, Hsh.
  assert (Hd : (Z.to_nat (lag_count lag_h spd) + 1
                <= S (Z.to_nat (lag_count lag_h spd)
                      + length (match fqs with None => etfqs | Some f => f end)
                      + length (match fqs with None => etfqs | Some f => f end)))%nat)
    by lia.
  destruct (brf_bundle_spec _ _ _ _ _ _ Hsh Hd Hb) as (Hi & _ & _).
  apply take_seq in Hck as [Hck _]. apply take_seq in HcNPk as [HcNPk _].
  rewrite Hp. repeat split; auto.
Qed.

(** C2, as the code has it.  In ['hals'] mode with Earth tides the quantity
    subtracted from the raw heads (before re-centring) is [dt] times the
    cumulative sum of the whole fitted contribution without the intercept:
    the barometric part [v @ brf] plus the cosine and the sine part of the
    tidal harmonics, behind a leading zero. *)
Theorem hals_correction_with_tides tf GW BP ET lag_h fqs WLc p w :
  regress_deconv tf GW BP ET lag_h (Some "hals"%string) fqs = (Ok (WLc, p), w) ->
  exists dt spd v u1 u2 fq comp Xc,
    let n := length (deriv dt BP) in
    sampling tf = Ok (dt, spd) /\
    lag_matrix n (Z.to_nat (lag_count lag_h spd)) (map Qopp (deriv dt BP)) = Ok v /\
    tide_harmonics np_cos n tf (map (fun f => 2 * np_pi * f) fq) = Ok u1 /\
    tide_harmonics np_sin n tf (map (fun f => 2 * np_pi * f) fq) = Ok u2 /\
    erf p = Some (ErfFreq fq comp) /\
    length Xc = n /\
    (forall r, (r < n)%nat ->
       nth r Xc 0 == row_dot (cols v) (irf (brf p)) r
                     + row_dot (cols u1) (map re comp) r
                     + row_dot (cols u2) (map im comp) r) /\
    recentre GW (map (Qmult dt) (np_cumsum Xc)) = Ok WLc.
Proof.
  intros H. apply hals_tides_run in H
    as (dt & spd & v & u1 & u2 & c & covar & ck & cNPk & H). cbv zeta in H.
  destruct H as (Hs & Hv & Hu1 & Hu2 & Hfit & Hlen & Hc & Hirf & Hck & HcNPk & He).
  set (fq := match fqs with None => etfqs | Some f => f end) in *.
  set (nm := Z.to_nat (lag_count lag_h spd)) in *.
  set (n := length (deriv dt BP)) in *.
  pose proof (lag_matrix_shape _ _ _ _ Hv) as [Hv0 Hv1].
  pose proof (tide_harmonics_shape _ _ _ _ _ Hu1) as [_ Hu11].
  pose proof (tide_harmonics_shape _ _ _ _ _ Hu2) as [_ Hu21].
  rewrite length_map in Hu11, Hu21. unfold shape1 in Hv1, Hu11, Hu21.
  assert (Lck : length ck = length fq)
    by (rewrite Hck, slice_length, Hlen; lia).
  assert (LcNPk : length cNPk = length fq)
    by (rewrite HcNPk, slice_length, Hlen; lia).
  unfold head_correction in Hc.
  apply rbind_Ok in Hc as (dWLc & Hint & HW0).
  unfold integrated_correction in Hint.
  apply rbind_Ok in Hint as (Xc & HXc & Hint). injection Hint as <-.
  unfold matvec in HXc.
  destruct (length (slice c 1 (length c)) =? shape1 (hstack (hstack v u1) u2))%nat;
    [|discriminate].
  injection HXc as <-.
  exists dt, spd, v, u1, u2, fq, (zipwith Cplx ck cNPk),
    (map (row_dot (cols (hstack (hstack v u1) u2)) (slice c 1 (length c)))
         (seq 0 (shape0 (hstack (hstack v u1) u2)))).
  cbv zeta. fold n. cbn [hstack shape0 cols] in HW0 |- *.
  rewrite Hv0 in HW0 |- *.
  split; [exact Hs|]. split; [exact Hv|]. split; [exact Hu1|].
  split; [exact Hu2|]. split; [exact He|].
  split; [rewrite length_map, length_seq; reflexivity|].
  split; [|exact HW0].
  intros r Hr.
  set (g := row_dot _ _).
  rewrite (nth_indep _ 0 (g 0%nat)) by (rewrite length_map, length_seq; exact Hr).
  rewrite map_nth, seq_nth by exact Hr. subst g. cbv beta.
  change (0 + r)%nat with r.
  rewrite zipwith_Cplx_re, zipwith_Cplx_im by congruence.
  rewrite (slice_split c 1 (length fq + (nm + 1)) (length c)) by lia.
  rewrite (slice_split c 1 (nm + 1) (length fq + (nm + 1))) by lia.
  rewrite row_dot_app
    by (rewrite !length_app, !slice_length, Hlen, Hv1, Hu11; lia).
  rewrite row_dot_app by (rewrite slice_length, Hlen, Hv1; lia).
  rewrite Hirf, Hck, HcNPk.
  replace (nm + 1 + length fq)%nat with (length fq + (nm + 1))%nat by lia.
  replace (length fq + (nm + 1) + length fq)%nat with (length c) by lia.
  reflexivity.
Qed.

(** C9.  In ['hals'] mode every tidal coefficient of ['erf'] has the fitted
    coefficient of the cosine column of its frequency as real part and that
    of the sine column as imaginary part; [harmonic_lsqr] assigns them the
    other way round (sine to the real part, cosine to the imaginary part). *)
Theorem tidal_coefficients tf GW BP ET lag_h fqs WLc p w :
  regress_deconv tf GW BP ET lag_h (Some "hals"%string) fqs = (Ok (WLc, p), w) ->
  (exists Z y c covar n nm fq comp,
     curve_fit Z tf y (start_values Z) = Ok (c, covar) /\
     fq = match fqs with None => etfqs | Some f => f end /\
     erf p = Some (ErfFreq fq comp) /\
     length comp = length fq /\
     forall j, (j < length fq)%nat ->
       nth (nm + 1 + j) (cols Z) []
         = map (fun tk => np_cos (2 * np_pi * nth j fq 0 * tk)) (firstn n tf) /\
       nth (length fq + (nm + 1) + j) (cols Z) []
         = map (fun tk => np_sin (2 * np_pi * nth j fq 0 * tk)) (firstn n tf) /\
       re (nth j comp (Cplx 0 0)) = nth (nm + 1 + j) c 0 /\
       im (nth j comp (Cplx 0 0)) = nth (length fq + (nm + 1) + j) c 0) /\
  (forall tf' data freqs r w',
     harmonic_lsqr tf' data freqs = (Ok r, w') ->
     exists Phi tf0,
       harmonic_design tf' (length data) freqs = Ok Phi /\
       getitem tf' 0 = Ok tf0 /\
       forall j, (j < length freqs)%nat ->
         fill_col (length data)
                  (map (fun t => np_cos (nth j freqs 0 * 2 * np_pi
                                         * (t - inject_Z (Qfloor tf0)))) tf')
           = Ok (nth (2 * j) (cols Phi) []) /\
         fill_col (length data)
                  (map (fun t => np_sin (nth j freqs 0 * 2 * np_pi
                                         * (t - inject_Z (Qfloor tf0)))) tf')
           = Ok (nth (2 * j + 1) (cols Phi) []) /\
         re (nth j (complex r) (Cplx 0 0))
           == nth (2 * j + 1) (ls_x (lstsq Phi data)) 0 /\
         im (nth j (complex r) (Cplx 0 0))
           = nth (2 * j) (ls_x (lstsq Phi data)) 0).
Proof.
  intros H. split.
  - apply hals_tides_run in H
      as (dt & spd & v & u1 & u2 & c & covar & ck & cNPk & H). cbv zeta in H.
    destruct H as (Hs & Hv & Hu1 & Hu2 & Hfit & Hlen & Hc & Hirf & Hck & HcNPk & He).
    set (fq := match fqs with None => etfqs | Some f => f end) in *.
    set (nm := Z.to_nat (lag_count lag_h spd)) in *.
    set (n := length (deriv dt BP)) in *.
    pose proof (lag_matrix_shape _ _ _ _ Hv) as [Hv0 Hv1].
    pose proof (tide_harmonics_shape _ _ _ _ _ Hu1) as [_ Hu11].
    pose proof (tide_harmonics_shape _ _ _ _ _ Hu2) as [_ Hu21].
    rewrite length_map in Hu11, Hu21. unfold shape1 in Hv1, Hu11, Hu21.
    assert (Lck : length ck = length fq)
      by (rewrite Hck, slice_length, Hlen; lia).
    assert (LcNPk : length cNPk = length fq)
      by (rewrite HcNPk, slice_length, Hlen; lia).
    exists (design n (hstack (hstack v u1) u2)), (deriv dt GW), c, covar, n, nm,
      fq, (zipwith Cplx ck cNPk).
    split; [exact Hfit|]. split; [reflexivity|]. split; [exact He|].
    split; [rewrite zipwith_length, Lck, LcNPk; apply Nat.min_id|].
    intros j Hj. cbn [design hstack ones_col cols app].
    replace (nm + 1 + j)%nat with (S (nm + j)) by lia.
    replace (length fq + (nm + 1) + j)%nat with (S (nm + length fq + j)) by lia.
    cbn [nth].
    rewrite (zipwith_nth Cplx ck cNPk j 0 0) by lia. cbn [re im].
    split; [|split; [|split]].
    + rewrite app_nth1 by (rewrite length_app; lia).
      rewrite app_nth2 by lia. rewrite Hv1.
      replace (nm + j - nm)%nat with j by lia.
      rewrite (tide_harmonics_cols _ _ _ _ _ j Hu1) by (rewrite length_map; exact Hj).
      apply map_ext. intros tk. rewrite omega_nth by exact Hj. reflexivity.
    + rewrite app_nth2 by (rewrite length_app; lia).
      rewrite length_app, Hv1, Hu11.
      replace (nm + length fq + j - (nm + length fq))%nat with j by lia.
      rewrite (tide_harmonics_cols _ _ _ _ _ j Hu2) by (rewrite length_map; exact Hj).
      apply map_ext. intros tk. rewrite omega_nth by exact Hj. reflexivity.
    + rewrite Hck, slice_nth.
      replace (j <? nm + 1 + length fq - (nm + 1))%nat with true
        by (symmetry; apply Nat.ltb_lt; lia).
      f_equal. lia.
    + rewrite HcNPk, slice_nth.
      replace (j <? length fq + (nm + 1) + length fq - (length fq + (nm + 1)))%nat
        with true by (symmetry; apply Nat.ltb_lt; lia).
      f_equal. lia.
  - clear H. intros tf' data freqs r w' H.
    apply harmonic_lsqr_inv in H
      as (Phi & res0 & cn & ym & dc & comp & Hd & _ & _ & _ & _ & Hcomp & ->).
    destruct (harmonic_design_cols _ _ _ _ Hd) as (tf0 & Htf0 & Hs0 & Hs1 & Hcols).
    assert (Hlen : length (ls_x (lstsq Phi data)) = (2 * length freqs + 1)%nat)
      by (rewrite lstsq_shape; exact Hs1).
    destruct (hals_comp_nth _ _ _ Hlen Hcomp) as (_ & Hcj).
    exists Phi, tf0. cbn [complex].
    split; [exact Hd|]. split; [exact Htf0|].
    intros j Hj. destruct (Hcols j Hj) as [Hcos Hsin].
    destruct (Hcj j Hj) as [Hre Him]. auto.
Qed.

End Tides.

(** ** [lin_window_ovrlp] *)

Lemma add_at_length (a : list Q) (k : nat) (v : Q) :
  length (add_at a k v) = length a.
Proof.
  revert k; induction a as [|x a IH]; intros [|k]; simpl; auto.
Qed.

Lemma add_at_nth (a : list Q) (k s : nat) (v : Q) :
  (s < length a)%nat ->
  nth s (add_at a k v) 0 = if (k =? s)%nat then nth s a 0 + v else nth s a 0.
Proof.
  revert k s; induction a as [|x a IH]; intros k s Hs; simpl in Hs; [lia|].
  destruct k as [|k], s as [|s]; simpl; auto.
  apply IH. lia.
Qed.

Lemma np_add_at_length (a : list Q) (idx : list nat) (vals : list Q) :
  length (np_add_at a idx vals) = length a.
Proof.
  unfold np_add_at. generalize (combine idx vals) as kvs. intros kvs.
  revert a; induction kvs as [|kv kvs IH]; intros a; simpl; auto.
  rewrite IH. apply add_at_length.
Qed.

Lemma np_add_at_nth (a : list Q) (idx : list nat) (vals : list Q) (s : nat) :
  (s < length a)%nat ->
  nth s (np_add_at a idx vals) 0 == nth s a 0 + window_value idx vals s.
Proof.
  unfold np_add_at, window_value. generalize (combine idx vals) as kvs. intros kvs.
  revert a; induction kvs as [|[k v] kvs IH]; intros a Hs; simpl.
  - ring.
  - rewrite IH by (rewrite add_at_length; exact Hs).
    rewrite add_at_nth by exact Hs.
    destruct (k =? s)%nat; simpl; ring.
Qed.

Lemma window_value_ones (i : list nat) (s : nat) :
  NoDup i ->
  window_value i (repeat 1 (length i)) s == if covers s i then 1 else 0.
Proof.
  unfold window_value, covers. induction i as [|k i IH]; intros Hnd; simpl.
  - reflexivity.
  - inversion Hnd as [|? ? Hnot Hnd']; subst.
    rewrite (Nat.eqb_sym s k). destruct (k =? s)%nat eqn:E; simpl.
    + apply Nat.eqb_eq in E; subst k. rewrite IH by exact Hnd'.
      destruct (existsb (Nat.eqb s) i) eqn:Ex; [|ring].
      apply existsb_exists in Ex as (k' & Hin & Ek). apply Nat.eqb_eq in Ek; subst k'.
      contradiction.
    + apply IH. exact Hnd'.
Qed.

Lemma take_in_range {A} (a : list A) (idx : list nat) (d : A) :
  Forall (fun k => (k < length a)%nat) idx ->
  take a idx = Ok (map (fun k => nth k a d) idx).
Proof.
  induction idx as [|k idx IH]; intros H; simpl; [reflexivity|].
  inversion H as [|? ? Hk Hrest]; subst.
  unfold getitem. rewrite (nth_error_nth' a d Hk). simpl.
  rewrite IH by exact Hrest. reflexivity.
Qed.

Lemma drop_nan_filter (y : list (option Q)) (i : list nat) :
  Forall (fun k => (k < length y)%nat) i ->
  drop_nan y i = Ok (filter (fun k => negb (isnan (nth k y None))) i).
Proof.
  intros H. unfold drop_nan. rewrite (take_in_range y i None H). simpl. f_equal.
  clear H. induction i as [|k i IH]; simpl; [reflexivity|].
  destruct (negb (isnan (nth k y None))); simpl; rewrite IH; reflexivity.
Qed.

Lemma where_in_range (x : list Q) (lo hi : Q) :
  NoDup (where_in x lo hi) /\
  Forall (fun k => (k < length x)%nat) (where_in x lo hi).
Proof.
  unfold where_in. split.
  - apply NoDup_filter, seq_NoDup.
  - apply Forall_forall. intros k Hk. apply filter_In in Hk as [Hk _].
    apply in_seq in Hk. lia.
Qed.

Lemma mapM_all_Ok {A B} (f : A -> result B) (g : A -> B) (l : list A) :
  (forall a, In a l -> f a = Ok (g a)) -> mapM f l = Ok (map g l).
Proof.
  induction l as [|a l IH]; intros H; simpl; [reflexivity|].
  rewrite (H a (or_introl eq_refl)). simpl. rewrite IH; [reflexivity|].
  intros a' Ha'. apply H. right. exact Ha'.
Qed.

Lemma contributions_sum (idx : list (list nat)) (s : nat) :
  np_sum (map (fun i => if covers s i then 1 else 0) idx)
  == inject_Z (Z.of_nat (contributions idx s)).
Proof.
  unfold contributions. induction idx as [|i idx IH]; simpl; [reflexivity|].
  rewrite IH. destruct (covers s i); simpl length.
  - rewrite Nat2Z.inj_succ. unfold Z.succ. rewrite inject_Z_plus. ring.
  - ring.
Qed.

Section Detrend.

Context {L : SciLib} {LS : SciLibSpec L}.

Lemma window_detrend_Ok x y i :
  exists d, window_detrend x y i = Ok d.
Proof.
  unfold window_detrend.
  set (Ai := {| shape0 := length i;
                cols := [map (fun k => nth k x 0) i; repeat 1 (length i)] |}).
  pose proof (lstsq_shape Ai (finite_at y i)) as Hlen.
  change (shape1 Ai) with 2%nat in Hlen.
  destruct (ls_x (lstsq Ai (finite_at y i))) as [|c0 [|c1 rest]];
    simpl in Hlen; try lia.
  simpl. eexists; reflexivity.
Qed.

Lemma accumulate_spec x y idx :
  Forall (@NoDup nat) idx ->
  forall yd cnt,
  exists yd' cnt',
    accumulate x y idx yd cnt = Ok (yd', cnt') /\
    length yd' = length yd /\ length cnt' = length cnt /\
    forall s,
      ((s < length yd)%nat -> nth s yd' 0 == nth s yd 0 + accumulated x y idx s) /\
      ((s < length cnt)%nat ->
       nth s cnt' 0 == nth s cnt 0 + inject_Z (Z.of_nat (contributions idx s))).
Proof.
  induction idx as [|i idx IH]; intros Hnd yd cnt.
  - exists yd, cnt. simpl. repeat split; auto; intros _.
    + unfold accumulated; simpl; ring.
    + unfold contributions; simpl. unfold inject_Z. ring.
  - inversion Hnd as [|? ? Hi Hrest]; subst.
    destruct (window_detrend_Ok x y i) as (d & Hd).
    destruct (IH Hrest (np_add_at yd i d) (np_add_at cnt i (repeat 1 (length i))))
      as (yd' & cnt' & Hacc & Hl1 & Hl2 & Hs).
    exists yd', cnt'. cbn [accumulate]. rewrite Hd. cbn [rbind].
    rewrite np_add_at_length in Hl1, Hl2.
    split; [exact Hacc|]. split; [exact Hl1|]. split; [exact Hl2|].
    intros s. destruct (Hs s) as [Hy Hc]. split; intros Hlt.
    + rewrite Hy by (rewrite np_add_at_length; exact Hlt).
      rewrite np_add_at_nth by exact Hlt.
      unfold accumulated. rewrite map_cons, np_sum_cons, Hd. ring.
    + rewrite Hc by (rewrite np_add_at_length; exact Hlt).
      rewrite np_add_at_nth by exact Hlt.
      rewrite window_value_ones by exact Hi.
      rewrite <- !contributions_sum. rewrite map_cons, np_sum_cons. ring.
Qed.

Lemma windows_Ok x y length_ stopper interval :
  (2 <= length x)%nat -> length y = length x -> ~ interval == 0 ->
  exists idx,
    windows x y length_ stopper interval = Ok idx /\
    Forall (surviving y stopper) idx.
Proof.
  intros Hx Hy Hint. unfold windows.
  destruct x as [|x0 [|x1 xr]]; simpl in Hx; try lia.
  set (x := x0 :: x1 :: xr) in *.
  change (getitem x 0) with (Ok x0). change (getitem x 1) with (Ok x1).
  change (getitem_last x) with (Ok (last x 0)). cbn [rbind].
  unfold np_arange.
  destruct (Qeq_bool interval 0) eqn:E; [apply Qeq_bool_iff in E; contradiction|].
  cbn [rbind].
  match goal with
  | |- context [mapM (drop_nan y) ?r] => set (raw := r)
  end.
  rewrite (mapM_all_Ok (drop_nan y)
             (filter (fun k => negb (isnan (nth k y None)))) raw).
  - cbn [rbind]. eexists. split; [reflexivity|].
    apply Forall_forall. intros i Hi. apply filter_In in Hi as [Hi Hlen].
    apply in_map_iff in Hi as (i0 & <- & Hi0).
    subst raw. apply in_map_iff in Hi0 as (tt & <- & _).
    destruct (where_in_range x (tt - length_ / 2) (tt + length_ / 2)) as [Hnd Hr].
    split; [apply Z.leb_le; exact Hlen|]. split; [apply NoDup_filter; exact Hnd|].
    intros k Hk. apply filter_In in Hk as [Hk Hnan].
    rewrite Forall_forall in Hr. split; [rewrite Hy; apply Hr; exact Hk|].
    apply negb_true_iff. exact Hnan.
  - intros i Hi. subst raw. apply in_map_iff in Hi as (tt & <- & _).
    apply drop_nan_filter. rewrite Hy.
    apply (where_in_range x (tt - length_ / 2) (tt + length_ / 2)).
Qed.

End Detrend.

(** ** When the fits return *)

Section Returns.

Context {L : SciLib} {LS : SciLibSpec L}.

Lemma condition_check_returns (sgl : list Q) :
  sgl <> [] -> exists cn w, condition_check sgl = (Ok cn, w).
Proof.
  intros H. destruct sgl as [|s0 sgl]; [congruence|].
  unfold condition_check. cbn [np_max np_min lift bind].
  destruct (xgt _ 1000000); cbn; eauto.
Qed.

Lemma harmonic_design_returns tf N freqs :
  tf <> [] -> length tf = N -> exists Phi, harmonic_design tf N freqs = Ok Phi.
Proof.
  intros Hne Hlen. unfold harmonic_design.
  destruct tf as [|t0 tf]; [congruence|]. cbn [getitem nth_error rbind].
  unfold hals_design.
  rewrite (mapM_all_Ok _
             (fun fj => [map (fun t => np_cos (fj * t))
                             (map (fun t => t - inject_Z (Qfloor t0)) (t0 :: tf));
                         map (fun t => np_sin (fj * t))
                             (map (fun t => t - inject_Z (Qfloor t0)) (t0 :: tf))])).
  - cbn [rbind]. eauto.
  - intros fj _. unfold fill_col. rewrite !length_map, Hlen, Nat.eqb_refl.
    reflexivity.
Qed.

(** X14.  With a sample per time, residuals and singular values reported by
    the solver, [harmonic_lsqr] returns a result. *)
Lemma harmonic_lsqr_returns tf data freqs Phi :
  harmonic_design tf (length data) freqs = Ok Phi ->
  ls_residuals (lstsq Phi data) <> [] ->
  ls_s (lstsq Phi data) <> [] ->
  exists r w, harmonic_lsqr tf data freqs = (Ok r, w).
Proof.
  intros Hd Hres Hs. unfold harmonic_lsqr. rewrite Hd. cbn [lift bind].
  destruct (ls_residuals (lstsq Phi data)) as [|res0 rest] eqn:Er; [congruence|].
  cbn [getitem nth_error].
  destruct (condition_check_returns _ Hs) as (cn & w & ->).
  destruct (harmonic_design_cols _ _ _ _ Hd) as (tf0 & _ & Hs0 & Hs1 & _).
  pose proof (lstsq_shape Phi data) as Hlen. rewrite Hs1 in Hlen.
  unfold matvec. rewrite (lstsq_shape Phi data), Nat.eqb_refl.
  destruct (ls_x (lstsq Phi data)) as [|th0 theta] eqn:Eth;
    [simpl in Hlen; lia|].
  cbn [getitem_last lift bind].
  assert (H0 : length (slice_step2 (th0 :: theta) 0) = length freqs).
  { unfold slice_step2. rewrite length_map, py_range_length2, Hlen.
    replace (2 * length freqs + 1 - 1 - 0 + 1)%nat
      with (1 + length freqs * 2)%nat by lia.
    rewrite Nat.div_add by lia. reflexivity. }
  assert (H1 : length (slice_step2 (th0 :: theta) 1) = length freqs).
  { unfold slice_step2. rewrite length_map, py_range_length2, Hlen.
    destruct (length freqs) as [|nf]; [reflexivity|].
    replace (2 * S nf + 1 - 1 - 1 + 1)%nat with (0 + S nf * 2)%nat by lia.
    rewrite Nat.div_add by lia. reflexivity. }
  unfold bcast2. rewrite length_map, H0, H1, Nat.eqb_refl.
  cbn. rewrite app_nil_r. eauto.
Qed.

(** X10.  When [regress_deconv] returns, it has warned exactly if the ratio
    of the largest to the smallest singular value of its design matrix
    exceeds 1e6, and there is no other warning.  The design matrix is the
    column of ones beside the regressors of the call: the lagged pressure
    derivatives and, with Earth tides, the tidal harmonics (['hals']) or the
    lagged tide derivatives (['ts']). *)
Lemma regress_deconv_warning tf GW BP ET lag_h et_method fqs WLc p w :
  regress_deconv tf GW BP ET lag_h et_method fqs = (Ok (WLc, p), w) ->
  exists dt spd v X smax smin,
    let n := length (deriv dt BP) in
    let nm := Z.to_nat (lag_count lag_h spd) in
    let et := match ET, et_method with None, None => false | _, _ => true end in
    let fq := match fqs with None => etfqs | Some f => f end in
    sampling tf = Ok (dt, spd) /\
    lag_matrix n nm (map Qopp (deriv dt BP)) = Ok v /\
    (((et_method = None \/ et_method = Some "hals"%string) /\
      hals_regressors et fq n tf v = Ok X)
     \/ (et_method = Some "ts"%string /\
         exists ETv, ET = Some ETv /\
                     ts_regressors true n nm (deriv dt ETv) v = Ok X)) /\
    np_max (svdvals (design n X)) = Ok smax /\
    np_min (svdvals (design n X)) = Ok smin /\
    w = (if xgt (np_divide smax smin) 1000000
         then [IllConditioned (np_divide smax smin)] else []).
Proof.
  intros H. apply regress_deconv_inv in H as [_ [(et & Het & Hm & H) | [Hm H]]].
  - apply regress_hals_inv in H
      as (dt & spd & v & X & c & covar & cn & lag_t & b &
          Hs & _ & Hv & HX & _ & Hcc & _).
    apply condition_check_Ok in Hcc as (smax & smin & Hmax & Hmin & -> & ->).
    exists dt, spd, v, X, smax, smin. cbv zeta in *.
    assert (Eet : et = match ET, et_method with None, None => false | _, _ => true end)
      by (rewrite Het; destruct ET, et_method; reflexivity).
    rewrite <- Eet.
    split; [exact Hs|]. split; [exact Hv|].
    split; [left; split; [exact Hm | exact HX]|].
    split; [exact Hmax|]. split; [exact Hmin | reflexivity].
  - apply regress_ts_inv in H
      as (ETv & dt & spd & V & XY & c & covar & cn & lag_t & b &
          (HET & _) & Hs & HV & HXY & _ & Hcc & _).
    apply condition_check_Ok in Hcc as (smax & smin & Hmax & Hmin & -> & ->).
    exists dt, spd, V, XY, smax, smin. cbv zeta in *.
    split; [exact Hs|]. split; [exact HV|].
    split; [right; split; [exact Hm | exists ETv; split; [exact HET | exact HXY]]|].
    split; [exact Hmax|]. split; [exact Hmin | reflexivity].
Qed.

End Returns.

(** ** The reference library and the runs on the example series *)

Lemma list_eqb_length {A} (eqb : A -> A -> bool) (a b : list A) :
  list_eqb eqb a b = true -> length a = length b.
Proof.
  revert b; induction a as [|x a IH]; intros [|y b] H; simpl in *;
    try discriminate; auto.
  apply andb_true_iff in H as [_ H]. rewrite (IH _ H). reflexivity.
Qed.

Lemma matrix_eqb_shape (A B : matrix) :
  matrix_eqb A B = true -> shape0 A = shape0 B /\ shape1 A = shape1 B.
Proof.
  unfold matrix_eqb. intros H. apply andb_true_iff in H as [H0 H1].
  apply Nat.eqb_eq in H0. apply list_eqb_length in H1. auto.
Qed.

Lemma ref_lib_spec : SciLibSpec ref_lib.
Proof.
  constructor.
  - intros A b. cbn [lstsq ref_lib]. unfold ref_lstsq.
    destruct (matrix_eqb A Phi_orth) eqn:E1;
      [apply matrix_eqb_shape in E1 as [_ ->]; reflexivity|].
    destruct (matrix_eqb A Phi_rank1) eqn:E2;
      [apply matrix_eqb_shape in E2 as [_ ->]; reflexivity|].
    unfold shape1. destruct (cols A) as [|xs [|ones [|z rest]]]; cbn [ls_x length];
      try (rewrite repeat_length; reflexivity).
    destruct (vec_eqb ones (repeat 1 (length xs))); [|reflexivity].
    unfold linregress. destruct (Qeq_bool _ 0); reflexivity.
  - intros A b H. cbn [lstsq ref_lib] in *. unfold ref_lstsq in *.
    destruct (matrix_eqb A Phi_orth) eqn:E1.
    { apply matrix_eqb_shape in E1 as [E0 E1]. rewrite E0, E1 in H.
      cbn in H. lia. }
    destruct (matrix_eqb A Phi_rank1) eqn:E2; [reflexivity|].
    unfold shape1 in *. destruct (cols A) as [|xs [|ones [|z rest]]];
      try reflexivity.
    destruct (vec_eqb ones (repeat 1 (length xs))); [|reflexivity].
    unfold linregress in *. destruct (Qeq_bool _ 0); [reflexivity|].
    cbn [ls_residuals ls_rank length] in *.
    destruct (shape0 A <=? 2)%nat eqn:E; [reflexivity|].
    apply Nat.leb_gt in E. lia.
  - intros Z x y p0 c covar. cbn [curve_fit ref_lib]. unfold ref_curve_fit.
    destruct (matrix_eqb Z Z_ts && vec_eqb y y_ts && (length p0 =? 5)%nat) eqn:E1.
    { apply andb_true_iff in E1 as [_ E1]. apply Nat.eqb_eq in E1.
      intros H; injection H as <- <-. rewrite E1.
      repeat split; repeat constructor. }
    destruct (matrix_eqb Z Z_hals && vec_eqb y y_hals && (length p0 =? 4)%nat) eqn:E2.
    { apply andb_true_iff in E2 as [_ E2]. apply Nat.eqb_eq in E2.
      intros H; injection H as <- <-. rewrite E2.
      repeat split; repeat constructor. }
    discriminate.
Qed.

(** The tabulated fits are the least-squares fits of their designs. *)
Example ref_curve_fit_exact :
  is_least_squares_fit Z_ts y_ts c_ts covar_ts = true /\
  is_least_squares_fit Z_hals y_hals c_hals covar_hals = true.
Proof. split; vm_compute; reflexivity. Qed.

Example run_ts_Ok :
  run_ts = (Ok (corrected_of run_ts, params_of run_ts), []).
Proof. vm_compute. reflexivity. Qed.

Example run_hals_Ok :
  run_hals = (Ok (corrected_of run_hals, params_of run_hals), []).
Proof. vm_compute. reflexivity. Qed.

(** The fit of [3 cos + 2 sin + 5] recovers the offset 5 and the coefficient
    [2 + 3j]: sine in the real part, cosine in the imaginary part. *)
Example run_harmonic_Ok :
  run_harmonic = (Ok (result_of run_harmonic), []) /\
  offset (result_of run_harmonic) == 5 /\
  Forall2 (fun z w => re z == re w /\ im z == im w)
          (complex (result_of run_harmonic)) [Cplx 2 3].
Proof.
  split; [vm_compute; reflexivity|].
  split; [vm_compute; reflexivity|].
  repeat constructor; vm_compute; reflexivity.
Qed.

(** A straight line with a missing sample is detrended to zero everywhere. *)
Example lin_window_ovrlp_line :
  exists out,
    lin_window_ovrlp (L := ref_lib) [0; 1; 2; 3; 4; 5; 6; 7]
      [Some 1; Some 3; Some 5; None; Some 9; Some 11; Some 13; Some 15] 3 3 3
    = Ok out /\
    Forall (fun v => v == 0) out.
Proof.
  eexists. split; [vm_compute; reflexivity|].
  repeat constructor.
Qed.

(** ** The statements on the example series *)

Lemma recentred_mean_witness :
  nanmean (corrected_of run_ts) == nanmean GW_ts.
Proof.
  apply (recentred_mean (L := ref_lib) tf_ts GW_ts BP_ts (Some ET_ts) 24
           (Some "ts"%string) None (corrected_of run_ts) (params_of run_ts) []).
  - reflexivity.
  - reflexivity.
  - vm_compute. reflexivity.
Defined.

Lemma cumulative_stdev_propagation_witness :
  exists Z y c covar nm,
    curve_fit (SciLib := ref_lib) Z tf_ts y (start_values Z) = Ok (c, covar) /\
    irf (brf (params_of run_ts)) = slice c 1 (nm + 1) /\
    cumulative_stdev (L := ref_lib) covar 1 nm (crf_stdev (brf (params_of run_ts))) /\
    forall e, erf (params_of run_ts) = Some (ErfLag e) ->
              irf e = slice c (nm + 1) (2 * nm + 1) /\
              cumulative_stdev (L := ref_lib) covar (nm + 1) nm (crf_stdev e).
Proof.
  apply (cumulative_stdev_propagation (L := ref_lib) (LS := ref_lib_spec)
           tf_ts GW_ts BP_ts (Some ET_ts) 24 (Some "ts"%string) None
           (corrected_of run_ts) (params_of run_ts) []).
  vm_compute. reflexivity.
Defined.

Lemma cumulative_additive_witness :
  let b := brf (params_of run_ts) in
  length (crf b) = length (irf b) /\
  nth 0 (crf b) 0 = nth 0 (irf b) 0 /\
  (forall i, (1 <= i < length (irf b))%nat ->
             nth i (crf b) 0 = nth (i - 1) (crf b) 0 + nth i (irf b) 0) /\
  last (crf b) 0 == np_sum (irf b).
Proof.
  apply (cumulative_additive (L := ref_lib) tf_ts GW_ts BP_ts (Some ET_ts) 24
           (Some "ts"%string) None (corrected_of run_ts) (params_of run_ts) []).
  - vm_compute. reflexivity.
  - left. reflexivity.
Defined.

Lemma harmonic_coefficients_witness :
  exists Phi tf0,
    harmonic_design (L := ref_lib) [0; 1 # 4; 1 # 2; 3 # 4] 4 [1] = Ok Phi /\
    getitem [0; 1 # 4; 1 # 2; 3 # 4] 0 = Ok tf0 /\
    length (complex (result_of run_harmonic)) = 1%nat /\
    offset (result_of run_harmonic) = last (ls_x (ref_lstsq Phi [8; 7; 2; 3])) 0 /\
    forall j, (j < 1)%nat ->
      fill_col 4 (map (fun t => ref_cos (nth j [1] 0 * 2 * np_pi
                                         * (t - inject_Z (Qfloor tf0))))
                      [0; 1 # 4; 1 # 2; 3 # 4])
        = Ok (nth (2 * j) (cols Phi) []) /\
      fill_col 4 (map (fun t => ref_sin (nth j [1] 0 * 2 * np_pi
                                         * (t - inject_Z (Qfloor tf0))))
                      [0; 1 # 4; 1 # 2; 3 # 4])
        = Ok (nth (2 * j + 1) (cols Phi) []) /\
      re (nth j (complex (result_of run_harmonic)) (Cplx 0 0))
        == nth (2 * j + 1) (ls_x (ref_lstsq Phi [8; 7; 2; 3])) 0 /\
      im (nth j (complex (result_of run_harmonic)) (Cplx 0 0))
        = nth (2 * j) (ls_x (ref_lstsq Phi [8; 7; 2; 3])) 0.
Proof.
  apply (harmonic_coefficients (L := ref_lib) (LS := ref_lib_spec)
           [0; 1 # 4; 1 # 2; 3 # 4] [8; 7; 2; 3] [1] (result_of run_harmonic) []).
  vm_compute. reflexivity.
Defined.

Lemma harmonic_empty_residuals_witness :
  harmonic_lsqr (L := ref_lib) [0; 1; 2; 3] [1; 2; 3; 4] [0]
  = (Raise IndexError, []).
Proof.
  assert (Hd : harmonic_design (L := ref_lib) [0; 1; 2; 3]
                 (length [1; 2; 3; 4]) [0] = Ok Phi_rank1)
    by (vm_compute; reflexivity).
  destruct (harmonic_empty_residuals (L := ref_lib) (LS := ref_lib_spec)
              [0; 1; 2; 3] [1; 2; 3; 4] [0] Phi_rank1 Hd) as (_ & Hraise & Hempty).
  apply Hraise. apply Hempty. right. vm_compute. lia.
Defined.

Lemma hals_correction_with_tides_witness :
  exists dt spd v u1 u2 fq comp Xc,
    sampling tf_hals = Ok (dt, spd) /\
    lag_matrix (length (deriv dt BP_hals)) (Z.to_nat (lag_count 0 spd))
               (map Qopp (deriv dt BP_hals)) = Ok v /\
    tide_harmonics ref_cos (length (deriv dt BP_hals)) tf_hals
                   (map (fun f => 2 * np_pi * f) fq) = Ok u1 /\
    tide_harmonics ref_sin (length (deriv dt BP_hals)) tf_hals
                   (map (fun f => 2 * np_pi * f) fq) = Ok u2 /\
    erf (params_of run_hals) = Some (ErfFreq fq comp) /\
    length Xc = length (deriv dt BP_hals) /\
    (forall r, (r < length (deriv dt BP_hals))%nat ->
       nth r Xc 0 == row_dot (cols v) (irf (brf (params_of run_hals))) r
                     + row_dot (cols u1) (map re comp) r
                     + row_dot (cols u2) (map im comp) r) /\
    recentre GW_hals (map (Qmult dt) (np_cumsum Xc)) = Ok (corrected_of run_hals).
Proof.
  apply (hals_correction_with_tides (L := ref_lib) (LS := ref_lib_spec)
           tf_hals GW_hals BP_hals None 0 (Some fqs_hals)
           (corrected_of run_hals) (params_of run_hals) []).
  vm_compute. reflexivity.
Defined.

Lemma tidal_coefficients_witness :
  (exists Z y c covar n nm fq comp,
     curve_fit (SciLib := ref_lib) Z tf_hals y (start_values Z) = Ok (c, covar) /\
     fq = fqs_hals /\
     erf (params_of run_hals) = Some (ErfFreq fq comp) /\
     length comp = length fq /\
     forall j, (j < length fq)%nat ->
       nth (nm + 1 + j) (cols Z) []
         = map (fun tk => ref_cos (2 * np_pi * nth j fq 0 * tk)) (firstn n tf_hals) /\
       nth (length fq + (nm + 1) + j) (cols Z) []
         = map (fun tk => ref_sin (2 * np_pi * nth j fq 0 * tk)) (firstn n tf_hals) /\
       re (nth j comp (Cplx 0 0)) = nth (nm + 1 + j) c 0 /\
       im (nth j comp (Cplx 0 0)) = nth (length fq + (nm + 1) + j) c 0) /\
  (forall tf' data freqs r w',
     harmonic_lsqr (L := ref_lib) tf' data freqs = (Ok r, w') ->
     exists Phi tf0,
       harmonic_design (L := ref_lib) tf' (length data) freqs = Ok Phi /\
       getitem tf' 0 = Ok tf0 /\
       forall j, (j < length freqs)%nat ->
         fill_col (length data)
                  (map (fun t => ref_cos (nth j freqs 0 * 2 * np_pi
                                          * (t - inject_Z (Qfloor tf0)))) tf')
           = Ok (nth (2 * j) (cols Phi) []) /\
         fill_col (length data)
                  (map (fun t => ref_sin (nth j freqs 0 * 2 * np_pi
                                          * (t - inject_Z (Qfloor tf0)))) tf')
           = Ok (nth (2 * j + 1) (cols Phi) []) /\
         re (nth j (complex r) (Cplx 0 0))
           == nth (2 * j + 1) (ls_x (ref_lstsq Phi data)) 0 /\
         im (nth j (complex r) (Cplx 0 0))
           = nth (2 * j) (ls_x (ref_lstsq Phi data)) 0).
Proof.
  apply (tidal_coefficients (L := ref_lib) (LS := ref_lib_spec)
           tf_hals GW_hals BP_hals None 0 (Some fqs_hals)
           (corrected_of run_hals) (params_of run_hals) []).
  vm_compute. reflexivity.
Defined.

(** C2, as stated, fails: on the series [tf_hals], whose heads follow the
    model with a tidal cosine coefficient 1 and sine coefficient 1/2, the
    series returned is not the heads minus the barometric contribution alone. *)
Lemma hals_correction_not_barometric_only :
  run_hals = (Ok (corrected_of run_hals, params_of run_hals), []) /\
  ~ barometric_only_claim (L := ref_lib) tf_hals GW_hals BP_hals None 0
      (Some fqs_hals).
Proof.
  split; [vm_compute; reflexivity|].
  intros H.
  destruct (H (corrected_of run_hals) (params_of run_hals) [])
    as (dt & spd & v & W & Hs & Hv & Hr & HF); [vm_compute; reflexivity|].
  vm_compute in Hs. injection Hs as <- <-.
  vm_compute in Hv. injection Hv as <-.
  vm_compute in Hr. injection Hr as <-.
  vm_compute in HF.
  inversion HF as [|a b la lb Hab _]; subst.
  revert Hab. unfold Qeq. simpl. lia.
Qed.

(** C1 on a failing input: with time and heads of three samples and a pressure
    series of four, the length check of line 524 does not fire and the call
    goes on into the regression. *)
Theorem length_check_misses_pressure (L : SciLib) :
  length_check [0; 1; 2] [1; 2; 3] [1; 2; 3; 4] = false /\
  regress_deconv (L := L) [0; 1; 2] [1; 2; 3] [1; 2; 3; 4] None 24 None None
  = regress_hals (L := L) false etfqs [0; 1; 2] [1; 2; 3] [1; 2; 3; 4] 24.
Proof.
  split; [reflexivity|].
  unfold regress_deconv.
  change (np_diff [0; 1; 2]) with [1 - 0; 2 - 1].
  cbn [np_min np_max lift bind fold_left].
  replace (negb (Qeq_bool (np_around6 (Qminb (1 - 0) (2 - 1)))
                          (np_around6 (Qmaxb (1 - 0) (2 - 1)))))
    with false by (vm_compute; reflexivity).
  replace (length_check [0; 1; 2] [1; 2; 3] [1; 2; 3; 4]) with false
    by reflexivity.
  cbn [String.eqb Ascii.eqb Bool.eqb].
  destruct (regress_hals false etfqs [0; 1; 2] [1; 2; 3] [1; 2; 3; 4] 24)
    as [r w]. cbn [app]. reflexivity.
Qed.

(** C6 on a failing input: at the frequency zero the design matrix of
    [harmonic_lsqr] has rank one, its smallest singular value is zero and the
    ratio exceeds 1e6, and the call ends in an [IndexError] with no warning
    issued and no fit returned. *)
Theorem harmonic_lsqr_rank_deficient :
  harmonic_design (L := ref_lib) [0; 1; 2; 3] 4 [0] = Ok Phi_rank1 /\
  (exists smax smin,
     np_max (ls_s (ref_lstsq Phi_rank1 [1; 2; 3; 4])) = Ok smax /\
     np_min (ls_s (ref_lstsq Phi_rank1 [1; 2; 3; 4])) = Ok smin /\
     xgt (np_divide smax smin) 1000000 = true) /\
  harmonic_lsqr (L := ref_lib) [0; 1; 2; 3] [1; 2; 3; 4] [0]
  = (Raise IndexError, []).
Proof.
  split; [vm_compute; reflexivity|]. split.
  - eexists. eexists. split; [vm_compute; reflexivity|].
    split; [vm_compute; reflexivity|]. vm_compute. reflexivity.
  - vm_compute. reflexivity.
Qed.

(** * Further properties of the engine *)

(** ** Rounding *)

Lemma rint_comp (x y : Q) : x == y -> rint x = rint y.
Proof.
  intro H. unfold rint.
  rewrite (Qfloor_comp _ _ H).
  assert (Hd : x - inject_Z (Qfloor y) == y - inject_Z (Qfloor y)) by (rewrite H; reflexivity).
  rewrite (Qleb_comp _ _ Hd _ _ (Qeq_refl (1 # 2))).
  rewrite (Qeqb_comp _ _ Hd _ _ (Qeq_refl (1 # 2))).
  reflexivity.
Qed.

Lemma np_around6_comp (x y : Q) : x == y -> np_around6 x = np_around6 y.
Proof.
  intro H. unfold np_around6.
  rewrite (rint_comp (x * 1000000) (y * 1000000)); [reflexivity|].
  rewrite H. reflexivity.
Qed.

(** ** Extremes of an array *)

Lemma fold_left_Qminb (rest : list Q) (x : Q) :
  (fold_left Qminb rest x = x \/ In (fold_left Qminb rest x) rest) /\
  fold_left Qminb rest x <= x /\
  Forall (fun y => fold_left Qminb rest x <= y) rest.
Proof.
  revert x. induction rest as [|y rest IH]; intro x; cbn [fold_left].
  - split; [left; reflexivity|]. split; [apply Qle_refl | constructor].
  - destruct (IH (Qminb x y)) as (Hin & Hle & Hall).
    assert (Hm : (Qminb x y = x \/ Qminb x y = y) /\ Qminb x y <= x /\ Qminb x y <= y).
    { unfold Qminb. destruct (Qle_bool x y) eqn:E.
      - apply Qle_bool_iff in E. split; [left; reflexivity|]. split; [apply Qle_refl | exact E].
      - assert (~ x <= y) by (intro H; apply Qle_bool_iff in H; congruence).
        split; [right; reflexivity|]. split; [lra | apply Qle_refl]. }
    destruct Hm as (Hc & Hx & Hy).
    split; [|split].
    + destruct Hin as [Hin | Hin].
      * rewrite Hin. destruct Hc as [Hc | Hc]; rewrite Hc; [left; reflexivity | right; left; reflexivity].
      * right; right; exact Hin.
    + lra.
    + constructor; [lra | exact Hall].
Qed.

Lemma fold_left_Qmaxb (rest : list Q) (x : Q) :
  (fold_left Qmaxb rest x = x \/ In (fold_left Qmaxb rest x) rest) /\
  x <= fold_left Qmaxb rest x /\
  Forall (fun y => y <= fold_left Qmaxb rest x) rest.
Proof.
  revert x. induction rest as [|y rest IH]; intro x; cbn [fold_left].
  - split; [left; reflexivity|]. split; [apply Qle_refl | constructor].
  - destruct (IH (Qmaxb x y)) as (Hin & Hle & Hall).
    assert (Hm : (Qmaxb x y = x \/ Qmaxb x y = y) /\ x <= Qmaxb x y /\ y <= Qmaxb x y).
    { unfold Qmaxb. destruct (Qle_bool x y) eqn:E.
      - apply Qle_bool_iff in E. split; [right; reflexivity|]. split; [exact E | apply Qle_refl].
      - assert (~ x <= y) by (intro H; apply Qle_bool_iff in H; congruence).
        split; [left; reflexivity|]. split; [apply Qle_refl | lra]. }
    destruct Hm as (Hc & Hx & Hy).
    split; [|split].
    + destruct Hin as [Hin | Hin].
      * rewrite Hin. destruct Hc as [Hc | Hc]; rewrite Hc; [left; reflexivity | right; left; reflexivity].
      * right; right; exact Hin.
    + lra.
    + constructor; [lra | exact Hall].
Qed.

Lemma np_min_spec (a : list Q) :
  a <> [] ->
  exists m, np_min a = Ok m /\ In m a /\ Forall (fun y => m <= y) a.
Proof.
  destruct a as [|x rest]; [congruence|]. intros _.
  destruct (fold_left_Qminb rest x) as (Hin & Hle & Hall).
  exists (fold_left Qminb rest x). split; [reflexivity|]. split.
  - destruct Hin as [-> | Hin]; [left; reflexivity | right; exact Hin].
  - constructor; assumption.
Qed.

Lemma np_max_spec (a : list Q) :
  a <> [] ->
  exists m, np_max a = Ok m /\ In m a /\ Forall (fun y => y <= m) a.
Proof.
  destruct a as [|x rest]; [congruence|]. intros _.
  destruct (fold_left_Qmaxb rest x) as (Hin & Hle & Hall).
  exists (fold_left Qmaxb rest x). split; [reflexivity|]. split.
  - destruct Hin as [-> | Hin]; [left; reflexivity | right; exact Hin].
  - constructor; assumption.
Qed.

Lemma np_diff_length (a : list Q) : length (np_diff a) = (length a - 1)%nat.
Proof.
  induction a as [|x [|y rest] IH]; [reflexivity | reflexivity |].
  change (np_diff (x :: y :: rest)) with ((y - x) :: np_diff (y :: rest)).
  cbn [length] in *. lia.
Qed.

(** ** The outcome monad, continued *)

Lemma bind_lift_ret {A B} (a : A) (f : A -> M B) : bind (lift (Ok a)) f = f a.
Proof. unfold bind, lift. destruct (f a). reflexivity. Qed.

Lemma bind_lift_raise {A B} (e : exn) (f : A -> M B) :
  bind (lift (Raise e)) f = (Raise e, []).
Proof. reflexivity. Qed.

(** ** The checks of [regress_deconv] *)

Section Checks.

Context {L : SciLib}.

(** X2.  A time vector of fewer than two samples has no sampling interval:
    [np.min] of the empty difference array raises [ValueError] before any of
    the engine's own checks. *)
Theorem regress_deconv_short tf GW BP ET lag_h et_method fqs :
  (length tf <= 1)%nat ->
  regress_deconv tf GW BP ET lag_h et_method fqs = (Raise ValueError, []).
Proof.
  intro Hlen.
  assert (E : np_diff tf = []).
  { destruct tf as [|x [|y rest]]; [reflexivity | reflexivity |].
    cbn [length] in Hlen. lia. }
  unfold regress_deconv.
  destruct (match ET, et_method with
            | None, None => (false, Some "hals"%string)
            | _, _ => (true, et_method)
            end) as [et m].
  rewrite E. reflexivity.
Qed.

(** A regularly sampled time vector passes the sampling check. *)
Lemma regular_extremes tf d :
  Forall (fun x => x == d) (np_diff tf) -> (2 <= length tf)%nat ->
  exists dmin dmax,
    np_min (np_diff tf) = Ok dmin /\ np_max (np_diff tf) = Ok dmax /\
    Qeq_bool (np_around6 dmin) (np_around6 dmax) = true.
Proof.
  intros Hreg Hlen.
  assert (Hne : np_diff tf <> []).
  { intro E. pose proof (np_diff_length tf) as Hl. rewrite E in Hl.
    cbn [length] in Hl. lia. }
  destruct (np_min_spec _ Hne) as (dmin & Emin & Imin & _).
  destruct (np_max_spec _ Hne) as (dmax & Emax & Imax & _).
  rewrite Forall_forall in Hreg.
  exists dmin, dmax. split; [exact Emin|]. split; [exact Emax|].
  rewrite (np_around6_comp dmin dmax).
  - apply Qeq_bool_iff. reflexivity.
  - rewrite (Hreg _ Imin), (Hreg _ Imax). reflexivity.
Qed.

(** X3.  On a regularly sampled time vector, a head series whose length
    differs from that of the time vector and from that of the pressure
    series is rejected with "Error: All input arrays must have the same
    length!". *)
Theorem regress_deconv_length_error tf GW BP ET lag_h et_method fqs d :
  Forall (fun x => x == d) (np_diff tf) -> (2 <= length tf)%nat ->
  length tf <> length GW -> length GW <> length BP ->
  regress_deconv tf GW BP ET lag_h et_method fqs
  = (Raise (Exception "Error: All input arrays must have the same length!"), []).
Proof.
  intros Hreg Hlen H1 H2.
  destruct (regular_extremes tf d Hreg Hlen) as (dmin & dmax & Emin & Emax & Eeq).
  assert (Hchk : length_check tf GW BP = true).
  { unfold length_check. apply andb_true_iff.
    split; apply negb_true_iff, Nat.eqb_neq; assumption. }
  unfold regress_deconv.
  destruct ET as [e|], et_method as [m|];
    cbv beta iota zeta;
    rewrite Emin, bind_lift_ret, Emax, bind_lift_ret, Eeq, Hchk;
    reflexivity.
Qed.

(** After the two checks the call is dispatched on the method name. *)
Lemma regress_deconv_dispatch tf GW BP ET lag_h et_method fqs d :
  Forall (fun x => x == d) (np_diff tf) -> (2 <= length tf)%nat ->
  length_check tf GW BP = false ->
  regress_deconv tf GW BP ET lag_h et_method fqs
  = let et := match ET, et_method with None, None => false | _, _ => true end in
    let fq := match fqs with None => etfqs | Some f => f end in
    match (match ET, et_method with
           | None, None => Some "hals"%string
           | _, _ => et_method
           end) with
    | Some m =>
        if String.eqb m "hals" then regress_hals et fq tf GW BP lag_h
        else if String.eqb m "ts" then regress_ts et tf GW BP ET lag_h
        else raise (Exception "Error: Please only use available Earth tide methods!")
    | None => raise (Exception "Error: Please only use available Earth tide methods!")
    end.
Proof.
  intros Hreg Hlen Hchk.
  destruct (regular_extremes tf d Hreg Hlen) as (dmin & dmax & Emin & Emax & Eeq).
  unfold regress_deconv.
  destruct ET as [e|], et_method as [m|];
    cbv beta iota zeta;
    rewrite Emin, bind_lift_ret, Emax, bind_lift_ret, Eeq, Hchk;
    reflexivity.
Qed.

(** X4.  A call that passes the sampling and the length check, but names a
    method other than ['hals'] and ['ts'], raises "Error: Please only use
    available Earth tide methods!"; this includes a call that supplies an
    Earth-tide series and leaves [et_method] at its default [None]. *)
Theorem regress_deconv_unknown_method tf GW BP ET lag_h et_method fqs d :
  Forall (fun x => x == d) (np_diff tf) -> (2 <= length tf)%nat ->
  length_check tf GW BP = false ->
  ET <> None \/ et_method <> None ->
  et_method <> Some "hals"%string -> et_method <> Some "ts"%string ->
  regress_deconv tf GW BP ET lag_h et_method fqs
  = (Raise (Exception "Error: Please only use available Earth tide methods!"), []).
Proof.
  intros Hreg Hlen Hchk Hgiven Hh Ht.
  rewrite (regress_deconv_dispatch _ _ _ _ _ _ _ d Hreg Hlen Hchk).
  cbv zeta.
  destruct et_method as [m|].
  - destruct ET; cbv iota.
    + destruct (String.eqb m "hals") eqn:E1.
      { apply String.eqb_eq in E1. subst m. congruence. }
      destruct (String.eqb m "ts") eqn:E2.
      { apply String.eqb_eq in E2. subst m. congruence. }
      reflexivity.
    + destruct (String.eqb m "hals") eqn:E1.
      { apply String.eqb_eq in E1. subst m. congruence. }
      destruct (String.eqb m "ts") eqn:E2.
      { apply String.eqb_eq in E2. subst m. congruence. }
      reflexivity.
  - destruct ET as [e|]; [reflexivity|].
    destruct Hgiven as [H | H]; congruence.
Qed.

(** X5.  In ['ts'] mode the Earth-tide series is required and must have the
    length of the time vector: without it the call raises "Error: Please
    input valid Earth tide data!", with one of another length "Error: Earth
    tide data must have the same length!". *)
Theorem regress_deconv_ts_tides tf GW BP lag_h fqs d :
  Forall (fun x => x == d) (np_diff tf) -> (2 <= length tf)%nat ->
  length_check tf GW BP = false ->
  regress_deconv tf GW BP None lag_h (Some "ts"%string) fqs
  = (Raise (Exception "Error: Please input valid Earth tide data!"), []) /\
  forall e, length e <> length tf ->
    regress_deconv tf GW BP (Some e) lag_h (Some "ts"%string) fqs
    = (Raise (Exception "Error: Earth tide data must have the same length!"), []).
Proof.
  intros Hreg Hlen Hchk. split.
  - rewrite (regress_deconv_dispatch _ _ _ _ _ _ _ d Hreg Hlen Hchk).
    reflexivity.
  - intros e Hne.
    rewrite (regress_deconv_dispatch _ _ _ _ _ _ _ d Hreg Hlen Hchk).
    cbv zeta iota. change (String.eqb "ts" "hals") with false.
    change (String.eqb "ts" "ts") with true. cbv iota.
    unfold regress_ts.
    assert (E : (length tf =? length e)%nat = false)
      by (apply Nat.eqb_neq; congruence).
    rewrite E. reflexivity.
Qed.

(** X6.  In ['hals'] mode the Earth-tide series is never read: the outcome
    of the call does not depend on [ET]. *)
Theorem regress_deconv_hals_ignores_tides tf GW BP ET ET' lag_h fqs :
  regress_deconv tf GW BP ET lag_h (Some "hals"%string) fqs
  = regress_deconv tf GW BP ET' lag_h (Some "hals"%string) fqs.
Proof.
  unfold regress_deconv.
  destruct ET, ET'; reflexivity.
Qed.

(** X7.  Equal time stamps pass the sampling check, since their differences
    are all zero; the call then fails with [OverflowError] at
    [int(np.round(1/dt))], in the ['hals'] branch and in the default call. *)
Theorem regress_deconv_zero_interval tf GW BP ET lag_h et_method fqs :
  Forall (fun x => x == 0) (np_diff tf) -> (2 <= length tf)%nat ->
  length_check tf GW BP = false ->
  et_method = Some "hals"%string \/ (ET = None /\ et_method = None) ->
  regress_deconv tf GW BP ET lag_h et_method fqs = (Raise OverflowError, []).
Proof.
  intros Hreg Hlen Hchk Hm.
  rewrite (regress_deconv_dispatch _ _ _ _ _ _ _ 0 Hreg Hlen Hchk).
  assert (Es : sampling tf = Raise OverflowError).
  { destruct tf as [|t0 [|t1 rest]]; cbn [length] in Hlen; try lia.
    change (np_diff (t0 :: t1 :: rest)) with ((t1 - t0) :: np_diff (t1 :: rest)) in Hreg.
    inversion Hreg as [|? ? H0 _]; subst.
    unfold sampling. cbn [getitem nth_error rbind].
    apply Qeq_bool_iff in H0. rewrite H0. reflexivity. }
  assert (Eh : forall et fq, regress_hals et fq tf GW BP lag_h = (Raise OverflowError, [])).
  { intros et fq. unfold regress_hals. rewrite Es. reflexivity. }
  destruct Hm as [-> | [-> ->]].
  - cbv zeta. destruct ET; apply Eh.
  - apply Eh.
Qed.

End Checks.

(** ** The shape of a result of [regress_deconv] *)



Section ResultShape.

Context {L : SciLib} {LS : SciLibSpec L}.








(** X9.  The default call, without Earth tides: the result has no ['erf']
    entry, and the corrected series is the head series minus the integrated
    barometric contribution [v @ brf], re-centred. *)
Theorem regress_deconv_default_barometric tf GW BP lag_h fqs WLc p w :
  regress_deconv tf GW BP None lag_h None fqs = (Ok (WLc, p), w) ->
  erf p = None /\
  exists dt spd v,
    sampling tf = Ok (dt, spd) /\
    lag_matrix (length (deriv dt BP)) (Z.to_nat (lag_count lag_h spd))
               (map Qopp (deriv dt BP)) = Ok v /\
    recentre GW (barometric_correction dt v (irf (brf p))) = Ok WLc.
Proof.
  intro H. apply regress_deconv_inv in H as [_ [(et & -> & _ & H) | [E _]]];
    [|discriminate].
  cbn [negb] in H.
  apply regress_hals_inv in H
    as (dt & spd & v & X & c & covar & cn & lag_t & b &
        Hs & Hnm & Hv & HX & Hfit & _ & Hhc & _ & Hb & Hp & He).
  cbv zeta in *. cbn [hals_regressors] in HX. injection HX as <-.
  set (nm := Z.to_nat (lag_count lag_h spd)) in *.
  destruct (fit_shape _ _ _ _ _ _ Hfit) as [Hc Hsh].
  pose proof Hv as Hv'. apply lag_matrix_shape in Hv' as [Hv0 Hv1].
  rewrite Hv1 in Hc, Hsh.
  assert (Hd : (nm + 1 <= S nm)%nat) by lia.
  destruct (brf_bundle_spec _ _ _ _ _ _ Hsh Hd Hb) as (Hi & _ & _).
  split; [exact He|].
  exists dt, spd, v. split; [exact Hs|]. split; [exact Hv|].
  rewrite Hp, Hi.
  unfold head_correction, integrated_correction, matvec in Hhc.
  rewrite Hc in Hhc. replace (S nm) with (nm + 1)%nat in Hhc by lia.
  assert (El : (length (slice c 1 (nm + 1)) =? shape1 v)%nat = true).
  { apply Nat.eqb_eq. rewrite slice_length, Hv1. lia. }
  rewrite El in Hhc. cbn [rbind] in Hhc.
  exact Hhc.
Qed.

End ResultShape.

(** ** The model signal of [harmonic_lsqr] *)

Lemma row_dot_sum (cs : list (list Q)) (w : list Q) (r : nat) :
  length cs = length w ->
  row_dot cs w r
  == np_sum (map (fun i => nth r (nth i cs []) 0 * nth i w 0) (seq 0 (length cs))).
Proof.
  unfold row_dot. revert w. induction cs as [|c cs IH]; intros [|x w] H;
    cbn [length] in H; try lia.
  - reflexivity.
  - cbn [zipwith length seq map]. rewrite !np_sum_cons.
    rewrite (IH w) by lia. rewrite <- seq_shift, map_map. reflexivity.
Qed.

Lemma sum_pairs (g : nat -> Q) (n : nat) :
  np_sum (map g (seq 0 (2 * n + 1)))
  == np_sum (map (fun j => g (2 * j)%nat + g (2 * j + 1)%nat) (seq 0 n))
     + g (2 * n)%nat.
Proof.
  induction n as [|n IH].
  - cbn. ring.
  - replace (2 * S n + 1)%nat with ((2 * n + 1) + 2)%nat by lia.
    rewrite seq_app, map_app, np_sum_app, IH.
    rewrite (seq_S n 0), map_app, np_sum_app.
    change (seq (0 + (2 * n + 1)) 2) with [(2 * n + 1)%nat; S (2 * n + 1)].
    change (0 + n)%nat with n.
    cbn [map]. rewrite !np_sum_cons. change (np_sum []) with 0.
    replace (S (2 * n + 1)) with (2 * S n)%nat by lia.
    replace (2 * S n + 1)%nat with (S (2 * S n)) by lia.
    replace (2 * n + 1)%nat with (S (2 * n)) by lia.
    replace (2 * S n)%nat with (S (S (2 * n))) by lia.
    ring.
Qed.

Lemma last_nth (l : list Q) (d : Q) : last l d = nth (length l - 1) l d.
Proof.
  induction l as [|x [|y l] IH]; [reflexivity | reflexivity |].
  change (last (x :: y :: l) d) with (last (y :: l) d). rewrite IH.
  cbn [length]. replace (S (S (length l)) - 1)%nat with (S (S (length l) - 1)) by lia.
  reflexivity.
Qed.

Section Model.

Context {L : SciLib} {LS : SciLibSpec L}.

Lemma harmonic_design_ones tf N freqs Phi :
  harmonic_design tf N freqs = Ok Phi ->
  nth (2 * length freqs) (cols Phi) [] = repeat 1 N.
Proof.
  intro H. pose proof H as H'.
  apply harmonic_design_cols in H' as (tf0 & _ & _ & Hs & _).
  unfold harmonic_design in H. apply rbind_Ok in H as (t0 & _ & H).
  unfold hals_design in H. apply rbind_Ok in H as (pairs & _ & H).
  injection H as <-. unfold shape1 in Hs. cbn [cols] in *.
  rewrite length_app in Hs. cbn [length] in Hs.
  rewrite app_nth2 by lia.
  replace (2 * length freqs - length (concat pairs))%nat with 0%nat by lia.
  reflexivity.
Qed.

Lemma fill_col_nth N (f : Q -> Q) (tf col : list Q) (k : nat) :
  fill_col N (map f tf) = Ok col -> length tf = N -> (k < N)%nat ->
  nth k col 0 = f (nth k tf 0).
Proof.
  unfold fill_col. intros H Hl Hk.
  rewrite length_map, Hl, Nat.eqb_refl in H. injection H as <-.
  rewrite (nth_indep _ 0 (f 0)) by (rewrite length_map; lia).
  apply map_nth.
Qed.

(** X11.  The model signal that [harmonic_lsqr] returns is the offset plus,
    for every frequency, the imaginary part of its coefficient times the
    cosine and the real part times the sine of [2 pi f (t - floor(t[0]))]. *)
Theorem harmonic_model_signal tf data freqs r w :
  length tf = length data ->
  harmonic_lsqr tf data freqs = (Ok r, w) ->
  length (y_model r) = length data /\
  forall k, (k < length data)%nat ->
    nth k (y_model r) 0
    == offset r
       + np_sum (map (fun j =>
                        let c := nth j (complex r) (Cplx 0 0) in
                        let tau := nth j freqs 0 * 2 * np_pi
                                   * (nth k tf 0 - inject_Z (Qfloor (nth 0 tf 0))) in
                        im c * np_cos tau + re c * np_sin tau)
                     (seq 0 (length freqs))).
Proof.
  intros Hlen H.
  apply harmonic_lsqr_inv in H
    as (Phi & res0 & cn & ym & dc & comp & HPhi & _ & _ & Hym & Hdc & Hcomp & ->).
  cbn [y_model offset complex].
  pose proof (harmonic_design_ones _ _ _ _ HPhi) as Hones.
  destruct (harmonic_design_cols _ _ _ _ HPhi) as (tf0 & Htf0 & Hs0 & Hs1 & Hcols).
  set (theta := ls_x (lstsq Phi data)) in *.
  assert (Hth : length theta = (2 * length freqs + 1)%nat)
    by (subst theta; rewrite lstsq_shape; exact Hs1).
  destruct (hals_comp_nth theta (length freqs) comp Hth Hcomp) as (_ & Hc).
  apply getitem_last_Ok in Hdc.
  assert (Hlast : dc = nth (2 * length freqs) theta 0).
  { rewrite Hdc, (last_nth theta 0), Hth. f_equal. lia. }
  assert (Ht0 : tf0 = nth 0 tf 0).
  { unfold getitem in Htf0. destruct tf as [|t tf']; cbn in Htf0; [discriminate|].
    injection Htf0 as <-. reflexivity. }
  unfold matvec in Hym.
  rewrite Hth, Hs1, Nat.eqb_refl, Hs0 in Hym. injection Hym as <-.
  split; [rewrite length_map, length_seq; reflexivity|].
  intros k Hk.
  rewrite (nth_indep _ 0 (row_dot (cols Phi) theta 0))
    by (rewrite length_map, length_seq; exact Hk).
  rewrite map_nth, seq_nth by exact Hk. cbn [Nat.add].
  rewrite row_dot_sum by (fold (shape1 Phi); lia).
  fold (shape1 Phi). rewrite Hs1, sum_pairs, Hones, nth_repeat_lt by exact Hk.
  rewrite <- Hlast.
  rewrite Qplus_comm. apply Qplus_comp; [ring|].
  apply np_sum_ext. intros j Hj. apply in_seq in Hj.
  assert (Hj' : (j < length freqs)%nat) by lia.
  destruct (Hcols j Hj') as (Hcos & Hsin).
  destruct (Hc j Hj') as (Hre & Him).
  cbv zeta.
  rewrite (fill_col_nth _ _ _ _ k Hcos Hlen Hk).
  rewrite (fill_col_nth _ _ _ _ k Hsin Hlen Hk).
  rewrite Hre, Him, Ht0. ring.
Qed.

Lemma hals_design_mismatch N tf f0 f :
  length tf <> N -> length tf <> 1%nat ->
  hals_design N tf (f0 :: f) = Raise ValueError.
Proof.
  intros HN H1. unfold hals_design. cbn [mapM].
  assert (E : fill_col N (map (fun t => np_cos (f0 * t)) tf) = Raise ValueError).
  { unfold fill_col. rewrite length_map.
    destruct (length tf =? N)%nat eqn:E; [apply Nat.eqb_eq in E; congruence|].
    destruct tf as [|a [|b tf']]; try reflexivity.
    cbn [length] in H1. congruence. }
  rewrite E. reflexivity.
Qed.

(** X12.  [harmonic_lsqr] fails on input it cannot lay out: an empty time
    vector raises [IndexError] at [tf[0]], and a time vector whose length is
    neither that of the data nor one raises [ValueError] as soon as there is a
    frequency. *)
Theorem harmonic_lsqr_layout_errors data freqs :
  harmonic_lsqr [] data freqs = (Raise IndexError, []) /\
  forall tf, tf <> [] -> length tf <> length data -> length tf <> 1%nat ->
             freqs <> [] ->
             harmonic_lsqr tf data freqs = (Raise ValueError, []).
Proof.
  split; [reflexivity|].
  intros tf Hne Hlen H1 Hf.
  unfold harmonic_lsqr, harmonic_design.
  destruct tf as [|t0 tf']; [congruence|].
  cbn [getitem nth_error rbind].
  destruct freqs as [|f0 freqs']; [congruence|].
  rewrite (map_cons (fun x => x * 2 * np_pi) f0 freqs').
  rewrite hals_design_mismatch; [reflexivity | |];
    rewrite length_map; assumption.
Qed.

End Model.

(** ** Samples that [lin_window_ovrlp] leaves at zero *)

Lemma filter_seq_length {A} (P : A -> bool) (d : A) (y : list A) (off : nat) :
  length (filter (fun k => P (nth (k - off) y d)) (seq off (length y)))
  = length (filter P y).
Proof.
  revert off. induction y as [|x y IH]; intro off; [reflexivity|].
  cbn [length seq filter]. rewrite Nat.sub_diag.
  change (nth 0 (x :: y) d) with x.
  assert (E : filter (fun k => P (nth (k - off) (x :: y) d)) (seq (S off) (length y))
              = filter (fun k => P (nth (k - S off) y d)) (seq (S off) (length y))).
  { apply filter_ext_in. intros k Hk. apply in_seq in Hk.
    replace (k - off)%nat with (S (k - S off)) by lia. reflexivity. }
  rewrite E. destruct (P x); cbn [length]; rewrite IH; reflexivity.
Qed.

Lemma window_size (y : list (option Q)) (stopper : Z) (i : list nat) :
  surviving y stopper i ->
  (length i <= length (filter (fun v => negb (isnan v)) y))%nat.
Proof.
  intros (_ & Hnd & Hin).
  rewrite <- (filter_seq_length (fun v => negb (isnan v)) None y 0).
  apply NoDup_incl_length; [exact Hnd|].
  intros k Hk. destruct (Hin k Hk) as [Hlt Hnan].
  apply filter_In. split; [apply in_seq; lia|].
  rewrite Nat.sub_0_r, Hnan. reflexivity.
Qed.

Lemma missing_not_covered (y : list (option Q)) (stopper : Z)
    (idx : list (list nat)) (s : nat) :
  Forall (surviving y stopper) idx -> isnan (nth s y None) = true ->
  contributions idx s = 0%nat.
Proof.
  intros Hsurv Hnan. unfold contributions.
  induction Hsurv as [|i idx Hi _ IH]; [reflexivity|].
  cbn [filter]. destruct (covers s i) eqn:E; [|exact IH].
  exfalso. unfold covers in E. apply existsb_exists in E as (k & Hk & Ek).
  apply Nat.eqb_eq in Ek. subst k.
  destruct Hi as (_ & _ & Hin). destruct (Hin s Hk) as [_ H]. congruence.
Qed.

Section Zeros.

Context {L : SciLib} {LS : SciLibSpec L}.

(** The last lines of [lin_window_ovrlp] (486-493): a sample without a
    contribution is [0.0], every other one the mean of its contributions. *)
Lemma lin_window_ovrlp_quotient tf data length_ stopper n_ovrlp idx yd cnt :
  (n_ovrlp + 1 <> 0)%Z ->
  windows tf data length_ stopper (length_ / inject_Z (n_ovrlp + 1)) = Ok idx ->
  accumulate tf data idx (repeat 0 (length data)) (repeat 0 (length data))
  = Ok (yd, cnt) ->
  length yd = length data -> length cnt = length data ->
  exists out,
    lin_window_ovrlp tf data length_ stopper n_ovrlp = Ok out /\
    length out = length data /\
    forall s, (s < length data)%nat ->
      nth s out 0 = if Qeq_bool (nth s cnt 0) 0 then 0
                    else nth s yd 0 / nth s cnt 0.
Proof.
  intros Hn Hw Hacc Hl1 Hl2.
  unfold lin_window_ovrlp.
  destruct (n_ovrlp + 1 =? 0)%Z eqn:En; [apply Z.eqb_eq in En; contradiction|].
  rewrite Hw. cbn [rbind]. rewrite Hacc. cbn [rbind].
  eexists. split; [reflexivity|].
  split; [rewrite length_map, zipwith_length, length_map, Hl1, Hl2; apply Nat.min_id|].
  intros s Hlt.
  set (g := fun v : option Q => match v with Some q => q | None => 0 end).
  set (h := fun (s0 : Q) (c : option Q) =>
              match c with Some c0 => Some (s0 / c0) | None => None end).
  set (k := fun c : Q => if Qeq_bool c 0 then None else Some c).
  transitivity (g (nth s (zipwith h yd (map k cnt)) None));
    [exact (map_nth g _ None s)|].
  rewrite (zipwith_nth h yd (map k cnt) s 0 None)
    by (rewrite ?length_map; lia).
  rewrite (nth_indep (map k cnt) None (k 0)) by (rewrite length_map; lia).
  rewrite map_nth. subst g h k. cbv beta.
  destruct (Qeq_bool (nth s cnt 0) 0); reflexivity.
Qed.

Lemma nonzero_step (length_ : Q) (n_ovrlp : Z) :
  (n_ovrlp + 1 <> 0)%Z -> ~ length_ == 0 ->
  ~ length_ / inject_Z (n_ovrlp + 1) == 0.
Proof.
  intros Hn Hlen H. apply Hlen.
  assert (Hz : ~ inject_Z (n_ovrlp + 1) == 0).
  { unfold Qeq; simpl. lia. }
  rewrite <- (Qmult_div_r length_ (inject_Z (n_ovrlp + 1))) by exact Hz.
  rewrite H. ring.
Qed.

(** X15.  A missing sample ([nan]) is in no window, has no contribution and
    comes back as exactly [0.0]. *)
Theorem lin_window_ovrlp_missing tf data length_ stopper n_ovrlp s :
  (2 <= length tf)%nat ->
  length data = length tf ->
  (n_ovrlp + 1 <> 0)%Z ->
  ~ length_ == 0 ->
  (s < length data)%nat ->
  nth s data None = None ->
  exists out,
    lin_window_ovrlp tf data length_ stopper n_ovrlp = Ok out /\
    nth s out 0 = 0.
Proof.
  intros Hx Hy Hn Hlen Hs Hnan.
  pose proof (nonzero_step _ _ Hn Hlen) as Hint.
  destruct (windows_Ok tf data length_ stopper _ Hx Hy Hint) as (idx & Hw & Hsurv).
  assert (Hnd : Forall (@NoDup nat) idx).
  { eapply Forall_impl; [|exact Hsurv]. intros i (_ & H & _). exact H. }
  destruct (accumulate_spec tf data idx Hnd
              (repeat 0 (length data)) (repeat 0 (length data)))
    as (yd & cnt & Hacc & Hl1 & Hl2 & Hspec).
  rewrite repeat_length in Hl1, Hl2.
  destruct (lin_window_ovrlp_quotient _ _ _ _ _ _ _ _ Hn Hw Hacc Hl1 Hl2)
    as (out & Hout & _ & Hnth).
  exists out. split; [exact Hout|].
  rewrite (Hnth s Hs).
  destruct (Hspec s) as [_ Hcnt]. rewrite repeat_length in Hcnt.
  specialize (Hcnt Hs). rewrite nth_repeat in Hcnt.
  rewrite (missing_not_covered data stopper idx s Hsurv) in Hcnt
    by (rewrite Hnan; reflexivity).
  assert (E : Qeq_bool (nth s cnt 0) 0 = true).
  { apply Qeq_bool_iff. rewrite Hcnt. reflexivity. }
  rewrite E. reflexivity.
Qed.

(** X16.  When the series holds fewer valid samples than [stopper], no window
    survives and the result is a vector of zeros of the length of the input,
    not an error. *)
Theorem lin_window_ovrlp_too_few tf data length_ stopper n_ovrlp :
  (2 <= length tf)%nat ->
  length data = length tf ->
  (n_ovrlp + 1 <> 0)%Z ->
  ~ length_ == 0 ->
  (Z.of_nat (length (filter (fun v => negb (isnan v)) data)) < stopper)%Z ->
  lin_window_ovrlp tf data length_ stopper n_ovrlp = Ok (repeat 0 (length data)).
Proof.
  intros Hx Hy Hn Hlen Hfew.
  pose proof (nonzero_step _ _ Hn Hlen) as Hint.
  destruct (windows_Ok tf data length_ stopper _ Hx Hy Hint) as (idx & Hw & Hsurv).
  assert (Hidx : idx = []).
  { destruct idx as [|i idx]; [reflexivity|]. exfalso.
    inversion Hsurv as [|? ? Hi _]; subst.
    pose proof (window_size _ _ _ Hi) as Hsz.
    destruct Hi as (Hst & _). lia. }
  subst idx.
  destruct (lin_window_ovrlp_quotient tf data length_ stopper n_ovrlp []
              (repeat 0 (length data)) (repeat 0 (length data)) Hn Hw eq_refl)
    as (out & Hout & Hl & Hnth); try apply repeat_length.
  rewrite Hout. f_equal.
  apply (nth_ext _ _ 0 0); [rewrite repeat_length; exact Hl|].
  intros s Hs. rewrite Hl in Hs. rewrite (Hnth s Hs), !nth_repeat. reflexivity.
Qed.

(** X17.  The argument errors of [lin_window_ovrlp]: [n_ovrlp = -1] divides
    by zero, whatever the series; otherwise a series of fewer than two
    samples raises [IndexError] when the window grid is laid out. *)
Theorem lin_window_ovrlp_argument_errors tf data length_ stopper n_ovrlp :
  (n_ovrlp = -1)%Z \/ (length tf <= 1)%nat ->
  lin_window_ovrlp tf data length_ stopper n_ovrlp
  = Raise (if (n_ovrlp =? -1)%Z then ZeroDivisionError else IndexError).
Proof.
  intros H. unfold lin_window_ovrlp.
  destruct (n_ovrlp =? -1)%Z eqn:E.
  - apply Z.eqb_eq in E. subst n_ovrlp. reflexivity.
  - apply Z.eqb_neq in E. destruct H as [H | H]; [contradiction|].
    destruct (n_ovrlp + 1 =? 0)%Z eqn:E1; [apply Z.eqb_eq in E1; lia|].
    unfold windows.
    destruct tf as [|t0 [|t1 tf']]; [reflexivity | reflexivity |].
    cbn [length] in H. lia.
Qed.

End Zeros.

(** ** The averages of [lin_window_ovrlp] *)




Section Average.

Context {L : SciLib} {LS : SciLibSpec L}.





End Average.

(** ** The time-domain estimators of the barometric efficiency *)

Lemma np_sign_spec (x : Q) :
  (x < 0 /\ np_sign x = (-1)%Z) \/ (x == 0 /\ np_sign x = 0%Z)
  \/ (0 < x /\ np_sign x = 1%Z).
Proof.
  unfold np_sign. destruct (Qcompare x 0) eqn:E.
  - right; left. split; [apply Qeq_alt; exact E | reflexivity].
  - left. split; [apply Qlt_alt; exact E | reflexivity].
  - right; right. split; [apply Qgt_alt; exact E | reflexivity].
Qed.

Lemma Qabs_nonneg_eq (x : Q) : 0 <= x -> Qabs x == x.
Proof. apply Qabs_pos. Qed.

Lemma Qabs_nonpos_eq (x : Q) : x <= 0 -> Qabs x == - x.
Proof. apply Qabs_neg. Qed.

Lemma Qeq_bool_false (x y : Q) : Qeq_bool x y = false -> ~ x == y.
Proof. intros H E. apply Qeq_bool_iff in E. congruence. Qed.

Lemma ratios_same_length (X Y : list Q) :
  length X = length Y ->
  ratios X Y = Ok (zipwith (fun y x => if Qeq_bool x 0 then 0 else y / x) Y X).
Proof. intro H. unfold ratios. rewrite H, Nat.eqb_refl. reflexivity. Qed.

Lemma zipwith_map_l {A B C} (op : A -> B -> C) (f : B -> A) (l : list B) :
  zipwith op (map f l) l = map (fun x => op (f x) x) l.
Proof. induction l as [|x l IH]; [reflexivity|]. cbn. rewrite IH. reflexivity. Qed.

Lemma zipwith_map_r {A B C} (op : A -> B -> C) (f : A -> B) (l : list A) :
  zipwith op l (map f l) = map (fun x => op x (f x)) l.
Proof. induction l as [|x l IH]; [reflexivity|]. cbn. rewrite IH. reflexivity. Qed.

Lemma np_sum_indicator (k : Q) (X : list Q) :
  np_sum (map (fun x => if Qeq_bool x 0 then 0 else k * x / x) X)
  == k * inject_Z (Z.of_nat (length (filter (fun x => negb (Qeq_bool x 0)) X))).
Proof.
  induction X as [|x X IH].
  - cbn. ring.
  - rewrite map_cons, np_sum_cons, IH. cbn [filter].
    destruct (Qeq_bool x 0) eqn:E; cbn [negb].
    + ring.
    + apply Qeq_bool_false in E. cbn [length].
      rewrite Nat2Z.inj_succ. unfold Z.succ. rewrite inject_Z_plus.
      change (inject_Z 1) with 1. field. exact E.
Qed.

(** X18.  [BE_average_of_ratios] counts a sample with zero pressure as a
    ratio of zero: for heads that are [k] times the pressures it returns [k]
    times the share of the samples with non-zero pressure, and so [k] only
    when no pressure sample is zero. *)
Theorem BE_average_of_ratios_proportional (k : Q) (X : list Q) :
  X <> [] ->
  exists q,
    BE_average_of_ratios X (map (fun x => k * x) X) = Ok (Fin q) /\
    q == k * inject_Z (Z.of_nat (length (filter (fun x => negb (Qeq_bool x 0)) X)))
         / inject_Z (Z.of_nat (length X)).
Proof.
  intro Hne. unfold BE_average_of_ratios.
  rewrite ratios_same_length by (rewrite length_map; reflexivity).
  cbn [rbind]. rewrite zipwith_map_l. unfold np_mean, np_divide.
  rewrite length_map.
  assert (Hn : ~ inject_Z (Z.of_nat (length X)) == 0).
  { destruct X; [congruence|]. unfold Qeq; cbn. lia. }
  destruct (Qeq_bool (inject_Z (Z.of_nat (length X))) 0) eqn:E;
    [apply Qeq_bool_iff in E; contradiction|].
  eexists. split; [reflexivity|].
  rewrite np_sum_indicator. reflexivity.
Qed.

Lemma insert_sorted_Forall (P : Q -> Prop) (x : Q) (a : list Q) :
  P x -> Forall P a -> Forall P (insert_sorted x a).
Proof.
  intros Hx Ha. induction Ha as [|y a Hy Ha IH]; cbn [insert_sorted].
  - constructor; [exact Hx | constructor].
  - destruct (Qle_bool x y); constructor; auto.
Qed.

Lemma insert_sorted_length (x : Q) (a : list Q) :
  length (insert_sorted x a) = S (length a).
Proof.
  induction a as [|y a IH]; [reflexivity|]. cbn [insert_sorted].
  destruct (Qle_bool x y); cbn [length]; [reflexivity | rewrite IH; reflexivity].
Qed.

Lemma np_sort_Forall (P : Q -> Prop) (a : list Q) :
  Forall P a -> Forall P (np_sort a).
Proof.
  intro H. induction H as [|x a Hx Ha IH]; [constructor|].
  cbn [np_sort fold_right]. apply insert_sorted_Forall; assumption.
Qed.

Lemma np_sort_length (a : list Q) : length (np_sort a) = length a.
Proof.
  induction a as [|x a IH]; [reflexivity|].
  cbn [np_sort fold_right length]. rewrite insert_sorted_length.
  f_equal. exact IH.
Qed.

Lemma Forall_nth_Q (P : Q -> Prop) (a : list Q) (i : nat) :
  Forall P a -> (i < length a)%nat -> P (nth i a 0).
Proof.
  intros H Hi. rewrite Forall_forall in H. apply H. apply nth_In. exact Hi.
Qed.

(** X19.  For heads that are [k] times the pressures, none of them zero,
    [BE_median_of_ratios] returns [k]. *)
Theorem BE_median_of_ratios_proportional (k : Q) (X : list Q) :
  X <> [] -> Forall (fun x => ~ x == 0) X ->
  exists q,
    BE_median_of_ratios X (map (fun x => k * x) X) = Ok (Fin q) /\ q == k.
Proof.
  intros Hne Hnz. unfold BE_median_of_ratios.
  rewrite ratios_same_length by (rewrite length_map; reflexivity).
  cbn [rbind]. rewrite zipwith_map_l.
  set (r := map _ X).
  assert (Hr : Forall (fun q => q == k) r).
  { subst r. apply Forall_map. eapply Forall_impl; [|exact Hnz].
    intros x Hx. cbv beta.
    destruct (Qeq_bool x 0) eqn:E; [apply Qeq_bool_iff in E; contradiction|].
    field. exact Hx. }
  assert (Hl : length r = length X) by (subst r; apply length_map).
  pose proof (np_sort_Forall _ _ Hr) as Hs.
  pose proof (np_sort_length r) as Hsl.
  unfold np_median. rewrite Hl.
  destruct (length X) as [|n] eqn:En; [destruct X; [congruence | discriminate]|].
  assert (Hdiv : (S n / 2 < S n)%nat) by (apply Nat.div_lt; lia).
  destruct (Nat.even (S n)).
  - eexists. split; [reflexivity|].
    rewrite (Forall_nth_Q _ _ (S n / 2 - 1) Hs) by lia.
    rewrite (Forall_nth_Q _ _ (S n / 2) Hs) by lia.
    field.
  - eexists. split; [reflexivity|].
    apply (Forall_nth_Q _ _ (S n / 2) Hs). lia.
Qed.

(** The running sums of [BE_Clark]. *)
Lemma clark_from_lengths (sx sy : Q) (X Y : list Q) :
  length (fst (clark_from sx sy X Y)) = Nat.min (length X) (length Y) /\
  length (snd (clark_from sx sy X Y)) = Nat.min (length X) (length Y).
Proof.
  revert sx sy Y. induction X as [|x X IH]; intros sx sy [|y Y];
    try (split; reflexivity).
  cbn [clark_from].
  match goal with
  | |- context [clark_from ?a ?b X Y] =>
      specialize (IH a b Y); destruct (clark_from a b X Y) as [p q]
  end.
  cbn [fst snd length] in *. lia.
Qed.

Lemma clark_from_proportional (k sx sy : Q) (X : list Q) :
  sy == k * sx ->
  Forall2 (fun a b => b == k * a)
          (fst (clark_from sx sy X (map (fun x => k * x) X)))
          (snd (clark_from sx sy X (map (fun x => k * x) X))).
Proof.
  revert sx sy. induction X as [|x X IH]; intros sx sy H; [constructor|].
  cbn [map clark_from].
  set (sx' := sx + Qabs x).
  set (sy' := if Qeq_bool x 0 then sy
              else if (np_sign (k * x) =? np_sign x)%Z then sy + Qabs (k * x)
              else sy - Qabs (k * x)).
  assert (H' : sy' == k * sx').
  { subst sx' sy'.
    destruct (Qeq_bool x 0) eqn:E.
    - apply Qeq_bool_iff in E. rewrite E. change (Qabs 0) with 0. rewrite H. ring.
    - apply Qeq_bool_false in E.
      destruct (np_sign_spec x) as [[Hx Sx] | [[Hx Sx] | [Hx Sx]]];
        [| contradiction |];
        destruct (np_sign_spec (k * x)) as [[Hk Sk] | [[Hk Sk] | [Hk Sk]]];
        rewrite Sx, Sk; cbn [Z.eqb Pos.eqb]; rewrite Qabs_Qmult;
        rewrite ?(Qabs_nonpos_eq x) by lra; rewrite ?(Qabs_nonneg_eq x) by lra.
      + assert (0 <= k) by nra. rewrite (Qabs_nonneg_eq k) by assumption.
        rewrite H. ring.
      + assert (Hk0 : k == 0) by nra. rewrite H, Hk0. change (Qabs 0) with 0. ring.
      + assert (k <= 0) by nra. rewrite (Qabs_nonpos_eq k) by assumption.
        rewrite H. ring.
      + assert (k <= 0) by nra. rewrite (Qabs_nonpos_eq k) by assumption.
        rewrite H. ring.
      + assert (Hk0 : k == 0) by nra. rewrite H, Hk0. change (Qabs 0) with 0. ring.
      + assert (0 <= k) by nra. rewrite (Qabs_nonneg_eq k) by assumption.
        rewrite H. ring. }
  specialize (IH sx' sy' H').
  destruct (clark_from sx' sy' X (map (fun x0 => k * x0) X)) as [p q].
  cbn [fst snd] in *. constructor; assumption.
Qed.

(** X20.  [BE_Clark] regresses two running sums that have one entry more
    than the shorter input and start at zero; for heads that are [k] times
    the pressures the head sum is [k] times the pressure sum at every step,
    for a positive, a zero and a negative [k]. *)
Theorem BE_Clark_sums (slope : list Q -> list Q -> result xfloat) (X Y : list Q) :
  exists sX sY,
    BE_Clark slope X Y = slope sX sY /\
    length sX = S (Nat.min (length X) (length Y)) /\
    length sY = S (Nat.min (length X) (length Y)) /\
    nth 0 sX 0 = 0 /\ nth 0 sY 0 = 0 /\
    forall k, Y = map (fun x => k * x) X -> Forall2 (fun a b => b == k * a) sX sY.
Proof.
  unfold BE_Clark, clark_sums.
  pose proof (clark_from_lengths 0 0 X Y) as [H1 H2].
  assert (H3 : forall k, Y = map (fun x => k * x) X ->
                         Forall2 (fun a b => b == k * a)
                                 (fst (clark_from 0 0 X Y)) (snd (clark_from 0 0 X Y))).
  { intros k ->. apply clark_from_proportional. ring. }
  destruct (clark_from 0 0 X Y) as [p q].
  cbn [fst snd] in *.
  exists (0 :: p), (0 :: q). cbn [length nth].
  split; [reflexivity|]. split; [congruence|]. split; [congruence|].
  split; [reflexivity|]. split; [reflexivity|].
  intros k Hk. constructor; [ring | exact (H3 k Hk)].
Qed.


(** The sum [Sclk_dW] of [BE_Davis_and_Rasmussen]. *)
Lemma clark_sum_short (dW dB : list Q) (acc : Q) :
  (length dB < length dW)%nat -> clark_sum dW dB acc = Raise IndexError.
Proof.
  revert dB acc. induction dW as [|w dW IH]; intros [|b dB] acc H;
    cbn [length] in H; try lia; cbn [clark_sum]; [reflexivity|].
  apply IH. lia.
Qed.

Lemma clark_sum_signed (s : Q) (dW dB : list Q) (acc : Q) :
  length dW = length dB ->
  (s == 1 \/ s == -1) ->
  Forall (fun b => 0 < s * b) dB ->
  exists v, clark_sum dW dB acc = Ok v /\ v == acc + s * np_sum dW.
Proof.
  intros Hl Hs. revert dB acc Hl. induction dW as [|w dW IH]; intros [|b dB] acc Hl Hb;
    cbn [length] in Hl; try lia; cbn [clark_sum].
  - exists acc. split; [reflexivity|]. cbn. ring.
  - inversion Hb as [|? ? Hb0 Hb']; subst.
    destruct (IH dB (if (np_sign w =? np_sign b)%Z then acc + Qabs w
                     else acc - Qabs w)) as (v & Ev & Hv); [lia | exact Hb' |].
    exists v. split; [exact Ev|]. rewrite Hv, np_sum_cons.
    destruct (np_sign_spec w) as [[Hw Sw] | [[Hw Sw] | [Hw Sw]]];
      destruct (np_sign_spec b) as [[Hbs Sb] | [[Hbs Sb] | [Hbs Sb]]];
      rewrite Sw, Sb; cbn [Z.eqb Pos.eqb];
      rewrite ?(Qabs_nonpos_eq w) by lra; rewrite ?(Qabs_nonneg_eq w) by lra;
      destruct Hs as [Hs | Hs]; rewrite Hs in Hb0 |- *; try lra.
Qed.

Lemma np_sum_signed (s : Q) (dB : list Q) :
  (s == 1 \/ s == -1) ->
  Forall (fun b => 0 < s * b) dB ->
  np_sum (map Qabs dB) == s * np_sum dB /\
  (dB <> [] -> 0 < np_sum (map Qabs dB)).
Proof.
  intros Hs H. induction H as [|b dB Hb _ IH].
  - split; [cbn; ring | congruence].
  - destruct IH as [IH1 IH2]. rewrite map_cons, !np_sum_cons.
    assert (Hab : Qabs b == s * b).
    { destruct Hs as [Hs | Hs]; rewrite Hs in Hb |- *.
      - rewrite Qabs_nonneg_eq by lra. ring.
      - rewrite Qabs_nonpos_eq by lra. ring. }
    split; [rewrite Hab, IH1; ring|].
    intros _. rewrite Hab.
    destruct dB as [|b' dB']; [cbn; lra|].
    assert (0 < np_sum (map Qabs (b' :: dB'))) by (apply IH2; congruence).
    lra.
Qed.

Lemma count_signed (s : Q) (dB : list Q) :
  (s == 1 \/ s == -1) ->
  Forall (fun b => 0 < s * b) dB ->
  inject_Z (Z.of_nat (length (filter (fun b => Qlt_bool 0 b) dB))
            - Z.of_nat (length (filter (fun b => Qlt_bool b 0) dB)))
  == s * inject_Z (Z.of_nat (length dB)).
Proof.
  intros Hs H. induction H as [|b dB Hb _ IH].
  - cbn. ring.
  - cbn [filter length].
    assert (Hc : (Qlt_bool 0 b = true /\ Qlt_bool b 0 = false /\ s == 1)
                 \/ (Qlt_bool 0 b = false /\ Qlt_bool b 0 = true /\ s == -1)).
    { unfold Qlt_bool.
      destruct Hs as [Hs | Hs]; rewrite Hs in Hb; [left | right];
        (split; [|split; [|exact Hs]]).
      - apply negb_true_iff. destruct (Qle_bool b 0) eqn:E; [|reflexivity].
        apply Qle_bool_iff in E. lra.
      - apply negb_false_iff. apply Qle_bool_iff. lra.
      - apply negb_false_iff. apply Qle_bool_iff. lra.
      - apply negb_true_iff. destruct (Qle_bool 0 b) eqn:E; [|reflexivity].
        apply Qle_bool_iff in E. lra. }
    destruct Hc as [(-> & -> & Hs1) | (-> & -> & Hs1)]; cbn [length];
      rewrite !Nat2Z.inj_succ; unfold Z.succ.
    + replace (Z.of_nat (length (filter (fun b0 => Qlt_bool 0 b0) dB)) + 1
               - Z.of_nat (length (filter (fun b0 => Qlt_bool b0 0) dB)))%Z
        with ((Z.of_nat (length (filter (fun b0 => Qlt_bool 0 b0) dB))
               - Z.of_nat (length (filter (fun b0 => Qlt_bool b0 0) dB))) + 1)%Z by lia.
      rewrite !inject_Z_plus, IH. change (inject_Z 1) with 1. rewrite Hs1. ring.
    + replace (Z.of_nat (length (filter (fun b0 => Qlt_bool 0 b0) dB))
               - (Z.of_nat (length (filter (fun b0 => Qlt_bool b0 0) dB)) + 1))%Z
        with ((Z.of_nat (length (filter (fun b0 => Qlt_bool 0 b0) dB))
               - Z.of_nat (length (filter (fun b0 => Qlt_bool b0 0) dB))) + (-1))%Z by lia.
      rewrite !inject_Z_plus, IH. change (inject_Z (-1)) with (-1). rewrite Hs1. ring.
Qed.

Lemma BE_Davis_and_Rasmussen_signed (X Y : list Q) (s : Q) :
  (2 <= length X)%nat -> length Y = length X ->
  (s == 1 \/ s == -1) ->
  Forall (fun d => 0 < s * d) (np_diff X) ->
  BE_Davis_and_Rasmussen X Y = Ok NaN.
Proof.
  intros Hlen HY Hs Hmono.
  set (s' := - s).
  assert (Hs' : s' == 1 \/ s' == -1).
  { subst s'. destruct Hs as [Hs | Hs]; rewrite Hs; [right | left]; reflexivity. }
  assert (HdB : Forall (fun b => 0 < s' * b) (map Qopp (np_diff X))).
  { apply Forall_map. eapply Forall_impl; [|exact Hmono].
    intros d Hd. subst s'. cbv beta in *.
    assert (E : - s * - d == s * d) by ring. rewrite E. exact Hd. }
  assert (HlB : length (map Qopp (np_diff X)) = (length X - 1)%nat)
    by (rewrite length_map; apply np_diff_length).
  assert (HlW : length (np_diff Y) = length (map Qopp (np_diff X)))
    by (rewrite HlB, np_diff_length, HY; reflexivity).
  destruct (clark_sum_signed s' (np_diff Y) _ 0 HlW Hs' HdB) as (v & Ev & Hv).
  destruct (np_sum_signed s' _ Hs' HdB) as [Habs Hpos].
  pose proof (count_signed s' _ Hs' HdB) as Hj.
  assert (Hne : map Qopp (np_diff X) <> []).
  { intro E. rewrite E in HlB. cbn [length] in HlB. lia. }
  specialize (Hpos Hne).
  unfold BE_Davis_and_Rasmussen.
  rewrite Ev. cbn [rbind].
  destruct (length (map Qopp (np_diff X)) =? 0)%nat eqn:En;
    [apply Nat.eqb_eq in En; lia|].
  apply Nat.eqb_neq in En.
  destruct (Qeq_bool (np_sum (map Qabs (map Qopp (np_diff X)))) 0) eqn:E0;
    [reflexivity|].
  apply Qeq_bool_false in E0.
  set (n := inject_Z (Z.of_nat (length (map Qopp (np_diff X))))) in *.
  assert (Hn : ~ n == 0).
  { subst n. unfold Qeq; cbn. lia. }
  set (Sabs := np_sum (map Qabs (map Qopp (np_diff X)))) in *.
  set (SdB := np_sum (map Qopp (np_diff X))) in *.
  set (SdW := np_sum (np_diff Y)) in *.
  match goal with
  | |- context [inject_Z ?z / n] => set (j := inject_Z z) in *
  end.
  assert (Hjn : j / n == s').
  { rewrite Hj. field. exact Hn. }
  assert (Hden : 1 - j / n * SdB / Sabs == 0).
  { rewrite Hjn, <- Habs. field. exact E0. }
  assert (Hnum : v / Sabs - j / n * SdW / Sabs == 0).
  { rewrite Hjn, Hv. field. exact E0. }
  unfold np_divide.
  assert (Ed : Qeq_bool (1 - j / n * SdB / Sabs) 0 = true)
    by (apply Qeq_bool_iff; exact Hden).
  assert (Eu : Qeq_bool (v / Sabs - j / n * SdW / Sabs) 0 = true)
    by (apply Qeq_bool_iff; exact Hnum).
  rewrite Ed, Eu. reflexivity.
Qed.

(** X21.  On a strictly monotone pressure series
    [BE_Davis_and_Rasmussen] returns no finite number, whatever the heads
    are: the denominator [1 - cSden/cSabs_dB] is zero.  (In exact arithmetic
    the numerator is zero as well and the quotient is [nan]; rounding can
    leave a numerator that is not zero, and then the quotient is infinite.) *)
Theorem BE_Davis_and_Rasmussen_monotone (X Y : list Q) :
  (2 <= length X)%nat -> length Y = length X ->
  Forall (fun d => 0 < d) (np_diff X) \/ Forall (fun d => d < 0) (np_diff X) ->
  exists e, BE_Davis_and_Rasmussen X Y = Ok e /\ forall q, e <> Fin q.
Proof.
  intros Hlen HY H. exists NaN. split; [|discriminate].
  destruct H as [H | H].
  - apply (BE_Davis_and_Rasmussen_signed X Y 1 Hlen HY);
      [left; reflexivity|].
    eapply Forall_impl; [|exact H]. intros d Hd. cbv beta in *. lra.
  - apply (BE_Davis_and_Rasmussen_signed X Y (-1) Hlen HY);
      [right; reflexivity|].
    eapply Forall_impl; [|exact H]. intros d Hd. cbv beta in *. lra.
Qed.

(** X22.  With fewer than two pressure samples [BE_Davis_and_Rasmussen]
    has no pressure change to work on: it raises [IndexError] at [dB[0]] when
    there is a head change, and [ZeroDivisionError] at
    [float(j)/float(n)] when there is none. *)
Theorem BE_Davis_and_Rasmussen_short (X Y : list Q) :
  (length X <= 1)%nat ->
  BE_Davis_and_Rasmussen X Y
  = Raise (if (length Y <=? 1)%nat then ZeroDivisionError else IndexError).
Proof.
  intro H.
  assert (E : np_diff X = []).
  { destruct X as [|x [|x' X']]; [reflexivity | reflexivity |].
    cbn [length] in H. lia. }
  unfold BE_Davis_and_Rasmussen. rewrite E. cbn [map].
  destruct (length Y <=? 1)%nat eqn:EY.
  - apply Nat.leb_le in EY.
    assert (EW : np_diff Y = []).
    { destruct Y as [|y [|y' Y']]; [reflexivity | reflexivity |].
      cbn [length] in EY. lia. }
    rewrite EW. reflexivity.
  - apply Nat.leb_gt in EY.
    rewrite clark_sum_short; [reflexivity|].
    rewrite np_diff_length. cbn [length]. lia.
Qed.

Lemma np_diff_affine (c k : Q) (X : list Q) :
  Forall2 (fun w b => w == k * b)
          (np_diff (map (fun x => c - k * x) X)) (map Qopp (np_diff X)).
Proof.
  induction X as [|x [|x' X'] IH]; [constructor | constructor |].
  change (np_diff (map (fun x0 => c - k * x0) (x :: x' :: X')))
    with ((c - k * x' - (c - k * x))
          :: np_diff (map (fun x0 => c - k * x0) (x' :: X'))).
  change (np_diff (x :: x' :: X')) with ((x' - x) :: np_diff (x' :: X')).
  cbn [map] in *. constructor; [ring | exact IH].
Qed.

Lemma clark_sum_proportional (k : Q) (dW dB : list Q) (acc : Q) :
  Forall2 (fun w b => w == k * b) dW dB ->
  exists v, clark_sum dW dB acc = Ok v /\ v == acc + k * np_sum (map Qabs dB).
Proof.
  intro H. revert acc. induction H as [|w b dW dB Hwb _ IH]; intro acc.
  - exists acc. split; [reflexivity|]. cbn. ring.
  - cbn [clark_sum].
    destruct (IH (if (np_sign w =? np_sign b)%Z then acc + Qabs w
                  else acc - Qabs w)) as (v & Ev & Hv).
    exists v. split; [exact Ev|]. rewrite Hv, map_cons, np_sum_cons.
    assert (Hstep : (if (np_sign w =? np_sign b)%Z then acc + Qabs w
                     else acc - Qabs w) == acc + k * Qabs b).
    { destruct (np_sign_spec w) as [[Hw Sw] | [[Hw Sw] | [Hw Sw]]];
        destruct (np_sign_spec b) as [[Hb Sb] | [[Hb Sb] | [Hb Sb]]];
        rewrite Sw, Sb; cbn [Z.eqb Pos.eqb];
        rewrite ?(Qabs_nonpos_eq w) by lra; rewrite ?(Qabs_nonneg_eq w) by lra;
        rewrite ?(Qabs_nonpos_eq b) by lra; rewrite ?(Qabs_nonneg_eq b) by lra;
        try (assert (Hkb : k * b == 0) by (rewrite Hb; ring));
        assert (Hm : k * - b == - (k * b)) by ring; lra. }
    rewrite Hstep. ring.
Qed.

Lemma np_sum_proportional (k : Q) (l l' : list Q) :
  Forall2 (fun w b => w == k * b) l l' -> np_sum l == k * np_sum l'.
Proof.
  intro H. induction H as [|w b l l' Hwb _ IH]; [cbn; ring|].
  rewrite !np_sum_cons, IH, Hwb. ring.
Qed.

(** X23.  For heads that fall by [k] times every rise of the pressure,
    [BE_Davis_and_Rasmussen] returns [k], provided the pressure changes at
    all and the denominator [1 - cSden/cSabs_dB] is not zero. *)
Theorem BE_Davis_and_Rasmussen_proportional (c k : Q) (X : list Q) :
  let dB := map Qopp (np_diff X) in
  let j := (Z.of_nat (length (filter (fun b => Qlt_bool 0 b) dB))
            - Z.of_nat (length (filter (fun b => Qlt_bool b 0) dB)))%Z in
  let jn := inject_Z j / inject_Z (Z.of_nat (length dB)) in
  ~ np_sum (map Qabs dB) == 0 ->
  ~ jn * np_sum dB == np_sum (map Qabs dB) ->
  exists q,
    BE_Davis_and_Rasmussen X (map (fun x => c - k * x) X) = Ok (Fin q) /\ q == k.
Proof.
  intros dB j jn Habs Hden.
  destruct (clark_sum_proportional k _ _ 0 (np_diff_affine c k X)) as (v & Ev & Hv).
  fold dB in Ev, Hv.
  unfold BE_Davis_and_Rasmussen. fold dB. rewrite Ev. cbn [rbind].
  assert (Hne : dB <> []).
  { intro E. apply Habs. rewrite E. reflexivity. }
  destruct (length dB =? 0)%nat eqn:En.
  { apply Nat.eqb_eq in En. destruct dB; [congruence | discriminate]. }
  destruct (Qeq_bool (np_sum (map Qabs dB)) 0) eqn:E0;
    [apply Qeq_bool_iff in E0; contradiction|].
  fold j. fold jn.
  assert (HW : np_sum (np_diff (map (fun x => c - k * x) X)) == k * np_sum dB).
  { exact (np_sum_proportional k _ _ (np_diff_affine c k X)). }
  set (Sabs := np_sum (map Qabs dB)) in *.
  set (SdB := np_sum dB) in *.
  set (SdW := np_sum (np_diff (map (fun x => c - k * x) X))) in *.
  assert (HD : ~ 1 - jn * SdB / Sabs == 0).
  { intro H. apply Hden.
    assert (E : jn * SdB == (1 - (1 - jn * SdB / Sabs)) * Sabs) by (field; exact Habs).
    rewrite E, H. ring. }
  unfold np_divide.
  destruct (Qeq_bool (1 - jn * SdB / Sabs) 0) eqn:ED;
    [apply Qeq_bool_iff in ED; contradiction|].
  eexists. split; [reflexivity|].
  rewrite Hv, HW. clearbody jn Sabs SdB. field.
  split; [exact Habs | intro H; apply Hden; lra].
Qed.

(** The running sums of [BE_Rahi]. *)
Lemma rahi_sums_bounds (sx sy : Q) (X Y : list Q) :
  (sx == 0 /\ sy == 0) \/ (0 <= sy /\ sy < sx) ->
  let r := rahi_sums sx sy X Y in
  (fst r == 0 /\ snd r == 0) \/ (0 <= snd r /\ snd r < fst r).
Proof.
  revert sx sy Y. induction X as [|x X IH]; intros sx sy [|y Y] H;
    try exact H.
  cbn [rahi_sums].
  destruct ((np_sign y =? np_sign x)%Z && Qlt_bool (Qabs y) (Qabs x)) eqn:E.
  - apply IH. right.
    apply andb_true_iff in E as [_ E]. unfold Qlt_bool in E.
    apply negb_true_iff in E.
    assert (Hlt : Qabs y < Qabs x).
    { destruct (Qlt_le_dec (Qabs y) (Qabs x)) as [Hl | Hl]; [exact Hl|].
      apply Qle_bool_iff in Hl. congruence. }
    pose proof (Qabs_nonneg y). 
    destruct H as [[H1 H2] | [H1 H2]]; split; lra.
  - apply IH. exact H.
Qed.

(** X24.  Every entry of the array that [BE_Rahi] returns is [nan] or lies
    between 0 and 1: the sums only take samples whose head change is smaller
    than the pressure change, so the head sum never exceeds the pressure
    sum, and an entry whose pressure is zero is zero. *)
Theorem BE_Rahi_range (X Y : list Q) (r : list xfloat) :
  BE_Rahi X Y = Ok r ->
  Forall (fun e => e = NaN \/ exists q, e = Fin q /\ 0 <= q /\ q <= 1) r.
Proof.
  unfold BE_Rahi.
  assert (H0 : (0 == 0 /\ 0 == 0) \/ (0 <= 0 /\ 0 < 0)) by (left; split; reflexivity).
  pose proof (rahi_sums_bounds 0 0 X Y H0) as Hb. cbv zeta in Hb.
  destruct (rahi_sums 0 0 X Y) as [sx sy]. cbn [fst snd] in Hb.
  assert (Hq : forall x : Q,
             let e := if Qeq_bool x 0 then Fin 0 else np_divide sy sx in
             e = NaN \/ exists q, e = Fin q /\ 0 <= q /\ q <= 1).
  { intro x. cbv zeta. destruct (Qeq_bool x 0).
    - right. exists 0. split; [reflexivity|]. split; lra.
    - unfold np_divide. destruct Hb as [[Hx Hy] | [Hy Hx]].
      + apply Qeq_bool_iff in Hx, Hy. rewrite Hx, Hy. left. reflexivity.
      + destruct (Qeq_bool sx 0) eqn:E; [apply Qeq_bool_iff in E; lra|].
        right. exists (sy / sx). split; [reflexivity|].
        assert (Hpos : 0 < sx) by lra.
        split.
        * apply Qle_shift_div_l; [exact Hpos | lra].
        * apply Qle_shift_div_r; [exact Hpos | lra]. }
  destruct (length X =? length Y)%nat.
  - intro H. injection H as <-. apply Forall_map, Forall_forall. intros x _. apply Hq.
  - destruct X as [|x [|x' X']]; try discriminate.
    intro H. injection H as <-. apply Forall_map, Forall_forall. intros y _. apply Hq.
Qed.


(** ** The statements on example series *)

Lemma line_lib_spec : SciLibSpec line_lib.
Proof.
  constructor.
  - exact (lstsq_shape (SciLibSpec := ref_lib_spec)).
  - exact (lstsq_residuals_empty (SciLibSpec := ref_lib_spec)).
  - intros Z x y p0 c covar. cbn [curve_fit line_lib]. unfold line_curve_fit.
    destruct (cols Z) as [|ones [|xs [|z rest]]]; try discriminate.
    destruct (vec_eqb ones (repeat 1 (length xs)) && (length p0 =? 2)%nat
              && (length y =? length xs)%nat) eqn:E; [|discriminate].
    apply andb_true_iff in E as [E _]. apply andb_true_iff in E as [_ E].
    apply Nat.eqb_eq in E. unfold line_fit.
    destruct (Qeq_bool _ 0 || (length xs <=? 2)%nat); [discriminate|].
    intro H. injection H as <- <-. rewrite E.
    repeat split; repeat constructor.
Qed.

(** The default call on the example series returns, and its fit is the
    least-squares fit of its design. *)
Example run_baro_Ok :
  run_baro = (Ok (corrected_of run_baro, params_of run_baro), []) /\
  exists c covar,
    let Z := design 5 {| shape0 := 5; cols := [[-1; -2; 1; 0; -3]] |} in
    line_curve_fit Z tf_baro [1; -1; 2; -1; 3] (start_values Z) = Ok (c, covar) /\
    is_least_squares_fit Z [1; -1; 2; -1; 3] c covar = true /\
    irf (brf (params_of run_baro)) = slice c 1 2.
Proof.
  split; [vm_compute; reflexivity|].
  eexists. eexists. cbv zeta.
  split; [vm_compute; reflexivity|].
  split; vm_compute; reflexivity.
Qed.

Ltac forall_eval := repeat (constructor; try (vm_compute; reflexivity)).

Lemma regress_deconv_short_witness :
  regress_deconv (L := ref_lib) [3] [1] [1] None 24 None None
  = (Raise ValueError, []).
Proof.
  apply (regress_deconv_short (L := ref_lib) [3] [1] [1] None 24 None None).
  cbn [length]. lia.
Defined.

Lemma regress_deconv_unknown_method_witness :
  regress_deconv (L := ref_lib) tf_ts GW_ts BP_ts (Some ET_ts) 24 None None
  = (Raise (Exception "Error: Please only use available Earth tide methods!"), []).
Proof.
  apply (regress_deconv_unknown_method (L := ref_lib) tf_ts GW_ts BP_ts
           (Some ET_ts) 24 None None 1).
  - forall_eval.
  - cbn [length tf_ts]. lia.
  - reflexivity.
  - left. discriminate.
  - discriminate.
  - discriminate.
Defined.

Lemma regress_deconv_ts_tides_witness :
  regress_deconv (L := ref_lib) tf_ts GW_ts BP_ts None 24 (Some "ts"%string) None
  = (Raise (Exception "Error: Please input valid Earth tide data!"), []) /\
  regress_deconv (L := ref_lib) tf_ts GW_ts BP_ts (Some [0; 1]) 24
                 (Some "ts"%string) None
  = (Raise (Exception "Error: Earth tide data must have the same length!"), []).
Proof.
  assert (H1 : Forall (fun x => x == 1) (np_diff tf_ts)) by forall_eval.
  assert (H2 : (2 <= length tf_ts)%nat) by (cbn [length tf_ts]; lia).
  destruct (regress_deconv_ts_tides (L := ref_lib) tf_ts GW_ts BP_ts 24 None 1
              H1 H2 eq_refl) as [Hnone Hsome].
  split; [exact Hnone|].
  apply Hsome. cbn [length tf_ts]. lia.
Defined.

Lemma regress_deconv_zero_interval_witness :
  regress_deconv (L := ref_lib) [1; 1; 1] [5; 6; 7] [1; 2; 3] None 24 None None
  = (Raise OverflowError, []).
Proof.
  apply (regress_deconv_zero_interval (L := ref_lib) [1; 1; 1] [5; 6; 7]
           [1; 2; 3] None 24 None None).
  - forall_eval.
  - cbn [length]. lia.
  - reflexivity.
  - right. split; reflexivity.
Defined.


Lemma regress_deconv_default_barometric_witness :
  erf (params_of run_baro) = None /\
  exists dt spd v,
    sampling tf_baro = Ok (dt, spd) /\
    lag_matrix (length (deriv dt BP_baro)) (Z.to_nat (lag_count 0 spd))
               (map Qopp (deriv dt BP_baro)) = Ok v /\
    recentre GW_baro (barometric_correction dt v (irf (brf (params_of run_baro))))
    = Ok (corrected_of run_baro).
Proof.
  apply (regress_deconv_default_barometric (L := line_lib) (LS := line_lib_spec)
           tf_baro GW_baro BP_baro 0 None
           (corrected_of run_baro) (params_of run_baro) []).
  vm_compute. reflexivity.
Defined.

Lemma harmonic_model_signal_witness :
  length (y_model (result_of run_harmonic)) = 4%nat /\
  forall k, (k < 4)%nat ->
    nth k (y_model (result_of run_harmonic)) 0
    == offset (result_of run_harmonic)
       + np_sum (map (fun j =>
                        let c := nth j (complex (result_of run_harmonic)) (Cplx 0 0) in
                        let tau := nth j [1] 0 * 2 * np_pi
                                   * (nth k [0; 1 # 4; 1 # 2; 3 # 4] 0
                                      - inject_Z (Qfloor (nth 0 [0; 1 # 4; 1 # 2; 3 # 4] 0))) in
                        im c * ref_cos tau + re c * ref_sin tau)
                     (seq 0 1)).
Proof.
  apply (harmonic_model_signal (L := ref_lib) (LS := ref_lib_spec)
           [0; 1 # 4; 1 # 2; 3 # 4] [8; 7; 2; 3] [1]
           (result_of run_harmonic) []).
  - reflexivity.
  - vm_compute. reflexivity.
Defined.

Lemma harmonic_lsqr_layout_errors_witness :
  harmonic_lsqr (L := ref_lib) [] [1; 2; 3] [1] = (Raise IndexError, []) /\
  harmonic_lsqr (L := ref_lib) [0; 1] [1; 2; 3] [1] = (Raise ValueError, []).
Proof.
  destruct (harmonic_lsqr_layout_errors (L := ref_lib) [1; 2; 3] [1]) as [H0 H1].
  split; [exact H0|].
  apply H1.
  - discriminate.
  - cbn [length]. lia.
  - cbn [length]. lia.
  - discriminate.
Defined.

Lemma lin_window_ovrlp_missing_witness :
  exists out,
    lin_window_ovrlp (L := ref_lib) [0; 1; 2; 3; 4; 5; 6; 7]
      [Some 1; Some 3; Some 5; None; Some 9; Some 11; Some 13; Some 15] 3 3 3
    = Ok out /\
    nth 3 out 0 = 0.
Proof.
  apply (lin_window_ovrlp_missing (L := ref_lib) (LS := ref_lib_spec)
           [0; 1; 2; 3; 4; 5; 6; 7]
           [Some 1; Some 3; Some 5; None; Some 9; Some 11; Some 13; Some 15]
           3 3 3 3).
  - cbn [length]. lia.
  - reflexivity.
  - lia.
  - intro H. vm_compute in H. discriminate.
  - cbn [length]. lia.
  - reflexivity.
Defined.

Lemma lin_window_ovrlp_too_few_witness :
  lin_window_ovrlp (L := ref_lib) [0; 1; 2; 3] [Some 1; None; Some 5; None] 3 3 3
  = Ok (repeat 0 4).
Proof.
  apply (lin_window_ovrlp_too_few (L := ref_lib)
           [0; 1; 2; 3] [Some 1; None; Some 5; None] 3 3 3).
  - cbn [length]. lia.
  - reflexivity.
  - lia.
  - intro H. vm_compute in H. discriminate.
  - cbn. lia.
Defined.

Lemma lin_window_ovrlp_argument_errors_witness :
  lin_window_ovrlp (L := ref_lib) [0; 1; 2] [Some 1; Some 2; Some 3] 3 3 (-1)
  = Raise ZeroDivisionError /\
  lin_window_ovrlp (L := ref_lib) [0] [Some 1] 3 3 3 = Raise IndexError.
Proof.
  split.
  - apply (lin_window_ovrlp_argument_errors (L := ref_lib) [0; 1; 2]
             [Some 1; Some 2; Some 3] 3 3 (-1)).
    left. reflexivity.
  - apply (lin_window_ovrlp_argument_errors (L := ref_lib) [0] [Some 1] 3 3 3).
    right. cbn [length]. lia.
Defined.

Lemma BE_average_of_ratios_proportional_witness :
  exists q,
    BE_average_of_ratios [2; 0; 4; 1] (map (fun x => (1 # 2) * x) [2; 0; 4; 1])
    = Ok (Fin q) /\
    q == (1 # 2) * inject_Z (Z.of_nat (length (filter (fun x => negb (Qeq_bool x 0))
                                                     [2; 0; 4; 1])))
         / inject_Z (Z.of_nat (length [2; 0; 4; 1])).
Proof.
  apply (BE_average_of_ratios_proportional (1 # 2) [2; 0; 4; 1]).
  discriminate.
Defined.

Lemma BE_median_of_ratios_proportional_witness :
  exists q,
    BE_median_of_ratios [2; -3; 4; 1] (map (fun x => (1 # 2) * x) [2; -3; 4; 1])
    = Ok (Fin q) /\ q == 1 # 2.
Proof.
  apply (BE_median_of_ratios_proportional (1 # 2) [2; -3; 4; 1]).
  - discriminate.
  - repeat (constructor; [intro H; vm_compute in H; discriminate|]). constructor.
Defined.

Lemma BE_Davis_and_Rasmussen_monotone_witness :
  exists e, BE_Davis_and_Rasmussen [1; 2; 4; 7] [5; 3; 4; 1] = Ok e
            /\ forall q, e <> Fin q.
Proof.
  apply (BE_Davis_and_Rasmussen_monotone [1; 2; 4; 7] [5; 3; 4; 1]).
  - cbn [length]. lia.
  - reflexivity.
  - left. forall_eval.
Defined.

Lemma BE_Davis_and_Rasmussen_short_witness :
  BE_Davis_and_Rasmussen [1] [5; 3] = Raise IndexError /\
  BE_Davis_and_Rasmussen [1] [5] = Raise ZeroDivisionError.
Proof.
  split.
  - apply (BE_Davis_and_Rasmussen_short [1] [5; 3]). cbn [length]. lia.
  - apply (BE_Davis_and_Rasmussen_short [1] [5]). cbn [length]. lia.
Defined.

Lemma BE_Davis_and_Rasmussen_proportional_witness :
  exists q,
    BE_Davis_and_Rasmussen [0; 1; 0; 2] (map (fun x => 10 - (1 # 2) * x) [0; 1; 0; 2])
    = Ok (Fin q) /\ q == 1 # 2.
Proof.
  apply (BE_Davis_and_Rasmussen_proportional 10 (1 # 2) [0; 1; 0; 2]).
  - intro H. vm_compute in H. discriminate.
  - intro H. vm_compute in H. discriminate.
Defined.

Lemma BE_Rahi_range_witness :
  Forall (fun e => e = NaN \/ exists q, e = Fin q /\ 0 <= q /\ q <= 1)
         [Fin (3 # 6); Fin 0; Fin (3 # 6); Fin (3 # 6)].
Proof.
  apply (BE_Rahi_range [2; 0; -4; 1] [1; 3; -2; 5]).
  vm_compute. reflexivity.
Defined.


Lemma regress_deconv_length_error_witness :
  regress_deconv (L := ref_lib) tf_ts [1; 2; 3] [1; 2; 3; 4] None 24 None None
  = (Raise (Exception "Error: All input arrays must have the same length!"), []).
Proof.
  apply (regress_deconv_length_error (L := ref_lib) tf_ts [1; 2; 3] [1; 2; 3; 4]
           None 24 None None 1).
  - forall_eval.
  - cbn [length tf_ts]. lia.
  - cbn [length tf_ts]. lia.
  - cbn [length]. lia.
Defined.

Lemma regress_deconv_warning_witness :
  exists dt spd v X smax smin,
    let n := length (deriv dt BP_ts) in
    let nm := Z.to_nat (lag_count 24 spd) in
    let et := true in
    let fq := etfqs (SciLib := ref_lib) in
    sampling tf_ts = Ok (dt, spd) /\
    lag_matrix n nm (map Qopp (deriv dt BP_ts)) = Ok v /\
    (((Some "ts"%string = None \/ Some "ts"%string = Some "hals"%string) /\
      hals_regressors (L := ref_lib) et fq n tf_ts v = Ok X)
     \/ (Some "ts"%string = Some "ts"%string /\
         exists ETv, Some ET_ts = Some ETv /\
                     ts_regressors true n nm (deriv dt ETv) v = Ok X)) /\
    np_max (svdvals (SciLib := ref_lib) (design n X)) = Ok smax /\
    np_min (svdvals (SciLib := ref_lib) (design n X)) = Ok smin /\
    [] = (if xgt (np_divide smax smin) 1000000
          then [IllConditioned (np_divide smax smin)] else []).
Proof.
  apply (regress_deconv_warning (L := ref_lib) tf_ts GW_ts BP_ts (Some ET_ts) 24
           (Some "ts"%string) None (corrected_of run_ts) (params_of run_ts) []).
  vm_compute. reflexivity.
Defined.

Lemma harmonic_lsqr_warning_witness :
  exists Phi smax smin,
    harmonic_design (L := ref_lib) [0; 1 # 4; 1 # 2; 3 # 4] 4 [1] = Ok Phi /\
    np_max (ls_s (ref_lstsq Phi [8; 7; 2; 3])) = Ok smax /\
    np_min (ls_s (ref_lstsq Phi [8; 7; 2; 3])) = Ok smin /\
    cond_num (result_of run_harmonic) = np_divide smax smin /\
    [] = (if xgt (np_divide smax smin) 1000000
          then [IllConditioned (np_divide smax smin)] else []).
Proof.
  apply (harmonic_lsqr_warning (L := ref_lib) [0; 1 # 4; 1 # 2; 3 # 4]
           [8; 7; 2; 3] [1] (result_of run_harmonic) []).
  vm_compute. reflexivity.
Defined.

Lemma harmonic_lsqr_returns_witness :
  exists r w,
    harmonic_lsqr (L := ref_lib) [0; 1 # 4; 1 # 2; 3 # 4] [8; 7; 2; 3] [1]
    = (Ok r, w).
Proof.
  apply (harmonic_lsqr_returns (L := ref_lib) (LS := ref_lib_spec)
           [0; 1 # 4; 1 # 2; 3 # 4] [8; 7; 2; 3] [1] Phi_orth).
  - vm_compute. reflexivity.
  - intro H. vm_compute in H. discriminate.
  - intro H. vm_compute in H. discriminate.
Defined.


